(** * CardMaker: the PNG character-card codec ([src/lib/pngCard.ts]) and its
    checksum ([src/lib/crc32.ts]), embedded in Rocq.

    After the codec come the smaller pieces around it: the JSON run
    finder of [src/lib/safeJson.ts], the PNG handlers of
    [src/app/page.tsx], [normalizeBaseUrl] of the API route and
    [bytesToHuman] of [src/lib/text.ts].

    Conventions of the embedding.
    - A [Uint8Array] is a [list byte]; reading past its end gives [None]
      (JavaScript's [undefined]).
    - A JavaScript number that the code only uses as an integer is a [Z];
      the bitwise operators convert their operands with [ToInt32] or
      [ToUint32] exactly as ECMAScript prescribes, so the sign of the
      intermediate results is the one the engine computes.
    - A JavaScript string is the list of its UTF-16 code units ([list Z]).
    - A function that can throw returns an [outcome]. *)

From Stdlib Require Import Strings.String Strings.Byte.
From Stdlib Require Import ZArith List Lia Bool.
Import Corelib.Init.Datatypes ListNotations.
Local Open Scope Z_scope.

Set Implicit Arguments.

(** ** Bytes and JavaScript integer arithmetic *)

Module JS.

Definition bytes := list byte.
Definition jsstring := list Z.

Definition byte_val (b : byte) : Z := Z.of_N (Byte.to_N b).

(** Storing a number into a [Uint8Array] slot keeps its low eight bits. *)
Definition to_uint8 (z : Z) : byte :=
  match Byte.of_N (Z.to_N (z mod 256)) with
  | Some b => b
  | None => x00
  end.

Definition ToUint32 (z : Z) : Z := z mod 2 ^ 32.

Definition ToInt32 (z : Z) : Z :=
  let u := z mod 2 ^ 32 in
  if u <? 2 ^ 31 then u else u - 2 ^ 32.

(** [a & b], [a | b], [a ^ b], [a << n] and [a >>> n]. *)
Definition and (a b : Z) : Z := ToInt32 (Z.land (ToInt32 a) (ToInt32 b)).
Definition or (a b : Z) : Z := ToInt32 (Z.lor (ToInt32 a) (ToInt32 b)).
Definition xor (a b : Z) : Z := ToInt32 (Z.lxor (ToInt32 a) (ToInt32 b)).
Definition shl (a n : Z) : Z := ToInt32 (Z.shiftl (ToInt32 a) (ToUint32 n mod 32)).
Definition shru (a n : Z) : Z := Z.shiftr (ToUint32 a) (ToUint32 n mod 32).

(** The code units of an ASCII literal of the source. *)
Definition lit (s : String.string) : jsstring :=
  map byte_val (String.list_byte_of_string s).

Fixpoint jsstring_eqb (a b : jsstring) : bool :=
  match a, b with
  | [], [] => true
  | x :: a', y :: b' => (x =? y) && jsstring_eqb a' b'
  | _, _ => false
  end.

(** What a call can do: return a value or throw. [Diverged] is the result
    of a loop whose fuel ran out; the entry points are shown never to
    produce it. *)
Inductive error : Type :=
| NotAPng              (* Error("不是有效 PNG 文件") *)
| ChunkDamaged         (* Error("PNG chunk 损坏") *)
| InvalidCharacter     (* DOMException of atob / btoa *)
| DecodeTypeError.     (* TypeError of a fatal TextDecoder *)

Inductive outcome (A : Type) : Type :=
| Returned (a : A)
| Thrown (e : error)
| Diverged.

Arguments Thrown {A} e.
Arguments Diverged {A}.

Definition bind {A B} (m : outcome A) (k : A -> outcome B) : outcome B :=
  match m with
  | Returned a => k a
  | Thrown e => Thrown e
  | Diverged => Diverged
  end.

End JS.

Import JS.

Notation "x <- m ;; k" := (JS.bind m (fun x => k))
  (at level 61, m at next level, right associativity).

(** ** [src/lib/crc32.ts] *)

Module Crc32.

(** One round of the inner loop of [makeCrc32Table]:
    [crc = crc & 1 ? (0xedb88320 ^ (crc >>> 1)) : (crc >>> 1)]. *)
Definition table_round (crc : Z) : Z :=
  if JS.and crc 1 =? 0 then JS.shru crc 1
  else JS.xor 0xedb88320 (JS.shru crc 1).

Definition table_entry (i : Z) : Z := JS.shru (Nat.iter 8 table_round i) 0.

Definition makeCrc32Table : list Z :=
  map (fun i => table_entry (Z.of_nat i)) (seq 0 256).

Definition CRC32_TABLE : list Z := Eval vm_compute in makeCrc32Table.

(** [CRC32_TABLE[i]]; an index outside the table reads [undefined], which
    the bitwise operators take as 0. *)
Definition table_get (i : Z) : Z :=
  if i <? 0 then 0 else nth (Z.to_nat i) CRC32_TABLE 0.

(** The body of the loop of [crc32]. *)
Definition crc32_step (crc : Z) (b : byte) : Z :=
  JS.xor (table_get (JS.and (JS.xor crc (byte_val b)) 0xff)) (JS.shru crc 8).

Definition crc32 (data : bytes) : Z :=
  JS.shru (JS.xor (fold_left crc32_step data 0xffffffff) 0xffffffff) 0.

(** The reference definition the specification names: reflected CRC-32,
    polynomial 0xEDB88320, register initialised to 0xFFFFFFFF, processed
    bit by bit, complemented once at the end (ISO/IEC 15948 Annex D). *)
Definition reference_bit (c : Z) : Z :=
  if Z.testbit c 0 then Z.lxor (Z.shiftr c 1) 0xEDB88320 else Z.shiftr c 1.

Definition reference_byte (c : Z) (b : byte) : Z :=
  Nat.iter 8 reference_bit (Z.lxor c (byte_val b)).

Definition crc32_reference (data : bytes) : Z :=
  Z.lxor (fold_left reference_byte data 0xFFFFFFFF) 0xFFFFFFFF.

End Crc32.


(** ** Platform functions the codec calls

    [TextEncoder], [TextDecoder], [btoa] and [atob] belong to the host, not
    to the repository. They are modelled after the WHATWG Encoding
    Standard and the HTML Standard (forgiving-base64), executable on
    every input. *)

Module Host.

(** *** [TextEncoder.prototype.encode] *)

Definition is_high_surrogate (u : Z) : bool := (0xD800 <=? u) && (u <=? 0xDBFF).
Definition is_low_surrogate (u : Z) : bool := (0xDC00 <=? u) && (u <=? 0xDFFF).

(** Conversion of a string to scalar values: a surrogate pair is combined,
    an unpaired surrogate becomes U+FFFD. *)
Fixpoint to_scalars (s : jsstring) : list Z :=
  match s with
  | [] => []
  | u :: rest =>
      if is_high_surrogate u then
        match rest with
        | l :: rest' =>
            if is_low_surrogate l
            then (0x10000 + (u - 0xD800) * 0x400 + (l - 0xDC00)) :: to_scalars rest'
            else 0xFFFD :: to_scalars rest
        | [] => [0xFFFD]
        end
      else if is_low_surrogate u then 0xFFFD :: to_scalars rest
      else u :: to_scalars rest
  end.

Definition utf8_encode_scalar (c : Z) : bytes :=
  if c <=? 0x7F then [to_uint8 c]
  else if c <=? 0x7FF then
    [to_uint8 (Z.shiftr c 6 + 0xC0);
     to_uint8 (Z.lor 0x80 (Z.land c 0x3F))]
  else if c <=? 0xFFFF then
    [to_uint8 (Z.shiftr c 12 + 0xE0);
     to_uint8 (Z.lor 0x80 (Z.land (Z.shiftr c 6) 0x3F));
     to_uint8 (Z.lor 0x80 (Z.land c 0x3F))]
  else
    [to_uint8 (Z.shiftr c 18 + 0xF0);
     to_uint8 (Z.lor 0x80 (Z.land (Z.shiftr c 12) 0x3F));
     to_uint8 (Z.lor 0x80 (Z.land (Z.shiftr c 6) 0x3F));
     to_uint8 (Z.lor 0x80 (Z.land c 0x3F))].

Definition TextEncoder_encode (s : jsstring) : bytes :=
  flat_map utf8_encode_scalar (to_scalars s).

(** *** [TextDecoder("utf-8")] *)

(** The decoder's registers while a multi-byte sequence is open: the code
    point so far, the continuation bytes still needed, and the bounds the
    next byte must respect. *)
Record utf8_state : Type := {
  code_point : Z;
  bytes_left : nat;
  lower_boundary : Z;
  upper_boundary : Z
}.

Inductive lead_result : Type :=
| LeadScalar (c : Z)
| LeadOpen (st : utf8_state)
| LeadError.

Definition utf8_lead (b : Z) : lead_result :=
  if b <=? 0x7F then LeadScalar b
  else if (0xC2 <=? b) && (b <=? 0xDF) then
    LeadOpen {| code_point := Z.land b 0x1F; bytes_left := 1;
                lower_boundary := 0x80; upper_boundary := 0xBF |}
  else if (0xE0 <=? b) && (b <=? 0xEF) then
    LeadOpen {| code_point := Z.land b 0xF; bytes_left := 2;
                lower_boundary := if b =? 0xE0 then 0xA0 else 0x80;
                upper_boundary := if b =? 0xED then 0x9F else 0xBF |}
  else if (0xF0 <=? b) && (b <=? 0xF4) then
    LeadOpen {| code_point := Z.land b 0x7; bytes_left := 3;
                lower_boundary := if b =? 0xF0 then 0x90 else 0x80;
                upper_boundary := if b =? 0xF4 then 0x8F else 0xBF |}
  else LeadError.

(** A byte met with no sequence open; [k] decodes the rest of the stream
    from the given registers. An item [None] is a decoding error. *)
Definition utf8_on_lead (b : Z) (k : option utf8_state -> list (option Z))
  : list (option Z) :=
  match utf8_lead b with
  | LeadScalar c => Some c :: k None
  | LeadOpen st => k (Some st)
  | LeadError => None :: k None
  end.

Fixpoint utf8_items (st : option utf8_state) (input : bytes) : list (option Z) :=
  match input with
  | [] =>
      match st with
      | None => []
      | Some _ => [None]
      end
  | b :: rest =>
      let v := byte_val b in
      let k := fun st' => utf8_items st' rest in
      match st with
      | None => utf8_on_lead v k
      | Some s =>
          if (lower_boundary s <=? v) && (v <=? upper_boundary s) then
            let cp := Z.lor (Z.shiftl (code_point s) 6) (Z.land v 0x3F) in
            match bytes_left s with
            | S (S n) =>
                k (Some {| code_point := cp; bytes_left := S n;
                           lower_boundary := 0x80; upper_boundary := 0xBF |})
            | _ => Some cp :: k None
            end
          else
            (* the error is reported and the byte is read again with
               no sequence open *)
            None :: utf8_on_lead v k
      end
  end.

Definition from_scalar (c : Z) : jsstring :=
  if c <=? 0xFFFF then [c]
  else [0xD800 + Z.shiftr (c - 0x10000) 10; 0xDC00 + Z.land (c - 0x10000) 0x3FF].

(** The byte order mark is dropped when it is the first item decoded
    ([ignoreBOM] is false in every decoder the codec builds). *)
Definition drop_bom (cs : list Z) : list Z :=
  match cs with
  | c :: rest => if c =? 0xFEFF then rest else cs
  | [] => []
  end.

Fixpoint all_decoded (items : list (option Z)) : option (list Z) :=
  match items with
  | [] => Some []
  | Some c :: rest =>
      match all_decoded rest with
      | Some cs => Some (c :: cs)
      | None => None
      end
  | None :: _ => None
  end.

(** [new TextDecoder("utf-8", { fatal: true }).decode(input)] *)
Definition utf8_decode_fatal (input : bytes) : outcome jsstring :=
  match all_decoded (utf8_items None input) with
  | Some cs => Returned (flat_map from_scalar (drop_bom cs))
  | None => Thrown DecodeTypeError
  end.

(** [new TextDecoder("utf-8").decode(input)]: an error yields U+FFFD. *)
Definition utf8_decode (input : bytes) : jsstring :=
  flat_map from_scalar
    (drop_bom (map (fun i => match i with Some c => c | None => 0xFFFD end)
                   (utf8_items None input))).

(** *** [TextDecoder("ascii")]: the label selects windows-1252 *)

Definition windows1252_high : list Z :=
  [0x20AC; 0x0081; 0x201A; 0x0192; 0x201E; 0x2026; 0x2020; 0x2021;
   0x02C6; 0x2030; 0x0160; 0x2039; 0x0152; 0x008D; 0x017D; 0x008F;
   0x0090; 0x2018; 0x2019; 0x201C; 0x201D; 0x2022; 0x2013; 0x2014;
   0x02DC; 0x2122; 0x0161; 0x203A; 0x0153; 0x009D; 0x017E; 0x0178].

Definition windows1252 (b : byte) : Z :=
  let v := byte_val b in
  if (0x80 <=? v) && (v <? 0xA0)
  then nth (Z.to_nat (v - 0x80)) windows1252_high 0
  else v.

Definition ascii_decode (input : bytes) : jsstring := map windows1252 input.

(** *** [btoa] and [atob] *)

Definition base64_alphabet : jsstring :=
  lit "ABCDEFGHIJKLMNOPQRSTUVWXYZabcdefghijklmnopqrstuvwxyz0123456789+/".

Definition base64_char (i : Z) : Z := nth (Z.to_nat i) base64_alphabet 0.

Definition pad : Z := 61.

Fixpoint base64_encode (data : list Z) : jsstring :=
  match data with
  | [] => []
  | [a] =>
      [base64_char (Z.shiftr a 2);
       base64_char (Z.shiftl (Z.land a 3) 4); pad; pad]
  | [a; b] =>
      [base64_char (Z.shiftr a 2);
       base64_char (Z.lor (Z.shiftl (Z.land a 3) 4) (Z.shiftr b 4));
       base64_char (Z.shiftl (Z.land b 15) 2); pad]
  | a :: b :: c :: rest =>
      [base64_char (Z.shiftr a 2);
       base64_char (Z.lor (Z.shiftl (Z.land a 3) 4) (Z.shiftr b 4));
       base64_char (Z.lor (Z.shiftl (Z.land b 15) 2) (Z.shiftr c 6));
       base64_char (Z.land c 63)] ++ base64_encode rest
  end.

(** [btoa(data)] throws when a code unit is above U+00FF. *)
Definition btoa (data : jsstring) : outcome jsstring :=
  if forallb (fun u => u <=? 0xFF) data
  then Returned (base64_encode data)
  else Thrown InvalidCharacter.

Definition is_ascii_whitespace (u : Z) : bool :=
  (u =? 9) || (u =? 10) || (u =? 12) || (u =? 13) || (u =? 32).

Definition base64_value (u : Z) : option Z :=
  if (65 <=? u) && (u <=? 90) then Some (u - 65)
  else if (97 <=? u) && (u <=? 122) then Some (u - 97 + 26)
  else if (48 <=? u) && (u <=? 57) then Some (u - 48 + 52)
  else if u =? 43 then Some 62
  else if u =? 47 then Some 63
  else None.

(** Step 2 of forgiving-base64 decode: when the length is a multiple of
    four, one or two trailing [=] are removed. *)
Definition strip_padding (data : jsstring) : jsstring :=
  if Z.of_nat (length data) mod 4 =? 0 then
    match rev data with
    | p1 :: p2 :: rest =>
        if p1 =? pad then (if p2 =? pad then rev rest else rev (p2 :: rest))
        else data
    | _ => data
    end
  else data.

Fixpoint base64_values (data : jsstring) : option (list Z) :=
  match data with
  | [] => Some []
  | u :: rest =>
      match base64_value u, base64_values rest with
      | Some v, Some vs => Some (v :: vs)
      | _, _ => None
      end
  end.

(** The 6-bit values are gathered four at a time into 24 bits; a tail of
    two or three values drops its last 4 or 2 bits. *)
Fixpoint base64_decode_values (vs : list Z) : list Z :=
  match vs with
  | a :: b :: c :: d :: rest =>
      let n := Z.lor (Z.shiftl (Z.lor (Z.shiftl (Z.lor (Z.shiftl a 6) b) 6) c) 6) d in
      [Z.shiftr n 16; Z.land (Z.shiftr n 8) 0xFF; Z.land n 0xFF]
        ++ base64_decode_values rest
  | [a; b; c] =>
      let n := Z.shiftr (Z.lor (Z.shiftl (Z.lor (Z.shiftl a 6) b) 6) c) 2 in
      [Z.shiftr n 8; Z.land n 0xFF]
  | [a; b] => [Z.shiftr (Z.lor (Z.shiftl a 6) b) 4]
  | _ => []
  end.

Definition atob (data : jsstring) : outcome jsstring :=
  let data1 := filter (fun u => negb (is_ascii_whitespace u)) data in
  let data2 := strip_padding data1 in
  if Z.of_nat (length data2) mod 4 =? 1 then Thrown InvalidCharacter
  else
    match base64_values data2 with
    | Some vs => Returned (base64_decode_values vs)
    | None => Thrown InvalidCharacter
    end.

End Host.

(** ** [src/lib/pngCard.ts] *)

Module PngCard.

Import Host.

Definition PNG_SIGNATURE : bytes := [x89; x50; x4e; x47; x0d; x0a; x1a; x0a].

Definition len (buf : bytes) : Z := Z.of_nat (length buf).

(** [buf[i]]: [None] is [undefined]. *)
Definition at_index (buf : bytes) (i : Z) : option byte :=
  if i <? 0 then None else nth_error buf (Z.to_nat i).

(** An element used as an operand of a bitwise operator. *)
Definition operand (x : option byte) : Z :=
  match x with
  | Some b => byte_val b
  | None => 0
  end.

(** [a !== b] on two array elements. *)
Definition strict_neq (a b : option byte) : bool :=
  match a, b with
  | Some x, Some y => negb (Byte.eqb x y)
  | None, None => false
  | _, _ => true
  end.

(** [buf.slice(start, end)] with the relative-index rules of typed arrays. *)
Definition relative_index (n i : Z) : Z :=
  if i <? 0 then Z.max (n + i) 0 else Z.min i n.

Definition slice (buf : bytes) (first last : Z) : bytes :=
  let k := relative_index (len buf) first in
  let final := relative_index (len buf) last in
  firstn (Z.to_nat (final - k)) (skipn (Z.to_nat k) buf).

(** [buf.slice(start)] *)
Definition slice_from (buf : bytes) (first : Z) : bytes :=
  slice buf first (len buf).

(** [buf.indexOf(x)], scanning from index [i]. *)
Fixpoint indexOf_from (buf : bytes) (x : byte) (i : Z) : Z :=
  match buf with
  | [] => -1
  | b :: rest => if Byte.eqb b x then i else indexOf_from rest x (i + 1)
  end.

Definition indexOf (buf : bytes) (x : byte) : Z := indexOf_from buf x 0.

Definition readUint32BE (buf : bytes) (offset : Z) : Z :=
  JS.or (JS.or (JS.or (JS.shl (operand (at_index buf offset)) 24)
                      (JS.shl (operand (at_index buf (offset + 1))) 16))
               (JS.shl (operand (at_index buf (offset + 2))) 8))
        (operand (at_index buf (offset + 3))).

Definition writeUint32BE (value : Z) : bytes :=
  [to_uint8 (JS.and (JS.shru value 24) 0xff);
   to_uint8 (JS.and (JS.shru value 16) 0xff);
   to_uint8 (JS.and (JS.shru value 8) 0xff);
   to_uint8 (JS.and value 0xff)].

(** [concatBytes(...parts)]: the parts copied one after the other into a
    new array of their total length. *)
Definition concatBytes (parts : list bytes) : bytes := concat parts.

Definition encodeAscii (s : jsstring) : bytes := TextEncoder_encode s.

(** [bytesToBinaryString]: the loop appends [String.fromCharCode] of one
    window of 0x2000 bytes per round. *)
Fixpoint bytesToBinaryString_loop (fuel : nat) (data : bytes) (i : Z)
    (out : jsstring) : outcome jsstring :=
  match fuel with
  | O => Diverged
  | S fuel' =>
      if i <? len data then
        let chunk := slice data i (i + 0x2000) in
        bytesToBinaryString_loop fuel' data (i + 0x2000)
          (out ++ map byte_val chunk)
      else Returned out
  end.

Definition bytesToBinaryString (data : bytes) : outcome jsstring :=
  bytesToBinaryString_loop (S (length data)) data 0 [].

Definition base64EncodeUtf8 (s : jsstring) : outcome jsstring :=
  binary <- bytesToBinaryString (TextEncoder_encode s) ;;
  btoa binary.

Definition base64DecodeUtf8 (b64 : jsstring) : outcome jsstring :=
  binary <- atob b64 ;;
  utf8_decode_fatal (map to_uint8 binary).

Record ExtractedPngCard : Type := {
  keyword : jsstring;
  jsonText : jsstring
}.

Record ParsedText : Type := {
  parsed_keyword : jsstring;
  textBytes : bytes
}.

Definition parseTextChunkKeyword (chunkData : bytes) : option ParsedText :=
  let nullIndex := indexOf chunkData x00 in
  if nullIndex <=? 0 then None
  else Some {| parsed_keyword := utf8_decode (slice chunkData 0 nullIndex);
               textBytes := slice_from chunkData (nullIndex + 1) |}.

(** [keyword === "chara" || keyword === "ccv3"] *)
Definition is_card_keyword (k : jsstring) : bool :=
  jsstring_eqb k (lit "chara") || jsstring_eqb k (lit "ccv3").

(** The first eight elements against [PNG_SIGNATURE]; [true] when the
    loop finds a difference. *)
Definition signature_differs (pngBytes : bytes) : bool :=
  existsb (fun i => strict_neq (at_index pngBytes i) (at_index PNG_SIGNATURE i))
          (map Z.of_nat (seq 0 8)).

(** The [while] loop of [extractCardFromPng]. *)
Fixpoint extract_loop (fuel : nat) (pngBytes : bytes) (offset : Z)
  : outcome (option ExtractedPngCard) :=
  match fuel with
  | O => Diverged
  | S fuel' =>
      if offset + 12 <=? len pngBytes then
        let length := JS.shru (readUint32BE pngBytes offset) 0 in
        let type := ascii_decode (slice pngBytes (offset + 4) (offset + 8)) in
        let dataStart := offset + 8 in
        let dataEnd := dataStart + length in
        let next := dataEnd + 4 in
        if next >? len pngBytes then Returned None
        else
          let matched :=
            if jsstring_eqb type (lit "tEXt") then
              match parseTextChunkKeyword (slice pngBytes dataStart dataEnd) with
              | Some parsed =>
                  if is_card_keyword (parsed_keyword parsed) then Some parsed else None
              | None => None
              end
            else None in
          match matched with
          | Some parsed =>
              let b64 := ascii_decode (textBytes parsed) in
              text <- base64DecodeUtf8 b64 ;;
              Returned (Some {| keyword := parsed_keyword parsed; jsonText := text |})
          | None =>
              if jsstring_eqb type (lit "IEND") then Returned None
              else extract_loop fuel' pngBytes next
          end
      else Returned None
  end.

Definition extractCardFromPng (pngBytes : bytes)
  : outcome (option ExtractedPngCard) :=
  if len pngBytes <? 8 then Returned None
  else if signature_differs pngBytes then Returned None
  else extract_loop (S (length pngBytes)) pngBytes 8.

Definition buildTextChunk (key base64Payload : jsstring) : bytes :=
  let typeBytes := encodeAscii (lit "tEXt") in
  let data := concatBytes [encodeAscii key; [x00]; encodeAscii base64Payload] in
  let lengthBytes := writeUint32BE (len data) in
  let crcBytes := writeUint32BE (Crc32.crc32 (concatBytes [typeBytes; data])) in
  concatBytes [lengthBytes; typeBytes; data; crcBytes].

(** [opts?: { writeCcv3?: boolean; writeChara?: boolean }] *)
Record EmbedOptions : Type := {
  writeCcv3 : option bool;
  writeChara : option bool
}.

(** [opts?.field ?? true] *)
Definition option_flag (opts : option EmbedOptions)
    (field : EmbedOptions -> option bool) : bool :=
  match opts with
  | Some o => match field o with Some b => b | None => true end
  | None => true
  end.

(** The [while] loop of [embedCardIntoPng]; the result is [outParts]. *)
Fixpoint embed_loop (fuel : nat) (pngBytes : bytes) (toInsert : list bytes)
    (outParts : list bytes) (offset : Z) : outcome (list bytes) :=
  match fuel with
  | O => Diverged
  | S fuel' =>
      if offset + 12 <=? len pngBytes then
        let length := JS.shru (readUint32BE pngBytes offset) 0 in
        let typeBytes := slice pngBytes (offset + 4) (offset + 8) in
        let type := ascii_decode typeBytes in
        let dataStart := offset + 8 in
        let dataEnd := dataStart + length in
        let chunkEnd := dataEnd + 4 in
        if chunkEnd >? len pngBytes then Thrown ChunkDamaged
        else
          let chunkData := slice pngBytes dataStart dataEnd in
          let skip :=
            if jsstring_eqb type (lit "tEXt") then
              match parseTextChunkKeyword chunkData with
              | Some parsed => is_card_keyword (parsed_keyword parsed)
              | None => false
              end
            else false in
          let outParts1 :=
            if jsstring_eqb type (lit "IEND") then outParts ++ toInsert
            else outParts in
          let outParts2 :=
            if negb skip then
              let lengthBytes := writeUint32BE (len chunkData) in
              let crcBytes :=
                writeUint32BE (Crc32.crc32 (concatBytes [typeBytes; chunkData])) in
              outParts1 ++ [concatBytes [lengthBytes; typeBytes; chunkData; crcBytes]]
            else outParts1 in
          if jsstring_eqb type (lit "IEND") then Returned outParts2
          else embed_loop fuel' pngBytes toInsert outParts2 chunkEnd
      else Returned outParts
  end.

Definition embedCardIntoPng (pngBytes : bytes) (cardJsonText : jsstring)
    (opts : option EmbedOptions) : outcome bytes :=
  let writeCcv3 := option_flag opts writeCcv3 in
  let writeChara := option_flag opts writeChara in
  if signature_differs pngBytes then Thrown NotAPng
  else
    b64 <- base64EncodeUtf8 cardJsonText ;;
    let toInsert :=
      (if writeChara then [buildTextChunk (lit "chara") b64] else [])
      ++ (if writeCcv3 then [buildTextChunk (lit "ccv3") b64] else []) in
    outParts <- embed_loop (S (length pngBytes)) pngBytes toInsert
                  [PNG_SIGNATURE] 8 ;;
    Returned (concatBytes outParts).

End PngCard.

(** ** The chunk stream of a buffer

    The codec has no separate walker: both loops of [pngCard.ts] read the
    stream in place. To speak about "the chunks of a buffer" the
    specification's walker (its section 4.2) is written out here, following the
    specification's words; the loops of the source are related to it by
    theorems below. *)

Module Walker.

Import Host PngCard.

Record chunk : Type := {
  ctype : bytes;     (* the 4-byte type tag *)
  cdata : bytes;     (* the payload *)
  ccrc : bytes       (* the 4-byte CRC field as stored *)
}.

(** The serialised form: big-endian length, type, payload, CRC. *)
Definition chunk_bytes (c : chunk) : bytes :=
  writeUint32BE (len (cdata c)) ++ ctype c ++ cdata c ++ ccrc c.

Definition type_is (c : chunk) (tag : String.string) : bool :=
  jsstring_eqb (ascii_decode (ctype c)) (lit tag).

(** How a walk ends: after an "IEND" chunk, with fewer than 12 bytes
    left, or at a chunk whose declared length overruns the buffer. *)
Inductive walk_end : Type := AtIEND | TooShort | Overrun.

Fixpoint walk (fuel : nat) (rest : bytes) : list chunk * walk_end :=
  match fuel with
  | O => ([], TooShort)
  | S fuel' =>
      if len rest <? 12 then ([], TooShort)
      else
        let n := JS.shru (readUint32BE rest 0) 0 in
        if len rest <? n + 12 then ([], Overrun)
        else
          let c := {| ctype := firstn 4 (skipn 4 rest);
                      cdata := firstn (Z.to_nat n) (skipn 8 rest);
                      ccrc := firstn 4 (skipn (8 + Z.to_nat n) rest) |} in
          if type_is c "IEND" then ([c], AtIEND)
          else
            let (cs, e) := walk fuel' (skipn (12 + Z.to_nat n) rest) in
            (c :: cs, e)
  end.

(** The chunks of a buffer, read from offset 8, and how the walk ended. *)
Definition chunks (pngBytes : bytes) : list chunk :=
  fst (walk (length pngBytes) (skipn 8 pngBytes)).

Definition stream_end (pngBytes : bytes) : walk_end :=
  snd (walk (length pngBytes) (skipn 8 pngBytes)).

Definition has_signature (pngBytes : bytes) : bool :=
  if list_eq_dec Byte.byte_eq_dec (firstn 8 pngBytes) PNG_SIGNATURE
  then true else false.

(** A valid PNG buffer: the signature, then a chunk stream that parses
    up to an "IEND" chunk. *)
Definition valid_png (pngBytes : bytes) : bool :=
  has_signature pngBytes &&
  match stream_end pngBytes with AtIEND => true | _ => false end.

(** A tEXt chunk keyed "chara" or "ccv3". *)
Definition is_carrier (c : chunk) : bool :=
  type_is c "tEXt" &&
  match parseTextChunkKeyword (cdata c) with
  | Some parsed => is_card_keyword (parsed_keyword parsed)
  | None => false
  end.

Definition fresh_crc (c : chunk) : bytes :=
  writeUint32BE (Crc32.crc32 (ctype c ++ cdata c)).

(** The CRC field equals the checksum of type tag and payload. *)
Definition crc_correct (c : chunk) : Prop := ccrc c = fresh_crc c.

(** A chunk with its CRC field recomputed. *)
Definition recrc (c : chunk) : chunk :=
  {| ctype := ctype c; cdata := cdata c; ccrc := fresh_crc c |}.

(** The chunk [buildTextChunk] serialises. *)
Definition text_chunk (key base64Payload : jsstring) : chunk :=
  recrc {| ctype := encodeAscii (lit "tEXt");
           cdata := encodeAscii key ++ [x00] ++ encodeAscii base64Payload;
           ccrc := [] |}.

(** The insertion set for a payload already in base64. *)
Definition insertion_set (opts : option EmbedOptions) (b64 : jsstring)
  : list chunk :=
  (if option_flag opts writeChara then [text_chunk (lit "chara") b64] else [])
  ++ (if option_flag opts writeCcv3 then [text_chunk (lit "ccv3") b64] else []).

(** What the rewrite does to a chunk list: carriers are dropped, the
    others get a fresh CRC, and the insertion set goes in front of
    "IEND". *)
Definition rewrite_chunks (inserted cs : list chunk) : list chunk :=
  flat_map (fun c =>
              (if type_is c "IEND" then inserted else [])
              ++ (if is_carrier c then [] else [recrc c])) cs.

(** What [extractCardFromPng] makes of a carrier chunk. *)
Definition decode_carrier (c : chunk) : outcome (option ExtractedPngCard) :=
  match parseTextChunkKeyword (cdata c) with
  | Some parsed =>
      text <- base64DecodeUtf8 (ascii_decode (textBytes parsed)) ;;
      Returned (Some {| keyword := parsed_keyword parsed; jsonText := text |})
  | None => Returned None
  end.

(** The keyword a chunk is stored under, if it has one. *)
Definition chunk_keyword (c : chunk) : option jsstring :=
  if type_is c "tEXt" then
    match parseTextChunkKeyword (cdata c) with
    | Some parsed => Some (parsed_keyword parsed)
    | None => None
    end
  else None.

Definition keyed (key : jsstring) (c : chunk) : bool :=
  match chunk_keyword c with
  | Some k => jsstring_eqb k key
  | None => false
  end.

(** A payload whose text chunk fits the 32-bit length field. *)
Definition fits_length_field (b64 : jsstring) : Prop :=
  len (encodeAscii b64) + 6 < 2 ^ 32.

(** The unsigned value of four bytes read big-endian. *)
Definition be32 (a b c d : byte) : Z :=
  ((byte_val a * 256 + byte_val b) * 256 + byte_val c) * 256 + byte_val d.

(** The parts the rewrite loop pushes for a chunk list, [inserted] being
    the serialised insertion set. *)
Definition embed_parts (inserted : list bytes) (cs : list chunk) : list bytes :=
  flat_map (fun c =>
              (if type_is c "IEND" then inserted else [])
              ++ (if is_carrier c then [] else [chunk_bytes (recrc c)])) cs.

(** The base64 text of a card: what [base64EncodeUtf8] returns. *)
Definition payload64 (cardJsonText : jsstring) : jsstring :=
  base64_encode (map byte_val (TextEncoder_encode cardJsonText)).

(** A chunk whose fields have the sizes the format gives them. *)
Definition well_sized (c : chunk) : Prop :=
  length (ctype c) = 4%nat /\ length (ccrc c) = 4%nat /\ len (cdata c) < 2 ^ 32.

End Walker.

(** ** Strings the round trip is stated for *)

Module Text.

Import Host.

Definition is_scalar (c : Z) : bool :=
  (0 <=? c) && (c <=? 0x10FFFF) && negb ((0xD800 <=? c) && (c <=? 0xDFFF)).

(** [String.prototype.isWellFormed]: 16-bit code units with no
    unpaired surrogate. *)
Fixpoint isWellFormed (s : jsstring) : bool :=
  match s with
  | [] => true
  | u :: rest =>
      (0 <=? u) && (u <=? 0xFFFF) &&
      if is_high_surrogate u then
        match rest with
        | l :: rest' => is_low_surrogate l && isWellFormed rest'
        | [] => false
        end
      else negb (is_low_surrogate u) && isWellFormed rest
  end.

(** The string does not start with U+FEFF. *)
Definition no_leading_bom (s : jsstring) : bool :=
  match s with
  | u :: _ => negb (u =? 0xFEFF)
  | [] => true
  end.

(** The scalar value the non-fatal decoder delivers for an item: U+FFFD
    for a decoding error. *)
Definition item_value (i : option Z) : Z :=
  match i with Some c => c | None => 0xFFFD end.

(** An item is a decoding error or a scalar value. *)
Definition item_ok (i : option Z) : Prop :=
  match i with Some c => is_scalar c = true | None => True end.

(** Registers of the decoder from which every accepted continuation
    ends in a scalar value. *)
Definition completes_to_scalars (st : utf8_state) : Prop :=
  let cp := code_point st in
  let first v := lower_boundary st <= v <= upper_boundary st in
  let later v := 0x80 <= v <= 0xBF in
  match bytes_left st with
  | 1%nat => forall v, first v -> is_scalar (cp * 64 + v mod 64) = true
  | 2%nat =>
      forall v1 v2, first v1 -> later v2 ->
        is_scalar ((cp * 64 + v1 mod 64) * 64 + v2 mod 64) = true
  | 3%nat =>
      forall v1 v2 v3, first v1 -> later v2 -> later v3 ->
        is_scalar (((cp * 64 + v1 mod 64) * 64 + v2 mod 64) * 64 + v3 mod 64)
        = true
  | _ => False
  end.

End Text.

(** ** The 6-bit values behind a base64 text *)

Module Base64.

Import Host.

(** The values [base64_encode] writes, without the padding. *)
Fixpoint sextets (data : list Z) : list Z :=
  match data with
  | [] => []
  | [a] => [Z.shiftr a 2; Z.shiftl (Z.land a 3) 4]
  | [a; b] =>
      [Z.shiftr a 2;
       Z.lor (Z.shiftl (Z.land a 3) 4) (Z.shiftr b 4);
       Z.shiftl (Z.land b 15) 2]
  | a :: b :: c :: rest =>
      [Z.shiftr a 2;
       Z.lor (Z.shiftl (Z.land a 3) 4) (Z.shiftr b 4);
       Z.lor (Z.shiftl (Z.land b 15) 2) (Z.shiftr c 6);
       Z.land c 63] ++ sextets rest
  end.

(** The padding [base64_encode] appends. *)
Fixpoint padding (data : list Z) : jsstring :=
  match data with
  | [] => []
  | [_] => [pad; pad]
  | [_; _] => [pad]
  | _ :: _ :: _ :: rest => padding rest
  end.

Definition is_octet (v : Z) : Prop := 0 <= v < 256.
Definition is_sextet (v : Z) : Prop := 0 <= v < 64.

End Base64.

(** ** Small buffers used as concrete inputs *)

Module Examples.

Import Host PngCard Walker.

Definition ascii (s : String.string) : bytes := String.list_byte_of_string s.

(** An "IEND" chunk with its standard CRC, and one whose CRC field is
    zero. *)
Definition iend : chunk :=
  {| ctype := ascii "IEND"; cdata := []; ccrc := [xae; x42; x60; x82] |}.

Definition iend_zero_crc : chunk :=
  {| ctype := ascii "IEND"; cdata := []; ccrc := [x00; x00; x00; x00] |}.

(** The header chunk of a 1x1 greyscale image. *)
Definition ihdr : chunk :=
  {| ctype := ascii "IHDR";
     cdata := [x00; x00; x00; x01; x00; x00; x00; x01; x08; x00; x00; x00; x00];
     ccrc := [x3a; x7e; x9b; x55] |}.

(** tEXt chunks; the CRC field is left zero, the codec never reads it. *)
Definition text (payload : bytes) : chunk :=
  {| ctype := ascii "tEXt"; cdata := payload; ccrc := [x00; x00; x00; x00] |}.

(** base64 of [{}] is [e30=], of [[]] is [W10=]. *)
Definition chara_braces : chunk := text (ascii "chara" ++ [x00] ++ ascii "e30=").
Definition ccv3_brackets : chunk := text (ascii "ccv3" ++ [x00] ++ ascii "W10=").

(** A carrier whose text is not base64, one whose text decodes to the
    lone byte 0xFF, a payload without NUL and one with an empty keyword. *)
Definition chara_not_base64 : chunk := text (ascii "chara" ++ [x00] ++ ascii "!").
Definition chara_not_utf8 : chunk := text (ascii "chara" ++ [x00] ++ ascii "/w==").
Definition text_without_nul : chunk := text (ascii "chara").
Definition text_empty_keyword : chunk := text ([x00] ++ ascii "chara").

Definition png (cs : list chunk) : bytes :=
  PNG_SIGNATURE ++ flat_map chunk_bytes cs.

(** [{ writeChara: true, writeCcv3: false }] *)
Definition chara_only : option EmbedOptions :=
  Some {| writeCcv3 := Some false; writeChara := Some true |}.

(** A card text that starts with a byte order mark: U+FEFF, then [{}]. *)
Definition bom_braces : jsstring := 0xFEFF :: lit "{}".

End Examples.

(** ** Card chunks, byte by byte

    The specification calls a tEXt chunk "keyed chara or ccv3" when its
    keyword, read as ASCII, is exactly that word. The codec decodes the
    keyword as UTF-8, with a decoder that drops a leading byte order
    mark, and so takes the same words behind the bytes EF BB BF as well.
    Both readings are written out here on the bytes of the chunk. *)

Module Keying.

Import PngCard Walker Examples.

Definition bytes_eqb (a b : bytes) : bool :=
  if list_eq_dec Byte.byte_eq_dec a b then true else false.

(** The bytes of the payload before its first NUL, when there is a NUL
    and it is not the first byte. *)
Definition keyword_bytes (payload : bytes) : option bytes :=
  let nullIndex := indexOf payload x00 in
  if nullIndex <=? 0 then None else Some (slice payload 0 nullIndex).

Definition card_word (kb : bytes) : bool :=
  bytes_eqb kb (ascii "chara") || bytes_eqb kb (ascii "ccv3").

(** The specification's reading: a tEXt chunk whose keyword bytes are
    exactly "chara" or "ccv3". *)
Definition ascii_keyed (c : chunk) : bool :=
  bytes_eqb (ctype c) (ascii "tEXt") &&
  match keyword_bytes (cdata c) with
  | Some kb => card_word kb
  | None => false
  end.

(** A tEXt chunk whose keyword bytes are EF BB BF and then "chara" or
    "ccv3". *)
Definition mark_keyed (c : chunk) : bool :=
  bytes_eqb (ctype c) (ascii "tEXt") &&
  match keyword_bytes (cdata c) with
  | Some (a :: b :: m :: kb) =>
      bytes_eqb [a; b; m] [xef; xbb; xbf] && card_word kb
  | _ => false
  end.

(** What the codec takes for a card chunk: either of the two. *)
Definition card_chunk (c : chunk) : bool := ascii_keyed c || mark_keyed c.

(** A tEXt chunk with a correct CRC field, keyed "chara" behind a byte
    order mark; its text is the base64 of [[]]. *)
Definition marked_chara_brackets : chunk :=
  recrc (text (xef :: xbb :: xbf :: ascii "chara" ++ [x00] ++ ascii "W10=")).

End Keying.

(** ** [src/lib/safeJson.ts]

    [extractFirstJsonObject] and [extractFirstJsonArray] are the same
    code up to the two delimiters; it is written once, with the
    delimiters as arguments. [tryParseJson] is [JSON.parse] in a [try]
    and is left to the host. *)

Module SafeJson.

Import PngCard.

(** The code unit of a one-character literal of the source. *)
Definition unit_of (s : String.string) : Z := hd 0 (lit s).

(** [text.length] and [text[i]]; [None] is [undefined]. *)
Definition str_len (text : jsstring) : Z := Z.of_nat (length text).

Definition char_at (text : jsstring) (i : Z) : option Z :=
  if i <? 0 then None else nth_error text (Z.to_nat i).

(** [ch === "{"] for an element [ch] and a one-character literal. *)
Definition strict_eq (ch : option Z) (u : Z) : bool :=
  match ch with
  | Some c => c =? u
  | None => false
  end.

(** [text.indexOf(u)] for a one-character search string, scanning from
    index [i]. *)
Fixpoint str_indexOf_from (text : jsstring) (u : Z) (i : Z) : Z :=
  match text with
  | [] => -1
  | c :: rest => if c =? u then i else str_indexOf_from rest u (i + 1)
  end.

Definition str_indexOf (text : jsstring) (u : Z) : Z := str_indexOf_from text u 0.

(** [text.slice(first, last)] *)
Definition str_slice (text : jsstring) (first last : Z) : jsstring :=
  let k := relative_index (str_len text) first in
  let final := relative_index (str_len text) last in
  firstn (Z.to_nat (final - k)) (skipn (Z.to_nat k) text).

(** The [for] loop: [i] runs from [start], [depth] counts the opening
    delimiters met minus the closing ones. *)
Fixpoint scan_loop (opening closing : Z) (fuel : nat) (text : jsstring)
    (start i depth : Z) : outcome (option jsstring) :=
  match fuel with
  | O => Diverged
  | S fuel' =>
      if i <? str_len text then
        let ch := char_at text i in
        let depth1 := if strict_eq ch opening then depth + 1 else depth in
        let depth2 := if strict_eq ch closing then depth1 - 1 else depth1 in
        if depth2 =? 0 then Returned (Some (str_slice text start (i + 1)))
        else scan_loop opening closing fuel' text start (i + 1) depth2
      else Returned None
  end.

(** The body shared by the two functions. *)
Definition extractFirst (opening closing : Z) (text : jsstring)
  : outcome (option jsstring) :=
  let start := str_indexOf text opening in
  if start <? 0 then Returned None
  else scan_loop opening closing (S (length text)) text start start 0.

Definition extractFirstJsonObject (text : jsstring) : outcome (option jsstring) :=
  extractFirst (unit_of "{") (unit_of "}") text.

Definition extractFirstJsonArray (text : jsstring) : outcome (option jsstring) :=
  extractFirst (unit_of "[") (unit_of "]") text.

End SafeJson.

(** ** Nesting depth of a text

    The words the facts about [safeJson.ts] are stated in. *)

Module Nesting.

(** The depth after one more code unit. *)
Definition nest (opening closing : Z) (depth u : Z) : Z :=
  let depth1 := if u =? opening then depth + 1 else depth in
  if u =? closing then depth1 - 1 else depth1.

(** Opening delimiters minus closing delimiters in [s]. *)
Definition depth (opening closing : Z) (s : jsstring) : Z :=
  fold_left (nest opening closing) s 0.

(** Every non-empty prefix of [s] shorter than [n] units is still open. *)
Definition open_below (opening closing : Z) (s : jsstring) (n : nat) : Prop :=
  forall k, (0 < k < n)%nat -> 0 < depth opening closing (firstn k s).

(** The number of units up to and including the one that brings the
    depth, [d] so far, back to zero. *)
Fixpoint closing_length (opening closing : Z) (d : Z) (s : jsstring) : option nat :=
  match s with
  | [] => None
  | u :: rest =>
      let d' := nest opening closing d u in
      if d' =? 0 then Some 1%nat
      else option_map S (closing_length opening closing d' rest)
  end.

(** A run that starts with the opening delimiter, ends with the closing
    one, is balanced, and is not balanced at any point before its end. *)
Definition balanced_run (opening closing : Z) (r : jsstring) : Prop :=
  hd_error r = Some opening
  /\ last r 0 = closing
  /\ depth opening closing r = 0
  /\ open_below opening closing r (length r).

(** A text that starts with the opening delimiter and never gets back
    to depth zero. *)
Definition never_closed (opening closing : Z) (body : jsstring) : Prop :=
  hd_error body = Some opening
  /\ open_below opening closing body (S (length body)).

End Nesting.

(** ** [src/app/page.tsx]: the PNG export and import handlers

    The handlers are closures over the page's React state; here each is
    a function from the state before to the state after.
    [cardToJsonString] and [tryParseJson] rest on [JSON.stringify] and
    [JSON.parse], and [normalizeImportedCard] works on the value parsed;
    none of the three is embedded: the handlers are written for any
    such functions. A download is recorded by the bytes handed to
    [downloadBlob]; file names and object URLs are left out. *)

Module Page.

Import PngCard.

(** The texts the two handlers put into [error] and [notice]. *)
Inductive message : Type :=
| NeedPng                       (* "请先上传一张 PNG（作为封面底图）" *)
| Exported                      (* "已导出 PNG（已写入 chara/ccv3 元数据）" *)
| Caught (e : error)            (* e.message of the error caught *)
| NoCardInPng                   (* "未在 PNG 中找到 chara/ccv3 元数据" *)
| BadCardJson (reason : jsstring) (* "PNG 元数据 JSON 解析失败：" + parsed.error *)
| Imported (keyword : jsstring).  (* "已从 PNG 导入角色卡（" + keyword + "）" *)

Section Handlers.

Variables Card Json : Type.
Variable cardToJsonString : Card -> jsstring.
(** [{ ok: true, value }] is [inl value], [{ ok: false, error }] is
    [inr error]. *)
Variable tryParseJson : jsstring -> Json + jsstring.
Variable normalizeImportedCard : Json -> Card.

Record state : Type := {
  card : Card;
  png : option bytes;             (* [png?.bytes] *)
  error_shown : option message;
  notice_shown : option message;
  downloads : list bytes
}.

Definition setError (m : option message) (st : state) : state :=
  {| card := card st; png := png st; error_shown := m;
     notice_shown := notice_shown st; downloads := downloads st |}.

Definition setNotice (m : option message) (st : state) : state :=
  {| card := card st; png := png st; error_shown := error_shown st;
     notice_shown := m; downloads := downloads st |}.

Definition setCard (c : Card) (st : state) : state :=
  {| card := c; png := png st; error_shown := error_shown st;
     notice_shown := notice_shown st; downloads := downloads st |}.

Definition setPng (b : bytes) (st : state) : state :=
  {| card := card st; png := Some b; error_shown := error_shown st;
     notice_shown := notice_shown st; downloads := downloads st |}.




(** [file] is the content of the file chosen, [None] when there is
    none. Nothing catches what [extractCardFromPng] throws. *)
Definition importPngFile (file : option bytes) (st : state) : outcome state :=
  match file with
  | None => Returned st
  | Some fileBytes =>
      extracted <- extractCardFromPng fileBytes ;;
      match extracted with
      | None => Returned (setError (Some NoCardInPng) st)
      | Some found =>
          match tryParseJson (jsonText found) with
          | inr reason => Returned (setError (Some (BadCardJson reason)) st)
          | inl value =>
              Returned (setNotice (Some (Imported (keyword found)))
                          (setPng fileBytes
                             (setCard (normalizeImportedCard value) st)))
          end
      end
  end.

End Handlers.

End Page.

(** ** [src/app/api/.../route.ts]: [normalizeBaseUrl]

    The route handler itself is a network call and is left out; what is
    embedded is the base URL it starts from. *)

Module Route.

(** Whether [\/+$] matches at the start of [s]: one or more "/", then
    the end of the input. *)
Definition trailing_run (s : jsstring) : bool :=
  match s with
  | [] => false
  | _ => forallb (fun u => u =? SafeJson.unit_of "/") s
  end.

(** [baseUrl.replace(/\/+$/, "")]: the pattern is tried at each index
    from the left; it consumes the rest of the input, so the first match
    is replaced by cutting the string there. *)
Fixpoint normalizeBaseUrl (baseUrl : jsstring) : jsstring :=
  match baseUrl with
  | [] => []
  | u :: rest =>
      if trailing_run (u :: rest) then [] else u :: normalizeBaseUrl rest
  end.

End Route.

(** ** [src/lib/text.ts]: [bytesToHuman]

    The argument is a file size: an integer from 0 up to 2^53, which a
    double holds exactly. Dividing such a double by 1024 only lowers its
    exponent, so [value] is the exact fraction [bytes / 1024^idx]; it is
    kept as numerator and denominator. [toFixed] follows ECMAScript's
    [Number.prototype.toFixed] on that fraction (its branch for numbers
    below 10^21): the integer [n] nearest to [value * 10^f], the larger
    one on a tie, written in decimal with a point before the last [f]
    digits. *)

Module Size.

Record fraction : Type := { numerator : Z; denominator : Z }.

(** [value >= k] *)
Definition at_least (value : fraction) (k : Z) : bool :=
  k * denominator value <=? numerator value.

Definition units : list String.string := ["B"; "KB"; "MB"; "GB"]%string.

(** [units[idx]] inside the template literal, where a missing element
    prints as "undefined". *)
Definition unit_name (idx : Z) : jsstring :=
  lit (if idx <? 0 then "undefined"%string
       else nth (Z.to_nat idx) units "undefined"%string).

(** The [while] loop. *)
Fixpoint scale_loop (fuel : nat) (value : fraction) (idx : Z)
  : outcome (fraction * Z) :=
  match fuel with
  | O => Diverged
  | S fuel' =>
      if at_least value 1024 && (idx <? Z.of_nat (length units) - 1) then
        scale_loop fuel'
          {| numerator := numerator value;
             denominator := denominator value * 1024 |} (idx + 1)
      else Returned (value, idx)
  end.

Fixpoint digit_units (d : Decimal.uint) : jsstring :=
  match d with
  | Decimal.Nil => []
  | Decimal.D0 r => 48 :: digit_units r
  | Decimal.D1 r => 49 :: digit_units r
  | Decimal.D2 r => 50 :: digit_units r
  | Decimal.D3 r => 51 :: digit_units r
  | Decimal.D4 r => 52 :: digit_units r
  | Decimal.D5 r => 53 :: digit_units r
  | Decimal.D6 r => 54 :: digit_units r
  | Decimal.D7 r => 55 :: digit_units r
  | Decimal.D8 r => 56 :: digit_units r
  | Decimal.D9 r => 57 :: digit_units r
  end.

(** The decimal representation of a non-negative integer; "0" for 0. *)
Definition decimal (n : Z) : jsstring := digit_units (N.to_uint (Z.to_N n)).

(** [value.toFixed(fractionDigits)] for a [value] that is not negative. *)
Definition toFixed (value : fraction) (fractionDigits : Z) : jsstring :=
  let scaled := numerator value * 10 ^ fractionDigits in
  let n := (2 * scaled + denominator value) / (2 * denominator value) in
  let m := decimal n in
  if fractionDigits =? 0 then m
  else
    let f := Z.to_nat fractionDigits in
    let m := repeat 48 (S f - length m) ++ m in
    let k := length m in
    firstn (k - f) m ++ lit "." ++ skipn (k - f) m.

Definition bytesToHuman (bytes : Z) : outcome jsstring :=
  scaled <- scale_loop (S (length units)) {| numerator := bytes; denominator := 1 |} 0 ;;
  let value := fst scaled in
  let idx := snd scaled in
  let fixed := if idx =? 0 then 0 else if at_least value 10 then 1 else 2 in
  Returned (toFixed value fixed ++ lit " " ++ unit_name idx).

End Size.

(** * Theorems *)

(** ** Bytes and 32-bit arithmetic *)

Module JSFacts.

Lemma byte_val_range (b : byte) : 0 <= byte_val b < 256.
Proof.
  unfold byte_val. pose proof (Byte.to_N_bounded b). lia.
Qed.

Lemma to_uint8_byte_val (b : byte) : to_uint8 (byte_val b) = b.
Proof.
  unfold to_uint8. pose proof (byte_val_range b).
  rewrite Z.mod_small by lia. unfold byte_val.
  rewrite N2Z.id, Byte.of_to_N. reflexivity.
Qed.

Lemma byte_val_to_uint8 (z : Z) : byte_val (to_uint8 z) = z mod 256.
Proof.
  unfold to_uint8, byte_val.
  pose proof (Z.mod_pos_bound z 256 ltac:(lia)) as Hr.
  destruct (Byte.of_N (Z.to_N (z mod 256))) as [b|] eqn:E.
  - apply Byte.to_of_N in E. rewrite E. lia.
  - apply Byte.of_N_None_iff in E. lia.
Qed.

Lemma byte_val_inj (a b : byte) : byte_val a = byte_val b -> a = b.
Proof.
  intros H. rewrite <- (to_uint8_byte_val a), <- (to_uint8_byte_val b).
  now rewrite H.
Qed.

Lemma ToUint32_range (z : Z) : 0 <= ToUint32 z < 2 ^ 32.
Proof. unfold ToUint32. apply Z.mod_pos_bound. lia. Qed.

Lemma ToUint32_small (z : Z) : 0 <= z < 2 ^ 32 -> ToUint32 z = z.
Proof. intros. unfold ToUint32. apply Z.mod_small. lia. Qed.

Lemma ToUint32_ToInt32 (z : Z) : ToUint32 (ToInt32 z) = ToUint32 z.
Proof.
  unfold ToUint32, ToInt32.
  destruct (z mod 2 ^ 32 <? 2 ^ 31).
  - apply Z.mod_mod. lia.
  - replace (z mod 2 ^ 32 - 2 ^ 32) with (z mod 2 ^ 32 + (-1) * 2 ^ 32) by lia.
    rewrite Z.mod_add by lia. apply Z.mod_mod. lia.
Qed.

Lemma ToUint32_testbit (z : Z) (i : Z) :
  Z.testbit (ToUint32 z) i = (i <? 32) && Z.testbit z i.
Proof.
  unfold ToUint32.
  destruct (Z.ltb_spec i 32).
  - destruct (Z.ltb_spec i 0).
    + now rewrite !Z.testbit_neg_r by lia.
    + rewrite Z.mod_pow2_bits_low by lia. reflexivity.
  - rewrite Z.mod_pow2_bits_high by lia. reflexivity.
Qed.

Lemma ToUint32_lxor (a b : Z) :
  ToUint32 (Z.lxor a b) = Z.lxor (ToUint32 a) (ToUint32 b).
Proof.
  apply Z.bits_inj'. intros i Hi.
  rewrite Z.lxor_spec, !ToUint32_testbit, Z.lxor_spec.
  destruct (i <? 32); reflexivity.
Qed.

Lemma ToUint32_land (a b : Z) :
  ToUint32 (Z.land a b) = Z.land (ToUint32 a) (ToUint32 b).
Proof.
  apply Z.bits_inj'. intros i Hi.
  rewrite Z.land_spec, !ToUint32_testbit, Z.land_spec.
  destruct (i <? 32), (Z.testbit a i), (Z.testbit b i); reflexivity.
Qed.

Lemma ToUint32_lor (a b : Z) :
  ToUint32 (Z.lor a b) = Z.lor (ToUint32 a) (ToUint32 b).
Proof.
  apply Z.bits_inj'. intros i Hi.
  rewrite Z.lor_spec, !ToUint32_testbit, Z.lor_spec.
  destruct (i <? 32), (Z.testbit a i), (Z.testbit b i); reflexivity.
Qed.

(** The unsigned reading of each operator's result. *)
Lemma unsigned_xor (a b : Z) :
  ToUint32 (JS.xor a b) = Z.lxor (ToUint32 a) (ToUint32 b).
Proof.
  unfold JS.xor. now rewrite ToUint32_ToInt32, ToUint32_lxor, !ToUint32_ToInt32.
Qed.

Lemma unsigned_and (a b : Z) :
  ToUint32 (JS.and a b) = Z.land (ToUint32 a) (ToUint32 b).
Proof.
  unfold JS.and. now rewrite ToUint32_ToInt32, ToUint32_land, !ToUint32_ToInt32.
Qed.

Lemma unsigned_or (a b : Z) :
  ToUint32 (JS.or a b) = Z.lor (ToUint32 a) (ToUint32 b).
Proof.
  unfold JS.or. now rewrite ToUint32_ToInt32, ToUint32_lor, !ToUint32_ToInt32.
Qed.

Lemma ToInt32_small (z : Z) : 0 <= z < 2 ^ 31 -> ToInt32 z = z.
Proof.
  intros H. unfold ToInt32. rewrite Z.mod_small by lia.
  destruct (Z.ltb_spec z (2 ^ 31)); lia.
Qed.

(** A masked value is non-negative, so [&] with a mask of [k] low bits
    reads them off the unsigned operand. *)
Lemma and_ones (a k : Z) :
  0 <= k < 32 -> JS.and a (Z.ones k) = ToUint32 a mod 2 ^ k.
Proof.
  intros Hk.
  assert (Hp : 0 < 2 ^ k <= 2 ^ 31).
  { split; [apply Z.pow_pos_nonneg; lia|].
    apply Z.pow_le_mono_r; lia. }
  assert (Hones : 0 <= Z.ones k < 2 ^ 31) by (rewrite Z.ones_equiv; lia).
  pose proof (Z.mod_pos_bound (ToUint32 a) (2 ^ k) ltac:(lia)) as Hr.
  assert (E : ToUint32 (JS.and a (Z.ones k)) = ToUint32 a mod 2 ^ k).
  { rewrite unsigned_and, (@ToUint32_small (Z.ones k)) by lia.
    apply Z.land_ones. lia. }
  unfold JS.and in *. rewrite ToUint32_ToInt32 in E.
  unfold ToInt32 at 1. unfold ToUint32 in E at 1. rewrite E.
  destruct (Z.ltb_spec (ToUint32 a mod 2 ^ k) (2 ^ 31)); lia.
Qed.

Lemma shru_spec (a n : Z) :
  0 <= n < 32 -> JS.shru a n = Z.shiftr (ToUint32 a) n.
Proof.
  intros H. unfold JS.shru. rewrite (@ToUint32_small n) by lia.
  now rewrite Z.mod_small by lia.
Qed.

Lemma shru_0 (a : Z) : JS.shru a 0 = ToUint32 a.
Proof. rewrite shru_spec by lia. apply Z.shiftr_0_r. Qed.

End JSFacts.

(** ** The checksum against its reference definition *)

Module Crc32Facts.

Import JSFacts Crc32.

Lemma shiftr_range (u n : Z) :
  0 <= u < 2 ^ 32 -> 0 <= n -> 0 <= Z.shiftr u n < 2 ^ 32.
Proof.
  intros Hu Hn. rewrite Z.shiftr_div_pow2 by lia.
  assert (0 < 2 ^ n) by (apply Z.pow_pos_nonneg; lia).
  split; [apply Z.div_pos; lia|].
  apply Z.le_lt_trans with u; [|lia].
  apply Z.div_le_upper_bound; nia.
Qed.

(** One round of the table builder is one bit of the reference. *)
Lemma table_round_unsigned (c : Z) :
  ToUint32 (table_round c) = reference_bit (ToUint32 c).
Proof.
  unfold table_round, reference_bit.
  change 1 with (Z.ones 1) at 1. rewrite and_ones by lia.
  rewrite Z.bit0_eqb. change (2 ^ 1) with 2.
  pose proof (ToUint32_range c) as Hu.
  pose proof (Z.mod_pos_bound (ToUint32 c) 2 ltac:(lia)) as Hm.
  rewrite !shru_spec by lia.
  pose proof (shiftr_range Hu (n:=1) ltac:(lia)) as Hs.
  destruct (Z.eqb_spec (ToUint32 c mod 2) 0) as [E|E].
  - rewrite E. simpl (0 =? 1). now apply ToUint32_small.
  - replace (ToUint32 c mod 2) with 1 by lia. simpl (1 =? 1).
    rewrite unsigned_xor, !ToUint32_small by (try assumption; lia).
    apply Z.lxor_comm.
Qed.

Lemma table_rounds_unsigned (n : nat) (c : Z) :
  ToUint32 (Nat.iter n table_round c) = Nat.iter n reference_bit (ToUint32 c).
Proof.
  induction n as [|n IH]; simpl; [reflexivity|].
  now rewrite table_round_unsigned, IH.
Qed.

(** Every table slot holds eight reference rounds of its index. *)
Lemma table_get_reference (i : Z) :
  0 <= i < 256 ->
  table_get i = Nat.iter 8 reference_bit i /\ 0 <= table_get i < 2 ^ 32.
Proof.
  intros Hi.
  assert (H : forallb (fun k =>
                let j := Z.of_nat k in
                (table_get j =? Nat.iter 8 reference_bit j)
                && (0 <=? table_get j) && (table_get j <? 2 ^ 32))
              (seq 0 256) = true) by (vm_compute; reflexivity).
  rewrite forallb_forall in H.
  specialize (H (Z.to_nat i)). rewrite Z2Nat.id in H by lia.
  assert (Hin : In (Z.to_nat i) (seq 0 256)) by (apply in_seq; lia).
  apply H in Hin. cbv zeta in Hin.
  apply andb_prop in Hin as [Hin H3]. apply andb_prop in Hin as [H1 H2].
  apply Z.eqb_eq in H1. apply Z.leb_le in H2. apply Z.ltb_lt in H3.
  auto.
Qed.

Lemma table_is_built : CRC32_TABLE = makeCrc32Table.
Proof. vm_compute. reflexivity. Qed.

(** Bits above the ones consumed pass through the rounds unchanged. *)
Lemma reference_bits_shifted (n : nat) (a w : Z) :
  Nat.iter n reference_bit (Z.lxor a (Z.shiftl w (Z.of_nat n)))
  = Z.lxor (Nat.iter n reference_bit a) w.
Proof.
  revert a. induction n as [|n IH]; intros a.
  - change (Z.of_nat 0) with 0. rewrite Z.shiftl_0_r. reflexivity.
  - rewrite !Nat.iter_succ_r.
    replace (reference_bit (Z.lxor a (Z.shiftl w (Z.of_nat (S n)))))
      with (Z.lxor (reference_bit a) (Z.shiftl w (Z.of_nat n))).
    + apply IH.
    + unfold reference_bit.
      rewrite Z.lxor_spec, (Z.shiftl_spec_low w) by lia.
      rewrite xorb_false_r, Z.shiftr_lxor.
      rewrite Z.shiftr_shiftl_l by lia.
      replace (Z.of_nat (S n) - 1) with (Z.of_nat n) by lia.
      destruct (Z.testbit a 0); [|reflexivity].
      rewrite !Z.lxor_assoc. f_equal. apply Z.lxor_comm.
Qed.

Lemma split_low_byte (v : Z) :
  v = Z.lxor (v mod 2 ^ 8) (Z.shiftl (Z.shiftr v 8) 8).
Proof.
  apply Z.bits_inj'. intros i Hi.
  rewrite Z.lxor_spec.
  destruct (Z.ltb_spec i 8).
  - rewrite Z.mod_pow2_bits_low, Z.shiftl_spec_low by lia.
    now rewrite xorb_false_r.
  - rewrite Z.mod_pow2_bits_high, Z.shiftl_spec, Z.shiftr_spec by lia.
    simpl. f_equal. lia.
Qed.

Lemma reference_byte_shifted (a w : Z) :
  Nat.iter 8 reference_bit (Z.lxor a (Z.shiftl w 8))
  = Z.lxor (Nat.iter 8 reference_bit a) w.
Proof. exact (reference_bits_shifted 8 a w). Qed.

Lemma and_0xff (a : Z) : JS.and a 0xff = ToUint32 a mod 2 ^ 8.
Proof. apply (@and_ones a 8). lia. Qed.

(** The step of [crc32], with every operator read unsigned. *)
Lemma crc32_step_table (c : Z) (b : byte) :
  ToUint32 (crc32_step c b) =
  Z.lxor (ToUint32 (table_get (Z.lxor (ToUint32 c) (byte_val b) mod 2 ^ 8)))
         (ToUint32 (Z.shiftr (ToUint32 c) 8)).
Proof.
  unfold crc32_step.
  pose proof (byte_val_range b) as Hb.
  rewrite and_0xff, !unsigned_xor.
  rewrite (@ToUint32_small (byte_val b)) by lia.
  rewrite (shru_spec c (n:=8)) by lia.
  reflexivity.
Qed.

Lemma shiftr_lxor_byte (u : Z) (b : byte) :
  Z.shiftr (Z.lxor u (byte_val b)) 8 = Z.shiftr u 8.
Proof.
  pose proof (byte_val_range b) as Hb.
  rewrite Z.shiftr_lxor.
  replace (Z.shiftr (byte_val b) 8) with 0; [apply Z.lxor_0_r|].
  rewrite Z.shiftr_div_pow2 by lia. symmetry. apply Z.div_small. lia.
Qed.

(** A table lookup on the low byte, combined with the high bits, is
    eight bits of the reference. *)
Lemma table_lookup_reference (u v : Z) :
  0 <= u < 2 ^ 32 -> Z.shiftr v 8 = Z.shiftr u 8 ->
  Z.lxor (ToUint32 (table_get (v mod 2 ^ 8))) (ToUint32 (Z.shiftr u 8))
  = Nat.iter 8 reference_bit v.
Proof.
  intros Hu Hv.
  pose proof (Z.mod_pos_bound v (2 ^ 8) ltac:(lia)) as Hm.
  destruct (@table_get_reference (v mod 2 ^ 8)) as [Ht Hr]; [lia|].
  rewrite (ToUint32_small Hr), Ht.
  rewrite (ToUint32_small (shiftr_range Hu (n:=8) ltac:(lia))).
  rewrite <- Hv, <- reference_byte_shifted.
  f_equal. symmetry. apply split_low_byte.
Qed.

(** The table-driven step of [crc32] is eight bits of the reference. *)
Lemma crc32_step_unsigned (c : Z) (b : byte) :
  ToUint32 (crc32_step c b) = reference_byte (ToUint32 c) b.
Proof.
  rewrite crc32_step_table. unfold reference_byte.
  apply table_lookup_reference; [apply ToUint32_range|].
  apply shiftr_lxor_byte.
Qed.

Lemma crc32_fold_unsigned (data : bytes) (c : Z) :
  ToUint32 (fold_left crc32_step data c)
  = fold_left reference_byte data (ToUint32 c).
Proof.
  assert (Hcons : forall (A : Type) (f : A -> byte -> A) b l a,
             fold_left f (b :: l) a = fold_left f l (f a b)) by reflexivity.
  revert c. induction data as [|b data IH]; intros c; [reflexivity|].
  rewrite !Hcons, IH, crc32_step_unsigned. reflexivity.
Qed.

Lemma crc32_matches_reference (data : bytes) :
  crc32 data = crc32_reference data.
Proof.
  unfold crc32, crc32_reference.
  rewrite shru_0, unsigned_xor, crc32_fold_unsigned.
  reflexivity.
Qed.

Lemma crc32_range (data : bytes) : 0 <= crc32 data < 2 ^ 32.
Proof. unfold crc32. rewrite shru_0. apply ToUint32_range. Qed.

(** C8. [crc32] computes the reflected CRC-32 of the reference definition
    (polynomial 0xEDB88320, initial value 0xFFFFFFFF, complemented at the
    end) on every byte sequence, and the checksum of the four ASCII bytes
    of "IEND" is 0xAE426082. *)
Theorem crc32_is_reference_crc32 :
  (forall data : bytes, crc32 data = crc32_reference data)
  /\ crc32 (String.list_byte_of_string "IEND") = 0xAE426082.
Proof.
  split; [exact crc32_matches_reference|].
  vm_compute. reflexivity.
Qed.

End Crc32Facts.

(** ** Buffers: indexing, slices and big-endian words *)

Module BufferFacts.

Import JSFacts PngCard Walker.

(** Bit operations on disjoint fields, as arithmetic. *)
Lemma lor_shiftl_add (a r k : Z) :
  0 <= k -> 0 <= r < 2 ^ k -> Z.lor (Z.shiftl a k) r = a * 2 ^ k + r.
Proof.
  intros Hk Hr.
  assert (E : Z.land (Z.shiftl a k) r = 0).
  { apply Z.bits_inj'. intros i Hi. rewrite Z.land_spec, Z.bits_0.
    destruct (Z.ltb_spec i k).
    - now rewrite Z.shiftl_spec_low by lia.
    - replace r with (r mod 2 ^ k) by (apply Z.mod_small; lia).
      rewrite Z.mod_pow2_bits_high by lia. apply andb_false_r. }
  pose proof (Z.add_lor_land (Z.shiftl a k) r) as H.
  rewrite E, Z.shiftl_mul_pow2 in H by lia.
  rewrite Z.shiftl_mul_pow2 by lia. lia.
Qed.

Lemma lor_add_low (a r k : Z) :
  0 <= k -> 0 <= r < 2 ^ k -> a mod 2 ^ k = 0 -> Z.lor a r = a + r.
Proof.
  intros Hk Hr Ha.
  assert (0 < 2 ^ k) by (apply Z.pow_pos_nonneg; lia).
  replace a with ((a / 2 ^ k) * 2 ^ k) at 1
    by (pose proof (Z.div_mod a (2 ^ k)); lia).
  rewrite <- Z.shiftl_mul_pow2 by lia.
  rewrite lor_shiftl_add by lia.
  pose proof (Z.div_mod a (2 ^ k)); lia.
Qed.

Lemma len_nonneg (buf : bytes) : 0 <= len buf.
Proof. unfold len. lia. Qed.

Lemma len_app (a b : bytes) : len (a ++ b) = len a + len b.
Proof. unfold len. rewrite length_app. lia. Qed.

Lemma at_index_skipn (buf : bytes) (k : nat) (i : Z) :
  0 <= i -> at_index buf (Z.of_nat k + i) = at_index (skipn k buf) i.
Proof.
  intros Hi. unfold at_index.
  destruct (Z.ltb_spec (Z.of_nat k + i) 0); [lia|].
  destruct (Z.ltb_spec i 0); [lia|].
  rewrite nth_error_skipn. f_equal. lia.
Qed.

Lemma readUint32BE_skipn (buf : bytes) (k : nat) :
  readUint32BE buf (Z.of_nat k) = readUint32BE (skipn k buf) 0.
Proof.
  unfold readUint32BE.
  rewrite <- !at_index_skipn by lia.
  now rewrite Z.add_0_r.
Qed.

Lemma slice_inside (buf : bytes) (i j : nat) :
  (i <= j)%nat -> (j <= length buf)%nat ->
  slice buf (Z.of_nat i) (Z.of_nat j) = firstn (j - i) (skipn i buf).
Proof.
  intros Hij Hj. unfold slice, relative_index, len.
  destruct (Z.ltb_spec (Z.of_nat i) 0); [lia|].
  destruct (Z.ltb_spec (Z.of_nat j) 0); [lia|].
  rewrite !Z.min_l by lia.
  rewrite Nat2Z.id. f_equal. lia.
Qed.

Lemma slice_from_inside (buf : bytes) (i : nat) :
  (i <= length buf)%nat -> slice_from buf (Z.of_nat i) = skipn i buf.
Proof.
  intros Hi. unfold slice_from, len.
  rewrite slice_inside by lia.
  apply firstn_all2. rewrite length_skipn. lia.
Qed.

Lemma unsigned_shl_byte (b : byte) (k : Z) :
  0 <= k <= 24 -> ToUint32 (JS.shl (byte_val b) k) = byte_val b * 2 ^ k.
Proof.
  intros Hk. pose proof (byte_val_range b) as Hb.
  unfold JS.shl. rewrite ToUint32_ToInt32.
  rewrite (@ToUint32_small k) by lia.
  rewrite (Z.mod_small k) by lia.
  rewrite ToInt32_small by lia.
  rewrite Z.shiftl_mul_pow2 by lia.
  apply ToUint32_small.
  assert (0 < 2 ^ k <= 2 ^ 24).
  { split; [apply Z.pow_pos_nonneg; lia|apply Z.pow_le_mono_r; lia]. }
  nia.
Qed.

Lemma readUint32BE_cons4 (a b c d : byte) (rest : bytes) :
  JS.shru (readUint32BE (a :: b :: c :: d :: rest) 0) 0 = be32 a b c d.
Proof.
  rewrite shru_0. unfold readUint32BE, be32.
  change (at_index (a :: b :: c :: d :: rest) 0) with (Some a).
  change (at_index (a :: b :: c :: d :: rest) (0 + 1)) with (Some b).
  change (at_index (a :: b :: c :: d :: rest) (0 + 2)) with (Some c).
  change (at_index (a :: b :: c :: d :: rest) (0 + 3)) with (Some d).
  cbn [operand].
  pose proof (byte_val_range a). pose proof (byte_val_range b).
  pose proof (byte_val_range c). pose proof (byte_val_range d).
  rewrite !unsigned_or, !unsigned_shl_byte by lia.
  rewrite (@ToUint32_small (byte_val d)) by lia.
  set (A := byte_val a) in *. set (B := byte_val b) in *.
  set (C := byte_val c) in *. set (D := byte_val d) in *.
  change (2 ^ 24) with 16777216. change (2 ^ 16) with 65536.
  change (2 ^ 8) with 256.
  rewrite (@lor_add_low (A * 16777216) (B * 65536) 24);
    [|lia|change (2 ^ 24) with 16777216; lia|apply Z.mod_mul; lia].
  rewrite (@lor_add_low (A * 16777216 + B * 65536) (C * 256) 16);
    [|lia|change (2 ^ 16) with 65536; lia|].
  - rewrite (@lor_add_low (A * 16777216 + B * 65536 + C * 256) D 8);
      [lia|lia|change (2 ^ 8) with 256; lia|].
    replace (A * 16777216 + B * 65536 + C * 256)
      with ((A * 65536 + B * 256 + C) * 2 ^ 8) by lia.
    apply Z.mod_mul. lia.
  - replace (A * 16777216 + B * 65536)
      with ((A * 256 + B) * 2 ^ 16) by lia.
    apply Z.mod_mul. lia.
Qed.

Lemma be32_range (a b c d : byte) : 0 <= be32 a b c d < 2 ^ 32.
Proof.
  unfold be32.
  pose proof (byte_val_range a). pose proof (byte_val_range b).
  pose proof (byte_val_range c). pose proof (byte_val_range d). lia.
Qed.

Lemma writeUint32BE_spec (n : Z) :
  0 <= n < 2 ^ 32 ->
  writeUint32BE n =
    [to_uint8 (n / 2 ^ 24); to_uint8 (n / 2 ^ 16); to_uint8 (n / 2 ^ 8); to_uint8 n].
Proof.
  intros Hn. unfold writeUint32BE.
  change 0xff with (Z.ones 8). rewrite !and_ones by lia.
  rewrite !shru_spec by lia.
  rewrite !(@ToUint32_small n) by lia.
  rewrite !Z.shiftr_div_pow2 by lia.
  assert (R : forall k, 0 <= k -> ToUint32 (n / 2 ^ k) = n / 2 ^ k).
  { intros k Hk. apply ToUint32_small.
    assert (0 < 2 ^ k) by (apply Z.pow_pos_nonneg; lia).
    split; [apply Z.div_pos; lia|].
    apply Z.div_lt_upper_bound; nia. }
  rewrite !R by lia.
  assert (T : forall z, to_uint8 (z mod 2 ^ 8) = to_uint8 z).
  { intros z. apply byte_val_inj. rewrite !byte_val_to_uint8.
    change (2 ^ 8) with 256. apply Z.mod_mod. lia. }
  now rewrite !T.
Qed.

Lemma writeUint32BE_length (n : Z) : length (writeUint32BE n) = 4%nat.
Proof. reflexivity. Qed.

(** Writing the word read from four bytes gives the four bytes back. *)
Lemma writeUint32BE_be32 (a b c d : byte) :
  writeUint32BE (be32 a b c d) = [a; b; c; d].
Proof.
  rewrite writeUint32BE_spec by apply be32_range.
  pose proof (byte_val_range a). pose proof (byte_val_range b).
  pose proof (byte_val_range c). pose proof (byte_val_range d).
  unfold be32.
  repeat f_equal; apply byte_val_inj; rewrite byte_val_to_uint8.
  - change (2 ^ 24) with 16777216.
    rewrite Z.mod_small; [|split; [apply Z.div_pos; lia | apply Z.div_lt_upper_bound; lia]].
    symmetry. apply Z.div_unique with
      ((byte_val b * 256 + byte_val c) * 256 + byte_val d); lia.
  - change (2 ^ 16) with 65536.
    replace ((((byte_val a * 256 + byte_val b) * 256 + byte_val c) * 256 + byte_val d) / 65536)
      with (byte_val a * 256 + byte_val b)
      by (apply Z.div_unique with (byte_val c * 256 + byte_val d); lia).
    rewrite Z.add_comm, Z.mod_add by lia. apply Z.mod_small. lia.
  - change (2 ^ 8) with 256.
    replace ((((byte_val a * 256 + byte_val b) * 256 + byte_val c) * 256 + byte_val d) / 256)
      with ((byte_val a * 256 + byte_val b) * 256 + byte_val c)
      by (apply Z.div_unique with (byte_val d); lia).
    rewrite Z.add_comm, Z.mod_add by lia. apply Z.mod_small. lia.
  - rewrite Z.add_comm, Z.mod_add by lia. apply Z.mod_small. lia.
Qed.

(** Reading back a written word gives the word. *)
Lemma readUint32BE_writeUint32BE (n : Z) (rest : bytes) :
  0 <= n < 2 ^ 32 ->
  JS.shru (readUint32BE (writeUint32BE n ++ rest) 0) 0 = n.
Proof.
  intros Hn. rewrite writeUint32BE_spec by lia.
  cbn [app]. rewrite readUint32BE_cons4. unfold be32.
  rewrite !byte_val_to_uint8.
  change (2 ^ 24) with 16777216. change (2 ^ 16) with 65536.
  change (2 ^ 8) with 256. change (2 ^ 32) with 4294967296 in Hn.
  pose proof (Z.div_mod n 256 ltac:(lia)).
  pose proof (Z.div_mod (n / 256) 256 ltac:(lia)).
  pose proof (Z.div_mod (n / 256 / 256) 256 ltac:(lia)).
  pose proof (Z.mod_pos_bound n 256 ltac:(lia)).
  pose proof (Z.mod_pos_bound (n / 256) 256 ltac:(lia)).
  pose proof (Z.mod_pos_bound (n / 256 / 256) 256 ltac:(lia)).
  replace (n / 65536) with (n / 256 / 256) by (rewrite Z.div_div by lia; reflexivity).
  replace (n / 16777216) with (n / 256 / 256 / 256)
    by (rewrite !Z.div_div by lia; reflexivity).
  assert (0 <= n / 256 / 256 / 256 < 256).
  { split; [repeat apply Z.div_pos; lia|].
    repeat (apply Z.div_lt_upper_bound; [lia|]). lia. }
  rewrite (Z.mod_small (n / 256 / 256 / 256)) by lia.
  lia.
Qed.

End BufferFacts.

(** ** The loops of the codec read the chunk stream of the walker *)

Module WalkerFacts.

Import JSFacts BufferFacts Host PngCard Walker.

Lemma len_skipn (p : bytes) (k : nat) :
  (k <= length p)%nat -> len (skipn k p) = len p - Z.of_nat k.
Proof. intros H. unfold len. rewrite length_skipn. lia. Qed.

Lemma slice_at (p : bytes) (k : nat) (a b : Z) :
  0 <= a <= b -> Z.of_nat k + b <= len p ->
  slice p (Z.of_nat k + a) (Z.of_nat k + b)
  = firstn (Z.to_nat (b - a)) (skipn (Z.to_nat a) (skipn k p)).
Proof.
  intros Hab Hb. unfold len in Hb.
  replace (Z.of_nat k + a) with (Z.of_nat (k + Z.to_nat a)) by lia.
  replace (Z.of_nat k + b) with (Z.of_nat (k + Z.to_nat b)) by lia.
  rewrite slice_inside by lia.
  rewrite skipn_skipn. f_equal; [lia|f_equal; lia].
Qed.

Lemma word_range (buf : bytes) : 0 <= JS.shru (readUint32BE buf 0) 0 < 2 ^ 32.
Proof. rewrite shru_0. apply ToUint32_range. Qed.

Lemma embed_loop_walk (fuel : nat) : forall (p : bytes) ins k out,
  (k <= length p)%nat -> (length p - k < fuel)%nat ->
  embed_loop fuel p ins out (Z.of_nat k) =
  match walk fuel (skipn k p) with
  | (_, Overrun) => Thrown ChunkDamaged
  | (cs, _) => Returned (out ++ embed_parts ins cs)
  end.
Proof.
  induction fuel as [|fuel IH]; intros p ins k out Hk Hf; [lia|].
  cbn [embed_loop walk]. cbv zeta.
  rewrite len_skipn by lia.
  destruct (Z.leb_spec (Z.of_nat k + 12) (len p)) as [H12|H12];
    destruct (Z.ltb_spec (len p - Z.of_nat k) 12) as [H12'|H12']; try lia.
  2:{ now rewrite app_nil_r. }
  rewrite readUint32BE_skipn.
  pose proof (word_range (skipn k p)) as Hn.
  remember (JS.shru (readUint32BE (skipn k p) 0) 0) as n eqn:En. clear En.
  rewrite Z.gtb_ltb.
  destruct (Z.ltb_spec (len p) (Z.of_nat k + 8 + n + 4)) as [Ho|Ho];
    destruct (Z.ltb_spec (len p - Z.of_nat k) (n + 12)) as [Ho'|Ho']; try lia.
  1:{ reflexivity. }
  rewrite (@slice_at p k 4 8) by lia.
  replace (Z.of_nat k + 8 + n) with (Z.of_nat k + (8 + n)) by lia.
  rewrite (@slice_at p k 8 (8 + n)) by lia.
  replace (Z.to_nat (8 - 4)) with 4%nat by lia.
  replace (Z.to_nat (8 + n - 8)) with (Z.to_nat n) by lia.
  change (Z.to_nat 4) with 4%nat. change (Z.to_nat 8) with 8%nat.
  remember (firstn 4 (skipn 4 (skipn k p))) as ty eqn:Ety.
  remember (firstn (Z.to_nat n) (skipn 8 (skipn k p))) as dat eqn:Edat.
  remember (firstn 4 (skipn (8 + Z.to_nat n) (skipn k p))) as crc eqn:Ecrc.
  set (c := {| ctype := ty; cdata := dat; ccrc := crc |}).
  assert (Hparts : forall o,
    (if negb (if jsstring_eqb (ascii_decode ty) (lit "tEXt")
              then match parseTextChunkKeyword dat with
                   | Some parsed => is_card_keyword (parsed_keyword parsed)
                   | None => false
                   end
              else false)
     then (if jsstring_eqb (ascii_decode ty) (lit "IEND") then o ++ ins else o)
          ++ [concatBytes [writeUint32BE (len dat); ty; dat;
                writeUint32BE (Crc32.crc32 (concatBytes [ty; dat]))]]
     else (if jsstring_eqb (ascii_decode ty) (lit "IEND") then o ++ ins else o))
    = o ++ embed_parts ins [c]).
  { intros o. unfold embed_parts, is_carrier, type_is, chunk_bytes, recrc, fresh_crc, concatBytes, c.
    cbn [flat_map ctype cdata ccrc concat].
    rewrite !app_nil_r.
    destruct (jsstring_eqb (ascii_decode ty) (lit "tEXt"));
      destruct (jsstring_eqb (ascii_decode ty) (lit "IEND"));
      cbn [andb negb]; try destruct (parseTextChunkKeyword dat) as [parsed|];
      try destruct (is_card_keyword (parsed_keyword parsed));
      cbn [negb]; rewrite ?app_nil_r, <- ?app_assoc; reflexivity. }
  rewrite Hparts. clear Hparts.
  assert (Hty : type_is c "IEND" = jsstring_eqb (ascii_decode ty) (lit "IEND")) by reflexivity.
  rewrite Hty. clear Hty.
  destruct (jsstring_eqb (ascii_decode ty) (lit "IEND")) eqn:EI.
  - reflexivity.
  - replace (Z.of_nat k + (8 + n) + 4) with (Z.of_nat (k + (12 + Z.to_nat n))) by lia.
    rewrite IH by (unfold len in *; lia).
    rewrite skipn_skipn. replace (12 + Z.to_nat n + k)%nat with (k + (12 + Z.to_nat n))%nat by lia.
    destruct (walk fuel (skipn (k + (12 + Z.to_nat n)) p)) as [cs e].
    assert (Hc : embed_parts ins (c :: cs) = embed_parts ins [c] ++ embed_parts ins cs).
    { change (c :: cs) with ([c] ++ cs). unfold embed_parts. apply flat_map_app. }
    rewrite Hc, app_assoc. destruct e; reflexivity.
Qed.

Lemma extract_loop_walk (fuel : nat) : forall (p : bytes) k,
  (k <= length p)%nat -> (length p - k < fuel)%nat ->
  extract_loop fuel p (Z.of_nat k) =
  match find is_carrier (fst (walk fuel (skipn k p))) with
  | Some c => decode_carrier c
  | None => Returned None
  end.
Proof.
  induction fuel as [|fuel IH]; intros p k Hk Hf; [lia|].
  cbn [extract_loop walk]. cbv zeta.
  rewrite len_skipn by lia.
  destruct (Z.leb_spec (Z.of_nat k + 12) (len p)) as [H12|H12];
    destruct (Z.ltb_spec (len p - Z.of_nat k) 12) as [H12'|H12']; try lia.
  2:{ reflexivity. }
  rewrite readUint32BE_skipn.
  pose proof (word_range (skipn k p)) as Hn.
  remember (JS.shru (readUint32BE (skipn k p) 0) 0) as n eqn:En. clear En.
  rewrite Z.gtb_ltb.
  destruct (Z.ltb_spec (len p) (Z.of_nat k + 8 + n + 4)) as [Ho|Ho];
    destruct (Z.ltb_spec (len p - Z.of_nat k) (n + 12)) as [Ho'|Ho']; try lia.
  1:{ reflexivity. }
  rewrite (@slice_at p k 4 8) by lia.
  replace (Z.of_nat k + 8 + n) with (Z.of_nat k + (8 + n)) by lia.
  rewrite (@slice_at p k 8 (8 + n)) by lia.
  replace (Z.to_nat (8 - 4)) with 4%nat by lia.
  replace (Z.to_nat (8 + n - 8)) with (Z.to_nat n) by lia.
  change (Z.to_nat 4) with 4%nat. change (Z.to_nat 8) with 8%nat.
  remember (firstn 4 (skipn 4 (skipn k p))) as ty eqn:Ety.
  remember (firstn (Z.to_nat n) (skipn 8 (skipn k p))) as dat eqn:Edat.
  remember (firstn 4 (skipn (8 + Z.to_nat n) (skipn k p))) as crc eqn:Ecrc.
  set (c := {| ctype := ty; cdata := dat; ccrc := crc |}).
  assert (Hty : type_is c "IEND" = jsstring_eqb (ascii_decode ty) (lit "IEND"))
    by reflexivity.
  assert (Hcar : is_carrier c =
            jsstring_eqb (ascii_decode ty) (lit "tEXt") &&
            match parseTextChunkKeyword dat with
            | Some parsed => is_card_keyword (parsed_keyword parsed)
            | None => false
            end) by reflexivity.
  assert (Hdec : decode_carrier c =
            match parseTextChunkKeyword dat with
            | Some parsed =>
                text <- base64DecodeUtf8 (ascii_decode (textBytes parsed)) ;;
                Returned (Some {| keyword := parsed_keyword parsed; jsonText := text |})
            | None => Returned None
            end) by reflexivity.
  rewrite Hty.
  replace (Z.of_nat k + (8 + n) + 4) with (Z.of_nat (k + (12 + Z.to_nat n))) by lia.
  rewrite IH by (unfold len in *; lia).
  rewrite skipn_skipn.
  replace (12 + Z.to_nat n + k)%nat with (k + (12 + Z.to_nat n))%nat by lia.
  destruct (walk fuel (skipn (k + (12 + Z.to_nat n)) p)) as [cs e].
  cbn [fst].
  assert (Hfind : forall l, find is_carrier (c :: l) =
                     if is_carrier c then Some c else find is_carrier l)
    by reflexivity.
  destruct (jsstring_eqb (ascii_decode ty) (lit "IEND")); cbn [fst];
    rewrite Hfind, Hcar, ?Hdec;
    destruct (jsstring_eqb (ascii_decode ty) (lit "tEXt")); cbn [andb];
    try destruct (parseTextChunkKeyword dat) as [parsed|];
    try destruct (is_card_keyword (parsed_keyword parsed));
    try rewrite Hdec; reflexivity.
Qed.

Lemma walk_fuel (f1 : nat) : forall f2 rest,
  (length rest <= f1)%nat -> (length rest <= f2)%nat ->
  walk f1 rest = walk f2 rest.
Proof.
  induction f1 as [|f1 IH]; intros f2 rest H1 H2.
  - destruct rest; [|simpl in H1; lia]. destruct f2; reflexivity.
  - destruct f2 as [|f2].
    + destruct rest; [|simpl in H2; lia]. reflexivity.
    + cbn [walk]. cbv zeta.
      destruct (Z.ltb_spec (len rest) 12) as [H12|H12]; [reflexivity|].
      pose proof (word_range rest) as Hn.
      remember (JS.shru (readUint32BE rest 0) 0) as n eqn:En. clear En.
      destruct (Z.ltb_spec (len rest) (n + 12)); [reflexivity|].
      rewrite (IH f2); [reflexivity| |];
        rewrite length_skipn; unfold len in *; lia.
Qed.

Lemma firstn_app_exact (A : Type) (a b : list A) (k : nat) :
  length a = k -> firstn k (a ++ b) = a.
Proof.
  intros <-. rewrite firstn_app, Nat.sub_diag, firstn_all. cbn. apply app_nil_r.
Qed.

Lemma skipn_app_exact (A : Type) (a b : list A) (k : nat) :
  length a = k -> skipn k (a ++ b) = b.
Proof.
  intros <-. rewrite skipn_app, Nat.sub_diag, skipn_all. reflexivity.
Qed.

(** One step of the walker on a buffer that starts with a serialised chunk. *)
Lemma walk_chunk_bytes (fuel : nat) (c : chunk) (rest : bytes) :
  well_sized c ->
  walk (S fuel) (chunk_bytes c ++ rest) =
  if type_is c "IEND" then ([c], AtIEND)
  else let (cs, e) := walk fuel rest in (c :: cs, e).
Proof.
  intros (Hty & Hcrc & Hlen).
  destruct c as [ty dat crc]. cbn [ctype cdata ccrc] in *.
  unfold chunk_bytes. cbn [ctype cdata ccrc].
  pose proof (len_nonneg dat) as Hd.
  cbn [walk]. cbv zeta.
  rewrite <- !app_assoc.
  rewrite readUint32BE_writeUint32BE by lia.
  rewrite !len_app.
  assert (L4 : len (writeUint32BE (len dat)) = 4) by reflexivity.
  assert (Lty : len ty = 4) by (unfold len; lia).
  assert (Lcrc : len crc = 4) by (unfold len; lia).
  pose proof (len_nonneg rest).
  rewrite L4, Lty, Lcrc.
  destruct (Z.ltb_spec (4 + (4 + (len dat + (4 + len rest)))) 12); [lia|].
  destruct (Z.ltb_spec (4 + (4 + (len dat + (4 + len rest)))) (len dat + 12)); [lia|].
  assert (Hn : Z.to_nat (len dat) = length dat) by (unfold len; lia).
  rewrite Hn.
  assert (E1 : skipn 4 (writeUint32BE (len dat) ++ ty ++ dat ++ crc ++ rest)
               = ty ++ dat ++ crc ++ rest)
    by (apply skipn_app_exact; reflexivity).
  assert (E2 : skipn 8 (writeUint32BE (len dat) ++ ty ++ dat ++ crc ++ rest)
               = dat ++ crc ++ rest).
  { change 8%nat with (4 + 4)%nat. rewrite <- skipn_skipn, E1.
    now apply skipn_app_exact. }
  assert (E3 : skipn (8 + length dat) (writeUint32BE (len dat) ++ ty ++ dat ++ crc ++ rest)
               = crc ++ rest).
  { rewrite Nat.add_comm, <- skipn_skipn, E2. now apply skipn_app_exact. }
  assert (E4 : skipn (12 + length dat) (writeUint32BE (len dat) ++ ty ++ dat ++ crc ++ rest)
               = rest).
  { change 12%nat with (4 + 8)%nat. rewrite <- Nat.add_assoc, <- skipn_skipn, E3.
    now apply skipn_app_exact. }
  rewrite E1, E2, E3, E4.
  rewrite !firstn_app_exact by auto.
  reflexivity.
Qed.

(** Every chunk the walker yields has the sizes of the format, and the
    buffer starts with the chunks' serialised forms. *)
Lemma walk_sound (fuel : nat) : forall rest cs e,
  walk fuel rest = (cs, e) ->
  Forall well_sized cs
  /\ exists tail, rest = flat_map chunk_bytes cs ++ tail.
Proof.
  induction fuel as [|fuel IH]; intros rest cs e H.
  - inversion H; subst. split; [constructor|exists rest; reflexivity].
  - cbn [walk] in H. cbv zeta in H.
    destruct (Z.ltb_spec (len rest) 12) as [H12|H12].
    { inversion H; subst. split; [constructor|exists rest; reflexivity]. }
    destruct rest as [|a [|b [|c0 [|d rest4]]]];
      try (unfold len in H12; cbn in H12; lia).
    rewrite readUint32BE_cons4 in H.
    pose proof (be32_range a b c0 d) as Hn.
    pose proof (writeUint32BE_be32 a b c0 d) as Hw.
    remember (be32 a b c0 d) as n eqn:En. clear En.
    destruct (Z.ltb_spec (len (a :: b :: c0 :: d :: rest4)) (n + 12)) as [Ho|Ho].
    { inversion H; subst. split; [constructor|eexists; reflexivity]. }
    remember (a :: b :: c0 :: d :: rest4) as rest eqn:Er.
    set (c := {| ctype := firstn 4 (skipn 4 rest);
                 cdata := firstn (Z.to_nat n) (skipn 8 rest);
                 ccrc := firstn 4 (skipn (8 + Z.to_nat n) rest) |}) in *.
    assert (Hlen : (12 + Z.to_nat n <= length rest)%nat) by (unfold len in Ho; lia).
    assert (Hws : well_sized c).
    { unfold well_sized, c, len. cbn [ctype cdata ccrc].
      rewrite !length_firstn, !length_skipn. lia. }
    assert (Hser : rest = chunk_bytes c ++ skipn (12 + Z.to_nat n) rest).
    { unfold chunk_bytes, c. cbn [ctype cdata ccrc].
      replace (len (firstn (Z.to_nat n) (skipn 8 rest))) with n
        by (unfold len; rewrite length_firstn, length_skipn; lia).
      rewrite Hw, <- !app_assoc.
      etransitivity; [symmetry; apply (firstn_skipn 4)|].
      f_equal; [subst rest; reflexivity|].
      etransitivity; [symmetry; apply (firstn_skipn 4)|]. f_equal.
      rewrite skipn_skipn. change (4 + 4)%nat with 8%nat.
      etransitivity; [symmetry; apply (firstn_skipn (Z.to_nat n))|]. f_equal.
      rewrite skipn_skipn, (Nat.add_comm (Z.to_nat n) 8).
      etransitivity; [symmetry; apply (firstn_skipn 4)|]. f_equal.
      rewrite skipn_skipn. f_equal; lia. }
    destruct (type_is c "IEND").
    + inversion H; subst cs e.
      split; [constructor; [exact Hws|constructor]|].
      exists (skipn (12 + Z.to_nat n) rest). cbn [flat_map].
      rewrite app_nil_r. exact Hser.
    + destruct (walk fuel (skipn (12 + Z.to_nat n) rest)) as [cs' e'] eqn:Ew.
      inversion H; subst cs e.
      destruct (IH _ _ _ Ew) as [Hall [tail Ht]].
      split; [constructor; assumption|].
      exists tail. cbn [flat_map]. rewrite <- app_assoc, <- Ht. exact Hser.
Qed.

(** Only the last chunk of a walk can be "IEND", and it is exactly when
    the walk ended there. *)
Lemma walk_iend (fuel : nat) : forall rest cs e,
  walk fuel rest = (cs, e) ->
  (e = AtIEND /\ exists pre l, cs = pre ++ [l] /\ type_is l "IEND" = true
                 /\ forallb (fun c => negb (type_is c "IEND")) pre = true)
  \/ (e <> AtIEND /\ forallb (fun c => negb (type_is c "IEND")) cs = true).
Proof.
  induction fuel as [|fuel IH]; intros rest cs e H.
  - inversion H; subst. right. split; [discriminate|reflexivity].
  - cbn [walk] in H. cbv zeta in H.
    destruct (len rest <? 12).
    { inversion H; subst. right. split; [discriminate|reflexivity]. }
    remember (JS.shru (readUint32BE rest 0) 0) as n eqn:En. clear En.
    destruct (len rest <? n + 12).
    { inversion H; subst. right. split; [discriminate|reflexivity]. }
    match type of H with context [type_is ?x "IEND"] => set (c := x) in * end.
    destruct (type_is c "IEND") eqn:Ec.
    + inversion H; subst cs e. left. split; [reflexivity|].
      exists [], c. repeat split; assumption.
    + destruct (walk fuel (skipn (12 + Z.to_nat n) rest)) as [cs' e'] eqn:Ew.
      inversion H; subst cs e.
      destruct (IH _ _ _ Ew) as [[He (pre & l & Hcs & Hl & Hpre)]|[He Hall]].
      * left. split; [assumption|]. exists (c :: pre), l.
        repeat split; [now rewrite Hcs|assumption|].
        cbn [forallb]. now rewrite Ec, Hpre.
      * right. split; [assumption|]. cbn [forallb]. now rewrite Ec, Hall.
Qed.

Lemma chunk_bytes_length (c : chunk) :
  well_sized c -> (12 <= length (chunk_bytes c))%nat.
Proof.
  intros (H1 & H2 & _). unfold chunk_bytes.
  rewrite !length_app, writeUint32BE_length. lia.
Qed.

(** Walking serialised chunks yields them, then walks what follows. *)
Lemma walk_serialised (cs : list chunk) : forall fuel rest,
  Forall well_sized cs ->
  forallb (fun c => negb (type_is c "IEND")) cs = true ->
  (length (flat_map chunk_bytes cs ++ rest) <= fuel)%nat ->
  walk fuel (flat_map chunk_bytes cs ++ rest) =
  let (cs', e) := walk (length rest) rest in (cs ++ cs', e).
Proof.
  induction cs as [|c cs IH]; intros fuel rest Hws Hni Hf.
  - cbn [flat_map app] in *. rewrite (@walk_fuel fuel (length rest)) by lia.
    now destruct (walk (length rest) rest).
  - inversion Hws as [|? ? Hc Hcs]; subst.
    cbn [forallb] in Hni. apply andb_prop in Hni as [Hn1 Hn2].
    apply negb_true_iff in Hn1.
    cbn [flat_map] in *. rewrite <- app_assoc in *.
    pose proof (chunk_bytes_length Hc) as H12.
    rewrite length_app in Hf.
    destruct fuel as [|fuel]; [lia|].
    rewrite walk_chunk_bytes by assumption.
    rewrite Hn1, IH by (try assumption; lia).
    now destruct (walk (length rest) rest).
Qed.

Lemma has_signature_true (p : bytes) :
  has_signature p = true <-> firstn 8 p = PNG_SIGNATURE.
Proof.
  unfold has_signature.
  destruct (list_eq_dec byte_eq_dec (firstn 8 p) PNG_SIGNATURE); split; congruence.
Qed.

Lemma has_signature_app (p : bytes) :
  has_signature p = true -> p = PNG_SIGNATURE ++ skipn 8 p.
Proof.
  intros H. apply has_signature_true in H.
  rewrite <- H. symmetry. apply firstn_skipn.
Qed.

Lemma has_signature_length (p : bytes) :
  has_signature p = true -> (8 <= length p)%nat.
Proof.
  intros H. apply has_signature_true in H.
  apply (f_equal (@length byte)) in H. rewrite length_firstn in H.
  change (length PNG_SIGNATURE) with 8%nat in H. lia.
Qed.

Lemma signature_differs_spec (p : bytes) :
  signature_differs p = negb (has_signature p).
Proof.
  destruct (has_signature p) eqn:Hs.
  - apply has_signature_app in Hs. rewrite Hs. reflexivity.
  - cbn [negb].
    destruct p as [|b0 [|b1 [|b2 [|b3 [|b4 [|b5 [|b6 [|b7 rest]]]]]]]];
      cbv -[Byte.eqb];
      repeat match goal with
             | |- context [Byte.eqb ?a ?b] => destruct (Byte.eqb a b) eqn:?
             end; try reflexivity.
    repeat match goal with
           | H : Byte.eqb _ _ = true |- _ => apply byte_dec_bl in H
           end. subst. discriminate Hs.
Qed.

Lemma slice_clamped (buf : bytes) (k : nat) (w : Z) :
  0 <= w -> (k <= length buf)%nat ->
  slice buf (Z.of_nat k) (Z.of_nat k + w) = firstn (Z.to_nat w) (skipn k buf).
Proof.
  intros Hw Hk. unfold slice, relative_index, len.
  destruct (Z.ltb_spec (Z.of_nat k) 0); [lia|].
  destruct (Z.ltb_spec (Z.of_nat k + w) 0); [lia|].
  rewrite (Z.min_l (Z.of_nat k)) by lia. rewrite Nat2Z.id.
  destruct (Z.le_ge_cases (Z.of_nat k + w) (Z.of_nat (length buf))).
  - rewrite Z.min_l by lia. f_equal. lia.
  - rewrite Z.min_r by lia.
    rewrite !firstn_all2; [reflexivity| |]; rewrite length_skipn; lia.
Qed.

Lemma bytesToBinaryString_loop_spec (fuel : nat) : forall data k out,
  (length data - k < fuel)%nat ->
  bytesToBinaryString_loop fuel data (Z.of_nat k) out
  = Returned (out ++ map byte_val (skipn k data)).
Proof.
  induction fuel as [|fuel IH]; intros data k out Hf; [lia|].
  cbn [bytesToBinaryString_loop]. unfold len.
  destruct (Z.ltb_spec (Z.of_nat k) (Z.of_nat (length data))) as [Hk|Hk].
  - rewrite slice_clamped by lia.
    replace (Z.of_nat k + 8192) with (Z.of_nat (k + Z.to_nat 8192)) by lia.
    rewrite IH by lia.
    rewrite <- app_assoc, <- map_app. do 3 f_equal.
    rewrite (Nat.add_comm k), <- skipn_skipn.
    apply firstn_skipn.
  - rewrite skipn_all2 by lia. now rewrite app_nil_r.
Qed.

Lemma bytesToBinaryString_spec (data : bytes) :
  bytesToBinaryString data = Returned (map byte_val data).
Proof.
  unfold bytesToBinaryString.
  change 0 with (Z.of_nat 0).
  rewrite bytesToBinaryString_loop_spec by lia. reflexivity.
Qed.

Lemma forallb_latin1 (data : bytes) :
  forallb (fun u => u <=? 0xFF) (map byte_val data) = true.
Proof.
  induction data as [|b data IH]; [reflexivity|].
  cbn [map forallb]. rewrite IH, andb_true_r.
  pose proof (byte_val_range b). apply Z.leb_le. lia.
Qed.

(** [base64EncodeUtf8] always returns, and returns [payload64]. *)
Lemma base64EncodeUtf8_spec (s : jsstring) :
  base64EncodeUtf8 s = Returned (payload64 s).
Proof.
  unfold base64EncodeUtf8. rewrite bytesToBinaryString_spec.
  cbn [JS.bind]. unfold btoa. rewrite forallb_latin1. reflexivity.
Qed.

Lemma buildTextChunk_spec (key b64 : jsstring) :
  buildTextChunk key b64 = chunk_bytes (text_chunk key b64).
Proof.
  unfold buildTextChunk, chunk_bytes, text_chunk, recrc, fresh_crc, concatBytes.
  cbn [concat ctype cdata ccrc]. rewrite !app_nil_r. reflexivity.
Qed.

Lemma insertion_set_bytes (opts : option EmbedOptions) (b64 : jsstring) :
  (if option_flag opts writeChara then [buildTextChunk (lit "chara") b64] else [])
  ++ (if option_flag opts writeCcv3 then [buildTextChunk (lit "ccv3") b64] else [])
  = map chunk_bytes (insertion_set opts b64).
Proof.
  unfold insertion_set. rewrite !buildTextChunk_spec.
  destruct (option_flag opts writeChara), (option_flag opts writeCcv3);
    reflexivity.
Qed.

Lemma embed_parts_concat (ins cs : list chunk) :
  concat (embed_parts (map chunk_bytes ins) cs)
  = flat_map chunk_bytes (rewrite_chunks ins cs).
Proof.
  unfold embed_parts, rewrite_chunks.
  induction cs as [|c cs IH]; [reflexivity|].
  cbn [flat_map]. rewrite concat_app, flat_map_app, IH. f_equal.
  rewrite concat_app, flat_map_app. f_equal.
  - destruct (type_is c "IEND"); [|reflexivity].
    now rewrite flat_map_concat_map.
  - destruct (is_carrier c); [reflexivity|].
    cbn [concat flat_map]. reflexivity.
Qed.

(** [extractCardFromPng] decodes the first carrier of the chunk stream. *)
Lemma extract_spec (p : bytes) :
  extractCardFromPng p =
  if has_signature p then
    match find is_carrier (chunks p) with
    | Some c => decode_carrier c
    | None => Returned None
    end
  else Returned None.
Proof.
  unfold extractCardFromPng. rewrite signature_differs_spec.
  destruct (has_signature p) eqn:Hs; cbn [negb].
  - pose proof (has_signature_length p Hs) as Hl.
    destruct (Z.ltb_spec (len p) 8) as [H8|H8]; [unfold len in H8; lia|].
    change 8 with (Z.of_nat 8).
    rewrite extract_loop_walk by lia.
    unfold chunks.
    rewrite (@walk_fuel (S (length p)) (length p)); [reflexivity| |];
      rewrite length_skipn; lia.
  - now destruct (len p <? 8).
Qed.

(** [embedCardIntoPng] serialises the rewritten chunk stream. *)
Lemma embed_spec (p : bytes) (s : jsstring) (opts : option EmbedOptions) :
  embedCardIntoPng p s opts =
  if has_signature p then
    match stream_end p with
    | Overrun => Thrown ChunkDamaged
    | _ => Returned (PNG_SIGNATURE ++
             flat_map chunk_bytes
               (rewrite_chunks (insertion_set opts (payload64 s)) (chunks p)))
    end
  else Thrown NotAPng.
Proof.
  unfold embedCardIntoPng. rewrite signature_differs_spec.
  destruct (has_signature p) eqn:Hs; cbn [negb]; [|reflexivity].
  pose proof (has_signature_length p Hs) as Hl.
  rewrite base64EncodeUtf8_spec. cbn [JS.bind].
  rewrite insertion_set_bytes.
  change 8 with (Z.of_nat 8).
  rewrite embed_loop_walk by lia.
  unfold chunks, stream_end.
  rewrite (@walk_fuel (S (length p)) (length p));
    [| rewrite length_skipn; lia | rewrite length_skipn; lia].
  destruct (walk (length p) (skipn 8 p)) as [cs e]. cbn [fst snd].
  destruct e; cbn [JS.bind]; try reflexivity;
    unfold concatBytes; rewrite concat_app, embed_parts_concat;
    cbn [concat]; rewrite app_nil_r; reflexivity.
Qed.

Lemma jsstring_eqb_eq (a b : jsstring) : jsstring_eqb a b = true <-> a = b.
Proof.
  revert b. induction a as [|x a IH]; intros [|y b]; cbn [jsstring_eqb];
    try (split; [discriminate|discriminate]); [tauto|].
  rewrite andb_true_iff, Z.eqb_eq, IH. split.
  - intros [-> ->]. reflexivity.
  - intros E. inversion E. auto.
Qed.

Lemma type_iend_not_text (c : chunk) :
  type_is c "IEND" = true -> type_is c "tEXt" = false.
Proof.
  unfold type_is. intros H. apply jsstring_eqb_eq in H. rewrite H. reflexivity.
Qed.

Lemma iend_not_carrier (c : chunk) :
  type_is c "IEND" = true -> is_carrier c = false.
Proof.
  intros H. unfold is_carrier. now rewrite (type_iend_not_text c H).
Qed.

Lemma type_is_recrc (c : chunk) (tag : String.string) :
  type_is (recrc c) tag = type_is c tag.
Proof. reflexivity. Qed.

Lemma is_carrier_recrc (c : chunk) : is_carrier (recrc c) = is_carrier c.
Proof. reflexivity. Qed.

Lemma recrc_crc_correct (c : chunk) : crc_correct (recrc c).
Proof. reflexivity. Qed.

Lemma recrc_id (c : chunk) : crc_correct c -> recrc c = c.
Proof.
  destruct c as [ty dat crc]. unfold crc_correct, recrc. cbn [ctype cdata ccrc].
  now intros ->.
Qed.

Lemma well_sized_recrc (c : chunk) : well_sized c -> well_sized (recrc c).
Proof. intros (H1 & _ & H3). repeat split; assumption. Qed.

Lemma rewrite_chunks_app (ins a b : list chunk) :
  rewrite_chunks ins (a ++ b) = rewrite_chunks ins a ++ rewrite_chunks ins b.
Proof. apply flat_map_app. Qed.

Lemma rewrite_chunks_non_iend (ins cs : list chunk) :
  forallb (fun c => negb (type_is c "IEND")) cs = true ->
  rewrite_chunks ins cs = map recrc (filter (fun c => negb (is_carrier c)) cs).
Proof.
  induction cs as [|c cs IH]; intros H; [reflexivity|].
  cbn [forallb] in H. apply andb_prop in H as [Hc Hcs].
  apply negb_true_iff in Hc.
  unfold rewrite_chunks in *. cbn [flat_map filter].
  rewrite Hc, IH by assumption.
  destruct (is_carrier c); reflexivity.
Qed.

Lemma rewrite_chunks_iend (ins pre : list chunk) (l : chunk) :
  forallb (fun c => negb (type_is c "IEND")) pre = true ->
  type_is l "IEND" = true ->
  rewrite_chunks ins (pre ++ [l])
  = map recrc (filter (fun c => negb (is_carrier c)) pre) ++ ins ++ [recrc l].
Proof.
  intros Hpre Hl. rewrite rewrite_chunks_app, rewrite_chunks_non_iend by assumption.
  f_equal. unfold rewrite_chunks. cbn [flat_map].
  rewrite Hl, (iend_not_carrier l Hl), app_nil_r. reflexivity.
Qed.

(** The chunks of the walk of any buffer, with how they end. *)
Lemma chunks_shape (p : bytes) :
  Forall well_sized (chunks p)
  /\ ((stream_end p = AtIEND
       /\ exists pre l, chunks p = pre ++ [l] /\ type_is l "IEND" = true
            /\ forallb (fun c => negb (type_is c "IEND")) pre = true)
      \/ (stream_end p <> AtIEND
          /\ forallb (fun c => negb (type_is c "IEND")) (chunks p) = true)).
Proof.
  unfold chunks, stream_end.
  destruct (walk (length p) (skipn 8 p)) as [cs e] eqn:Ew. cbn [fst snd].
  split; [apply (walk_sound _ _ Ew)|apply (walk_iend _ _ Ew)].
Qed.

(** Walking a buffer made of the signature and serialised chunks gives
    the chunks back. *)
Lemma chunks_of_serialised (pre : list chunk) (last : list chunk) :
  Forall well_sized (pre ++ last) ->
  forallb (fun c => negb (type_is c "IEND")) pre = true ->
  (last = [] \/ exists l, last = [l] /\ type_is l "IEND" = true) ->
  let out := PNG_SIGNATURE ++ flat_map chunk_bytes (pre ++ last) in
  chunks out = pre ++ last
  /\ stream_end out = match last with [] => TooShort | _ => AtIEND end.
Proof.
  intros Hws Hni Hlast out.
  assert (Hskip : skipn 8 out = flat_map chunk_bytes (pre ++ last)) by reflexivity.
  assert (Hw : walk (length out) (skipn 8 out)
               = (pre ++ last, match last with [] => TooShort | _ => AtIEND end)).
  { rewrite Hskip, flat_map_app.
    apply Forall_app in Hws as [Hp Hl].
    rewrite walk_serialised;
      [|assumption|assumption|
       unfold out; rewrite flat_map_app, !length_app; lia].
    destruct Hlast as [->|[l [-> Hl']]].
    - reflexivity.
    - inversion Hl; subst. cbn [flat_map]. rewrite app_nil_r.
      pose proof (chunk_bytes_length H1) as H12.
      destruct (length (chunk_bytes l)) as [|n] eqn:En; [lia|].
      rewrite <- (app_nil_r (chunk_bytes l)) at 1.
      rewrite walk_chunk_bytes by assumption.
      rewrite Hl'. reflexivity. }
  unfold chunks, stream_end. rewrite Hw. split; reflexivity.
Qed.

Lemma find_first (A : Type) (f : A -> bool) (pre post : list A) (c : A) :
  forallb (fun x => negb (f x)) pre = true -> f c = true ->
  find f (pre ++ c :: post) = Some c.
Proof.
  intros Hpre Hc. induction pre as [|x pre IH]; cbn [app find].
  - now rewrite Hc.
  - cbn [forallb] in Hpre. apply andb_prop in Hpre as [Hx Hpre].
    apply negb_true_iff in Hx. rewrite Hx. now apply IH.
Qed.

Lemma find_skip (A : Type) (f : A -> bool) (pre post : list A) :
  forallb (fun x => negb (f x)) pre = true ->
  find f (pre ++ post) = find f post.
Proof.
  intros Hpre. induction pre as [|x pre IH]; cbn [app find]; [reflexivity|].
  cbn [forallb] in Hpre. apply andb_prop in Hpre as [Hx Hpre].
  apply negb_true_iff in Hx. rewrite Hx. now apply IH.
Qed.

Lemma byte_eqb_refl (b : byte) : Byte.eqb b b = true.
Proof. now apply byte_dec_lb. Qed.

Lemma indexOf_from_absent (buf : bytes) (x : byte) (i : Z) :
  ~ In x buf -> indexOf_from buf x i = -1.
Proof.
  revert i. induction buf as [|b buf IH]; intros i Hn; [reflexivity|].
  cbn [indexOf_from].
  destruct (Byte.eqb b x) eqn:E.
  - apply byte_dec_bl in E. subst. exfalso. apply Hn. now left.
  - apply IH. intros H. apply Hn. now right.
Qed.

Lemma indexOf_from_found (pre post : bytes) (x : byte) (i : Z) :
  ~ In x pre -> indexOf_from (pre ++ x :: post) x i = i + len pre.
Proof.
  revert i. induction pre as [|b pre IH]; intros i Hn; cbn [app indexOf_from].
  - rewrite byte_eqb_refl. unfold len. cbn. lia.
  - destruct (Byte.eqb b x) eqn:E.
    + apply byte_dec_bl in E. subst. exfalso. apply Hn. now left.
    + rewrite IH by (intros H; apply Hn; now right).
      unfold len. cbn [length]. lia.
Qed.

(** A payload with no NUL, or with an empty keyword, does not parse. *)
Lemma parse_malformed (data : bytes) :
  ~ In x00 data \/ hd_error data = Some x00 ->
  parseTextChunkKeyword data = None.
Proof.
  intros [Hn|Hh]; unfold parseTextChunkKeyword, indexOf.
  - now rewrite indexOf_from_absent.
  - destruct data as [|b data]; [discriminate|]. inversion Hh; subst.
    reflexivity.
Qed.

(** A payload [key 00 text] with a non-empty, NUL-free key parses. *)
Lemma parse_keyed (kb tb : bytes) :
  ~ In x00 kb -> kb <> [] ->
  parseTextChunkKeyword (kb ++ [x00] ++ tb)
  = Some {| parsed_keyword := utf8_decode kb; textBytes := tb |}.
Proof.
  intros Hn Hne. unfold parseTextChunkKeyword, indexOf.
  cbn [app]. rewrite indexOf_from_found by assumption.
  assert (Hl : 0 < len kb).
  { destruct kb; [congruence|]. unfold len. cbn [length]. lia. }
  destruct (Z.leb_spec (0 + len kb) 0) as [H|H]; [lia|].
  f_equal. f_equal.
  - unfold len. change 0 with (Z.of_nat 0) at 1.
    rewrite Z.add_0_l, slice_inside by (rewrite ?length_app; lia).
    rewrite Nat.sub_0_r. cbn [skipn]. f_equal. now apply firstn_app_exact.
  - unfold len. replace (0 + Z.of_nat (length kb) + 1)
      with (Z.of_nat (length kb + 1)) by lia.
    rewrite slice_from_inside by (rewrite length_app; cbn [length]; lia).
    rewrite (Nat.add_comm (length kb) 1), <- skipn_skipn.
    rewrite (@skipn_app_exact _ kb (x00 :: tb) (length kb)) by reflexivity.
    reflexivity.
Qed.

Lemma text_chunk_parse (key b64 : jsstring) :
  ~ In x00 (encodeAscii key) -> encodeAscii key <> [] ->
  parseTextChunkKeyword (cdata (text_chunk key b64))
  = Some {| parsed_keyword := utf8_decode (encodeAscii key);
            textBytes := encodeAscii b64 |}.
Proof. intros. unfold text_chunk, recrc. cbn [cdata]. now apply parse_keyed. Qed.

Lemma chara_chunk_parse (b64 : jsstring) :
  parseTextChunkKeyword (cdata (text_chunk (lit "chara") b64))
  = Some {| parsed_keyword := lit "chara"; textBytes := encodeAscii b64 |}.
Proof.
  rewrite text_chunk_parse; [reflexivity| |discriminate].
  vm_compute. intuition discriminate.
Qed.

Lemma ccv3_chunk_parse (b64 : jsstring) :
  parseTextChunkKeyword (cdata (text_chunk (lit "ccv3") b64))
  = Some {| parsed_keyword := lit "ccv3"; textBytes := encodeAscii b64 |}.
Proof.
  rewrite text_chunk_parse; [reflexivity| |discriminate].
  vm_compute. intuition discriminate.
Qed.

Lemma text_chunk_type (key b64 : jsstring) (tag : String.string) :
  type_is (text_chunk key b64) tag
  = jsstring_eqb (lit "tEXt") (lit tag).
Proof. reflexivity. Qed.

Lemma text_chunk_well_sized (key b64 : jsstring) :
  len (encodeAscii key) + 1 + len (encodeAscii b64) < 2 ^ 32 ->
  well_sized (text_chunk key b64).
Proof.
  intros H. unfold well_sized, text_chunk, recrc, fresh_crc.
  cbn [ctype cdata ccrc]. repeat split.
  rewrite !len_app. change (len [x00]) with 1. lia.
Qed.

Lemma insertion_set_facts (opts : option EmbedOptions) (b64 : jsstring) :
  let ins := insertion_set opts b64 in
  forallb (fun c => negb (type_is c "IEND")) ins = true
  /\ forallb is_carrier ins = true
  /\ Forall crc_correct ins
  /\ (fits_length_field b64 -> Forall well_sized ins).
Proof.
  assert (Hc1 : is_carrier (text_chunk (lit "chara") b64) = true).
  { unfold is_carrier. rewrite text_chunk_type, chara_chunk_parse. reflexivity. }
  assert (Hc2 : is_carrier (text_chunk (lit "ccv3") b64) = true).
  { unfold is_carrier. rewrite text_chunk_type, ccv3_chunk_parse. reflexivity. }
  assert (Hw1 : fits_length_field b64 -> well_sized (text_chunk (lit "chara") b64)).
  { intros F. apply text_chunk_well_sized. unfold fits_length_field in F.
    change (len (encodeAscii (lit "chara"))) with 5. lia. }
  assert (Hw2 : fits_length_field b64 -> well_sized (text_chunk (lit "ccv3") b64)).
  { intros F. apply text_chunk_well_sized. unfold fits_length_field in F.
    change (len (encodeAscii (lit "ccv3"))) with 4. lia. }
  unfold insertion_set.
  destruct (option_flag opts writeChara), (option_flag opts writeCcv3);
    cbn [app forallb]; rewrite ?text_chunk_type, ?Hc1, ?Hc2;
    (split; [reflexivity|split; [reflexivity|split]]);
    try (intros F);
    repeat (apply Forall_cons || apply Forall_nil);
    solve [apply recrc_crc_correct | auto].
Qed.


Lemma Forall_map_recrc (P : chunk -> Prop) (cs : list chunk) :
  (forall c, P c -> P (recrc c)) -> Forall P cs -> Forall P (map recrc cs).
Proof.
  intros HP H. induction H; cbn [map]; constructor; auto.
Qed.

Lemma Forall_filter (A : Type) (P : A -> Prop) (f : A -> bool) (l : list A) :
  Forall P l -> Forall P (filter f l).
Proof.
  intros H. induction H; cbn [filter]; [constructor|].
  destruct (f x); [constructor|]; assumption.
Qed.

Lemma forallb_map_recrc_not_iend (cs : list chunk) :
  forallb (fun c => negb (type_is c "IEND")) cs = true ->
  forallb (fun c => negb (type_is c "IEND"))
          (map recrc (filter (fun c => negb (is_carrier c)) cs)) = true.
Proof.
  induction cs as [|c cs IH]; intros H; [reflexivity|].
  cbn [forallb] in H. apply andb_prop in H as [Hc Hcs].
  cbn [filter]. destruct (is_carrier c); cbn [negb map forallb]; auto.
  rewrite type_is_recrc, Hc. cbn [andb]. auto.
Qed.

(** The buffer [embedCardIntoPng] returns, and its chunk stream when
    the inserted chunks fit the length field. *)
Lemma embed_output (p : bytes) (s : jsstring) (opts : option EmbedOptions)
    (out : bytes) :
  embedCardIntoPng p s opts = Returned out ->
  let ins := insertion_set opts (payload64 s) in
  has_signature p = true
  /\ stream_end p <> Overrun
  /\ out = PNG_SIGNATURE ++ flat_map chunk_bytes (rewrite_chunks ins (chunks p))
  /\ (fits_length_field (payload64 s) ->
      chunks out = rewrite_chunks ins (chunks p)
      /\ stream_end out = stream_end p).
Proof.
  intros H. cbv zeta. rewrite embed_spec in H.
  remember (insertion_set opts (payload64 s)) as ins eqn:Eins.
  destruct (has_signature p) eqn:Hs; [|discriminate].
  split; [reflexivity|].
  assert (Hend : stream_end p <> Overrun).
  { intros E. rewrite E in H. discriminate. }
  split; [assumption|].
  assert (Hout : out = PNG_SIGNATURE ++
            flat_map chunk_bytes (rewrite_chunks ins (chunks p))).
  { destruct (stream_end p); inversion H; reflexivity || congruence. }
  split; [assumption|].
  intros Hfit.
  destruct (insertion_set_facts opts (payload64 s)) as (Hni & _ & _ & Hws).
  specialize (Hws Hfit). cbv zeta in Hni. rewrite <- Eins in Hni, Hws.
  clear Eins.
  destruct (chunks_shape p) as [Hall [[He (pre & l & Hcs & Hl & Hpre)]|[He Hpre]]].
  - rewrite Hout, Hcs, rewrite_chunks_iend by assumption.
    rewrite Hcs in Hall. apply Forall_app in Hall as [Hallp Halll].
    inversion Halll; subst.
    rewrite app_assoc.
    destruct (@chunks_of_serialised
                (map recrc (filter (fun c => negb (is_carrier c)) pre) ++ ins)
                [recrc l]) as [E1 E2].
    + repeat (apply Forall_app; split).
      * apply Forall_map_recrc; [apply well_sized_recrc|].
        now apply Forall_filter.
      * assumption.
      * constructor; [now apply well_sized_recrc|constructor].
    + rewrite forallb_app, Hni, forallb_map_recrc_not_iend by assumption.
      reflexivity.
    + right. exists (recrc l). split; [reflexivity|].
      now rewrite type_is_recrc.
    + rewrite E1, E2, He. split; reflexivity.
  - rewrite Hout, rewrite_chunks_non_iend by assumption.
    destruct (@chunks_of_serialised
                (map recrc (filter (fun c => negb (is_carrier c)) (chunks p)))
                []) as [E1 E2].
    + rewrite app_nil_r. apply Forall_map_recrc; [apply well_sized_recrc|].
      now apply Forall_filter.
    + now apply forallb_map_recrc_not_iend.
    + now left.
    + rewrite app_nil_r in E1, E2. rewrite E1, E2. split; [reflexivity|].
      destruct (stream_end p); congruence.
Qed.

(** The chunks of a buffer are in the buffer, in stream order, right
    after the signature. *)
Lemma chunks_in_buffer (p : bytes) :
  has_signature p = true ->
  exists tail, p = PNG_SIGNATURE ++ flat_map chunk_bytes (chunks p) ++ tail.
Proof.
  intros Hs. unfold chunks.
  destruct (walk (length p) (skipn 8 p)) as [cs e] eqn:Ew.
  destruct (walk_sound _ _ Ew) as [_ [tail Ht]].
  exists tail. cbn [fst]. rewrite <- Ht. now apply has_signature_app.
Qed.

End WalkerFacts.

(** ** What the codec guarantees *)

Module PngCardFacts.

Import JSFacts BufferFacts WalkerFacts Host PngCard Walker Examples.

(** C7. A buffer that does not begin with the 8-byte PNG signature, a
    buffer shorter than 8 bytes included: [extractCardFromPng] returns
    [null] ("not found") without throwing, and [embedCardIntoPng] throws
    its "not a PNG" error. *)
Theorem bad_signature_extract_null_embed_throws
    (p : bytes) (s : jsstring) (opts : option EmbedOptions) :
  (length p < 8)%nat \/ firstn 8 p <> PNG_SIGNATURE ->
  extractCardFromPng p = Returned None
  /\ embedCardIntoPng p s opts = Thrown NotAPng.
Proof.
  intros H.
  assert (Hs : has_signature p = false).
  { destruct (has_signature p) eqn:E; [|reflexivity].
    destruct H as [H|H].
    - apply has_signature_length in E. lia.
    - apply has_signature_true in E. contradiction. }
  rewrite extract_spec, embed_spec, Hs. split; reflexivity.
Qed.

Lemma bad_signature_witness :
  (extractCardFromPng [x89; x50; x4e] = Returned None
   /\ embedCardIntoPng [x89; x50; x4e] (lit "{}") None = Thrown NotAPng)
  /\ (extractCardFromPng (ascii "GIF89a_not_a_png") = Returned None
      /\ embedCardIntoPng (ascii "GIF89a_not_a_png") (lit "{}") None
         = Thrown NotAPng).
Proof.
  split.
  - apply (@bad_signature_extract_null_embed_throws [x89; x50; x4e] (lit "{}") None).
    left. cbn. lia.
  - apply (@bad_signature_extract_null_embed_throws
             (ascii "GIF89a_not_a_png") (lit "{}") None).
    right. discriminate.
Defined.

(** Without an "IEND" chunk the rewrite never writes the insertion set:
    it throws at a chunk that overruns the buffer and otherwise returns
    the signature followed by the chunks it kept. *)
Lemma embed_without_iend (p : bytes) (s : jsstring) (opts : option EmbedOptions) :
  has_signature p = true ->
  forallb (fun c => negb (type_is c "IEND")) (chunks p) = true ->
  embedCardIntoPng p s opts =
  match stream_end p with
  | Overrun => Thrown ChunkDamaged
  | _ => Returned (PNG_SIGNATURE ++ flat_map chunk_bytes
                     (map recrc (filter (fun c => negb (is_carrier c)) (chunks p))))
  end.
Proof.
  intros Hs Hn. rewrite embed_spec, Hs, rewrite_chunks_non_iend by assumption.
  reflexivity.
Qed.

(** C1. The code at the failing inputs: on the bare signature, and on a
    signature followed by an IHDR chunk only, both without an "IEND"
    chunk, [embedCardIntoPng] returns a buffer, the input itself, and
    writes no tEXt chunk, whatever the card text and the options. *)
Theorem embed_without_iend_returns_input
    (s : jsstring) (opts : option EmbedOptions) :
  forallb (fun c => negb (type_is c "IEND")) (chunks PNG_SIGNATURE) = true
  /\ embedCardIntoPng PNG_SIGNATURE s opts = Returned PNG_SIGNATURE
  /\ forallb (fun c => negb (type_is c "IEND")) (chunks (png [ihdr])) = true
  /\ embedCardIntoPng (png [ihdr]) s opts = Returned (png [ihdr]).
Proof.
  repeat split; try reflexivity.
  - rewrite embed_without_iend by reflexivity. reflexivity.
  - rewrite embed_without_iend by reflexivity. reflexivity.
Qed.

(** [extractCardFromPng] returns what the first carrier of the stream
    decodes to: nothing that follows it, carrier or not, has any effect
    on the result. *)
Lemma extract_first_carrier_wins
    (p : bytes) (pre post : list chunk) (c : chunk) :
  has_signature p = true ->
  chunks p = pre ++ c :: post ->
  forallb (fun x => negb (is_carrier x)) pre = true ->
  is_carrier c = true ->
  extractCardFromPng p = decode_carrier c.
Proof.
  intros Hs Hc Hpre Hcar.
  rewrite extract_spec, Hs, Hc, (find_first is_carrier pre post c Hpre Hcar).
  reflexivity.
Qed.

Lemma base64DecodeUtf8_errors (b64 : jsstring) (e : error) :
  base64DecodeUtf8 b64 = Thrown e -> e = InvalidCharacter \/ e = DecodeTypeError.
Proof.
  unfold base64DecodeUtf8, atob, utf8_decode_fatal.
  destruct (_ mod 4 =? 1); cbn [JS.bind]; [intros H; inversion H; auto|].
  destruct (base64_values _); cbn [JS.bind]; [|intros H; inversion H; auto].
  destruct (all_decoded _); intros H; inversion H; auto.
Qed.

(** C6. When the first tEXt chunk keyed "chara" or "ccv3" in the stream
    has text bytes that fail base64 or UTF-8 decoding, the whole of
    [extractCardFromPng] throws that decoding error (the exception of
    [atob] or of the fatal [TextDecoder]); the chunks after it, valid
    carriers included, are not looked at. *)
Theorem extract_corrupt_carrier_throws
    (p : bytes) (pre post : list chunk) (c : chunk) (parsed : ParsedText)
    (e : error) :
  has_signature p = true ->
  chunks p = pre ++ c :: post ->
  forallb (fun x => negb (is_carrier x)) pre = true ->
  type_is c "tEXt" = true ->
  parseTextChunkKeyword (cdata c) = Some parsed ->
  is_card_keyword (parsed_keyword parsed) = true ->
  base64DecodeUtf8 (ascii_decode (textBytes parsed)) = Thrown e ->
  extractCardFromPng p = Thrown e
  /\ (e = InvalidCharacter \/ e = DecodeTypeError).
Proof.
  intros Hs Hc Hpre Hty Hparse Hkw Hdec.
  assert (Hcar : is_carrier c = true).
  { unfold is_carrier. now rewrite Hty, Hparse. }
  rewrite extract_spec, Hs, Hc, (find_first is_carrier pre post c Hpre Hcar).
  unfold decode_carrier. rewrite Hparse, Hdec. cbn [JS.bind].
  split; [reflexivity|]. exact (base64DecodeUtf8_errors _ Hdec).
Qed.

Lemma extract_corrupt_carrier_throws_witness :
  extractCardFromPng (png [ihdr; chara_not_utf8; chara_braces; iend])
  = Thrown DecodeTypeError
  /\ extractCardFromPng (png [ihdr; chara_not_base64; chara_braces; iend])
     = Thrown InvalidCharacter.
Proof.
  split.
  - apply (@extract_corrupt_carrier_throws
             (png [ihdr; chara_not_utf8; chara_braces; iend])
             [ihdr] [chara_braces; iend] chara_not_utf8
             {| parsed_keyword := lit "chara"; textBytes := ascii "/w==" |}
             DecodeTypeError); reflexivity.
  - apply (@extract_corrupt_carrier_throws
             (png [ihdr; chara_not_base64; chara_braces; iend])
             [ihdr] [chara_braces; iend] chara_not_base64
             {| parsed_keyword := lit "chara"; textBytes := ascii "!" |}
             InvalidCharacter); reflexivity.
Defined.

(** A tEXt chunk whose payload has no NUL byte, or starts with NUL
    (empty keyword), is no carrier: the first loop goes on with the
    chunks after it, and what the second loop returns holds it with its
    CRC recomputed. *)
Lemma malformed_text_chunk_is_passed_over (c : chunk) :
  type_is c "tEXt" = true ->
  ~ In x00 (cdata c) \/ hd_error (cdata c) = Some x00 ->
  is_carrier c = false
  /\ (forall p pre post,
        has_signature p = true ->
        chunks p = pre ++ c :: post ->
        forallb (fun x => negb (is_carrier x)) pre = true ->
        extractCardFromPng p =
        match find is_carrier post with
        | Some c' => decode_carrier c'
        | None => Returned None
        end)
  /\ (forall p s opts out,
        In c (chunks p) ->
        embedCardIntoPng p s opts = Returned out ->
        exists before after,
          out = PNG_SIGNATURE ++ flat_map chunk_bytes before
                  ++ chunk_bytes (recrc c) ++ flat_map chunk_bytes after).
Proof.
  intros Hty Hbad.
  assert (Hcar : is_carrier c = false).
  { unfold is_carrier. now rewrite (parse_malformed _ Hbad), andb_false_r. }
  split; [assumption|]. split.
  - intros p pre post Hs Hc Hpre.
    rewrite extract_spec, Hs, Hc, (find_skip is_carrier pre (c :: post) Hpre).
    cbn [find]. now rewrite Hcar.
  - intros p s opts out Hin Hout.
    apply embed_output in Hout as (_ & _ & Hout & _).
    apply in_split in Hin as (l1 & l2 & Hin).
    exists (rewrite_chunks (insertion_set opts (payload64 s)) l1),
           (rewrite_chunks (insertion_set opts (payload64 s)) l2).
    rewrite Hout, Hin, rewrite_chunks_app, flat_map_app. do 2 f_equal.
    change (c :: l2) with ([c] ++ l2).
    rewrite rewrite_chunks_app, flat_map_app. f_equal.
    unfold rewrite_chunks. cbn [flat_map].
    assert (Hni : type_is c "IEND" = false).
    { destruct (type_is c "IEND") eqn:E; [|reflexivity].
      apply type_iend_not_text in E. congruence. }
    rewrite Hni, Hcar. cbn [app flat_map]. now rewrite !app_nil_r.
Qed.

Lemma rewrite_chunks_crc_correct (ins cs : list chunk) :
  Forall crc_correct ins -> Forall crc_correct (rewrite_chunks ins cs).
Proof.
  intros Hins. unfold rewrite_chunks.
  induction cs as [|c cs IH]; cbn [flat_map]; [constructor|].
  repeat (apply Forall_app; split); try assumption.
  - destruct (type_is c "IEND"); [assumption|constructor].
  - destruct (is_carrier c); repeat constructor.
Qed.

Lemma filter_out_carriers (ins : list chunk) :
  forallb is_carrier ins = true ->
  filter (fun c => negb (is_carrier c)) ins = [].
Proof.
  induction ins as [|x l IH]; intros H; [reflexivity|].
  cbn [forallb] in H. apply andb_prop in H as [Hx Hl].
  cbn [filter]. rewrite Hx. cbn [negb]. auto.
Qed.

Lemma rewrite_chunks_kept (ins cs : list chunk) :
  forallb is_carrier ins = true ->
  filter (fun c => negb (is_carrier c)) (rewrite_chunks ins cs)
  = map recrc (filter (fun c => negb (is_carrier c)) cs).
Proof.
  intros Hins.
  assert (Hf : filter (fun c => negb (is_carrier c)) ins = []).
  { now apply filter_out_carriers. }
  unfold rewrite_chunks.
  induction cs as [|c cs IH]; [reflexivity|].
  cbn [flat_map]. rewrite !filter_app, IH.
  replace (filter (fun c0 => negb (is_carrier c0))
             (if type_is c "IEND" then ins else [])) with (@nil chunk)
    by (destruct (type_is c "IEND"); [now rewrite Hf|reflexivity]).
  cbn [app filter].
  destruct (is_carrier c) eqn:E; cbn [negb filter app map]; [reflexivity|].
  rewrite is_carrier_recrc, E. reflexivity.
Qed.

(** C5. The buffer [embedCardIntoPng] returns is the signature followed
    by serialised chunks, inserted and copied alike, each of whose CRC
    fields is the checksum of its type tag and payload, whatever the CRC
    fields of the input were; these are the chunks a walk of the output
    finds when the inserted payload fits the 32-bit length field. *)
Theorem embed_output_crcs_are_fresh
    (p : bytes) (s : jsstring) (opts : option EmbedOptions) (out : bytes) :
  embedCardIntoPng p s opts = Returned out ->
  exists written : list chunk,
    out = PNG_SIGNATURE ++ flat_map chunk_bytes written
    /\ Forall (fun c =>
                 ccrc c = writeUint32BE (Crc32.crc32 (ctype c ++ cdata c)))
              written
    /\ (fits_length_field (payload64 s) -> chunks out = written).
Proof.
  intros H. apply embed_output in H as (_ & _ & Hout & Hchunks).
  exists (rewrite_chunks (insertion_set opts (payload64 s)) (chunks p)).
  split; [assumption|]. split.
  - apply rewrite_chunks_crc_correct.
    apply (insertion_set_facts opts (payload64 s)).
  - intros F. apply (Hchunks F).
Qed.

Lemma embed_output_crcs_are_fresh_witness :
  exists written : list chunk,
    Forall (fun c =>
              ccrc c = writeUint32BE (Crc32.crc32 (ctype c ++ cdata c)))
           written
    /\ embedCardIntoPng (png [ihdr; iend_zero_crc]) (lit "{}") None
       = Returned (PNG_SIGNATURE ++ flat_map chunk_bytes written)
    /\ In iend written.
Proof.
  destruct (@embed_output_crcs_are_fresh
              (png [ihdr; iend_zero_crc]) (lit "{}") None
              (png [ihdr; text_chunk (lit "chara") (lit "e30=");
                    text_chunk (lit "ccv3") (lit "e30="); iend]))
    as (written & Hout & Hcrc & Hchunks); [reflexivity|].
  exists written. split; [assumption|].
  rewrite <- Hout. split; [reflexivity|].
  rewrite <- Hchunks; [|vm_compute; reflexivity].
  vm_compute. tauto.
Defined.

(** The chunks of the input that are no carriers are, in the same
    order, the chunks written that are no carriers: each keeps its type
    tag and payload and gets a CRC field computed afresh. *)
Lemma embed_keeps_other_chunks
    (p : bytes) (s : jsstring) (opts : option EmbedOptions) (out : bytes) :
  embedCardIntoPng p s opts = Returned out ->
  exists written : list chunk,
    out = PNG_SIGNATURE ++ flat_map chunk_bytes written
    /\ Forall2 (fun c c' =>
                  ctype c' = ctype c /\ cdata c' = cdata c
                  /\ ccrc c' = writeUint32BE (Crc32.crc32 (ctype c ++ cdata c))
                  /\ (crc_correct c -> c' = c))
               (filter (fun c => negb (is_carrier c)) (chunks p))
               (filter (fun c => negb (is_carrier c)) written)
    /\ (fits_length_field (payload64 s) -> chunks out = written).
Proof.
  intros H. apply embed_output in H as (_ & _ & Hout & Hchunks).
  exists (rewrite_chunks (insertion_set opts (payload64 s)) (chunks p)).
  split; [assumption|]. split.
  - rewrite rewrite_chunks_kept
      by apply (insertion_set_facts opts (payload64 s)).
    induction (filter (fun c => negb (is_carrier c)) (chunks p)) as [|c l IH];
      cbn [map]; constructor; [|assumption].
    repeat split. apply recrc_id.
  - intros F. apply (Hchunks F).
Qed.

Lemma base64DecodeUtf8_returns_or_throws (b64 : jsstring) :
  base64DecodeUtf8 b64 <> Diverged.
Proof.
  unfold base64DecodeUtf8, atob, utf8_decode_fatal.
  destruct (_ mod 4 =? 1); cbn [JS.bind]; [discriminate|].
  destruct (base64_values _); cbn [JS.bind]; [|discriminate].
  destruct (all_decoded _); discriminate.
Qed.

(** The fuel the entry points give their loops is always enough: both
    calls return or throw. *)
Lemma extractCardFromPng_terminates (p : bytes) :
  extractCardFromPng p <> Diverged.
Proof.
  rewrite extract_spec.
  destruct (has_signature p); [|discriminate].
  destruct (find is_carrier (chunks p)) as [c|]; [|discriminate].
  unfold decode_carrier.
  destruct (parseTextChunkKeyword (cdata c)) as [parsed|]; [|discriminate].
  pose proof (base64DecodeUtf8_returns_or_throws
                (ascii_decode (textBytes parsed))) as H.
  destruct (base64DecodeUtf8 (ascii_decode (textBytes parsed)));
    cbn [JS.bind]; congruence.
Qed.

Lemma embedCardIntoPng_terminates
    (p : bytes) (s : jsstring) (opts : option EmbedOptions) :
  embedCardIntoPng p s opts <> Diverged.
Proof.
  rewrite embed_spec.
  destruct (has_signature p); [|discriminate].
  destruct (stream_end p); discriminate.
Qed.

End PngCardFacts.

(** ** Round trips of the platform functions *)

Module HostFacts.

Import JSFacts BufferFacts Host Base64 Text.

Lemma list_ind3 (A : Type) (P : list A -> Prop) :
  P [] -> (forall a, P [a]) -> (forall a b, P [a; b]) ->
  (forall a b c l, P l -> P (a :: b :: c :: l)) ->
  forall l, P l.
Proof.
  intros H0 H1 H2 H3.
  fix IH 1. intros [|a [|b [|c l]]];
    [exact H0|apply H1|apply H2|apply H3; apply IH].
Qed.

Lemma land_ones_literal (x k m : Z) :
  0 <= k -> m = Z.ones k -> Z.land x m = x mod 2 ^ k.
Proof. intros Hk ->. now apply Z.land_ones. Qed.

Lemma sextet_values (a b c : Z) :
  is_octet a -> is_octet b -> is_octet c ->
  Z.shiftr a 2 = a / 4
  /\ Z.shiftl (Z.land a 3) 4 = (a mod 4) * 16
  /\ Z.lor (Z.shiftl (Z.land a 3) 4) (Z.shiftr b 4) = (a mod 4) * 16 + b / 16
  /\ Z.shiftl (Z.land b 15) 2 = (b mod 16) * 4
  /\ Z.lor (Z.shiftl (Z.land b 15) 2) (Z.shiftr c 6) = (b mod 16) * 4 + c / 64
  /\ Z.land c 63 = c mod 64.
Proof.
  unfold is_octet. intros Ha Hb Hc.
  rewrite (@land_ones_literal a 2 3), (@land_ones_literal b 4 15),
    (@land_ones_literal c 6 63) by (try lia; reflexivity).
  rewrite !Z.shiftr_div_pow2 by lia.
  rewrite !lor_shiftl_add; rewrite ?Z.shiftl_mul_pow2 by lia.
  - change (2 ^ 2) with 4. change (2 ^ 4) with 16. change (2 ^ 6) with 64.
    repeat split.
  - lia.
  - change (2 ^ 6) with 64. change (2 ^ 2) with 4.
    split; [apply Z.div_pos; lia|apply Z.div_lt_upper_bound; lia].
  - lia.
  - change (2 ^ 4) with 16.
    split; [apply Z.div_pos; lia|apply Z.div_lt_upper_bound; lia].
Qed.

Lemma base64_encode_sextets (data : list Z) :
  base64_encode data = map base64_char (sextets data) ++ padding data.
Proof.
  induction data as [|a|a b|a b c l IH] using list_ind3; try reflexivity.
  cbn [base64_encode sextets padding]. rewrite IH, map_app, <- app_assoc.
  reflexivity.
Qed.

Lemma sextets_range (data : list Z) :
  Forall is_octet data -> Forall is_sextet (sextets data).
Proof.
  assert (R : forall a b c, is_octet a -> is_octet b -> is_octet c ->
            is_sextet (Z.shiftr a 2)
            /\ is_sextet (Z.shiftl (Z.land a 3) 4)
            /\ is_sextet (Z.lor (Z.shiftl (Z.land a 3) 4) (Z.shiftr b 4))
            /\ is_sextet (Z.shiftl (Z.land b 15) 2)
            /\ is_sextet (Z.lor (Z.shiftl (Z.land b 15) 2) (Z.shiftr c 6))
            /\ is_sextet (Z.land c 63)).
  { intros a b c Ha Hb Hc.
    destruct (sextet_values Ha Hb Hc) as (-> & -> & -> & -> & -> & ->).
    unfold is_octet, is_sextet in *.
    repeat split; Z.div_mod_to_equations; lia. }
  assert (O0 : is_octet 0) by (unfold is_octet; lia).
  induction data as [|a|a b|a b c l IH] using list_ind3; intros H.
  - constructor.
  - inversion H; subst.
    destruct (R a 0 0) as (? & ? & _); auto.
    cbn [sextets]. repeat (apply Forall_cons; [assumption|]). apply Forall_nil.
  - inversion H as [|? ? Ha H']; subst. inversion H' as [|? ? Hb _]; subst.
    destruct (R a b 0) as (? & _ & ? & ? & _); auto.
    cbn [sextets]. repeat (apply Forall_cons; [assumption|]). apply Forall_nil.
  - inversion H as [|? ? Ha H']; subst. inversion H' as [|? ? Hb H'']; subst.
    inversion H'' as [|? ? Hc Hl]; subst.
    destruct (R a b c) as (? & _ & ? & _ & ? & ?); auto.
    cbn [sextets app]. repeat (apply Forall_cons; [assumption|]). auto.
Qed.

(** Every alphabet character decodes to its index, is no padding, no
    white space and is ASCII. *)
Lemma base64_char_facts (v : Z) :
  is_sextet v ->
  base64_value (base64_char v) = Some v
  /\ base64_char v <> pad
  /\ is_ascii_whitespace (base64_char v) = false
  /\ 0 <= base64_char v < 128.
Proof.
  intros Hv. unfold is_sextet in Hv.
  assert (H : forallb (fun k =>
                let v := Z.of_nat k in
                match base64_value (base64_char v) with
                | Some w => w =? v
                | None => false
                end
                && negb (base64_char v =? pad)
                && negb (is_ascii_whitespace (base64_char v))
                && (0 <=? base64_char v) && (base64_char v <? 128))
              (seq 0 64) = true) by (vm_compute; reflexivity).
  rewrite forallb_forall in H.
  specialize (H (Z.to_nat v)). rewrite Z2Nat.id in H by lia.
  assert (Hin : In (Z.to_nat v) (seq 0 64)) by (apply in_seq; lia).
  apply H in Hin. cbv zeta in Hin.
  repeat (apply andb_prop in Hin as [Hin ?]).
  destruct (base64_value (base64_char v)) as [w|]; [|discriminate].
  apply Z.eqb_eq in Hin. subst w.
  repeat split.
  - intros E. rewrite E, Z.eqb_refl in H3. discriminate.
  - now apply negb_true_iff.
  - now apply Z.leb_le.
  - now apply Z.ltb_lt.
Qed.

Lemma base64_values_chars (vs : list Z) :
  Forall is_sextet vs -> base64_values (map base64_char vs) = Some vs.
Proof.
  induction 1 as [|v vs Hv _ IH]; [reflexivity|].
  cbn [map base64_values].
  destruct (base64_char_facts Hv) as (-> & _). now rewrite IH.
Qed.

Lemma sextets_length (data : list Z) :
  Z.of_nat (length (sextets data)) mod 4 <> 1.
Proof.
  induction data as [|a|a b|a b c l IH] using list_ind3;
    try (cbn; discriminate).
  cbn [sextets app length].
  replace (Z.of_nat (S (S (S (S (length (sextets l)))))))
    with (Z.of_nat (length (sextets l)) + 1 * 4) by lia.
  now rewrite Z.mod_add by lia.
Qed.

Lemma base64_encode_length (data : list Z) :
  Z.of_nat (length (base64_encode data)) mod 4 = 0.
Proof.
  induction data as [|a|a b|a b c l IH] using list_ind3;
    try reflexivity.
  cbn [base64_encode app length].
  replace (Z.of_nat (S (S (S (S (length (base64_encode l)))))))
    with (Z.of_nat (length (base64_encode l)) + 1 * 4) by lia.
  now rewrite Z.mod_add by lia.
Qed.

Lemma padding_cases (data : list Z) :
  padding data = [] \/ padding data = [pad] \/ padding data = [pad; pad].
Proof.
  induction data as [|a|a b|a b c l IH] using list_ind3; cbn [padding]; auto.
Qed.

Lemma padding_sextets (data : list Z) :
  padding data <> [] -> (2 <= length (sextets data))%nat.
Proof.
  induction data as [|a|a b|a b c l IH] using list_ind3; cbn [padding sextets];
    intros H; try congruence; cbn [length app]; lia.
Qed.

Lemma filter_id (A : Type) (f : A -> bool) (l : list A) :
  Forall (fun x => f x = true) l -> filter f l = l.
Proof.
  induction 1 as [|x l Hx _ IH]; [reflexivity|].
  cbn [filter]. now rewrite Hx, IH.
Qed.

Lemma base64_encode_no_whitespace (data : list Z) :
  Forall is_octet data ->
  filter (fun u => negb (is_ascii_whitespace u)) (base64_encode data)
  = base64_encode data.
Proof.
  intros H. apply filter_id. rewrite base64_encode_sextets.
  apply Forall_app. split.
  - apply sextets_range in H. induction H as [|v vs Hv _ IH]; constructor; auto.
    destruct (base64_char_facts Hv) as (_ & _ & -> & _). reflexivity.
  - destruct (padding_cases data) as [-> | [-> | ->]];
      repeat constructor.
Qed.

Lemma strip_padding_encoded (data : list Z) :
  Forall is_octet data ->
  strip_padding (base64_encode data) = map base64_char (sextets data).
Proof.
  intros H. unfold strip_padding.
  rewrite base64_encode_length. cbn [Z.eqb].
  rewrite base64_encode_sextets.
  pose proof (sextets_range H) as Hr.
  pose proof (padding_sextets data) as Hp.
  destruct (padding_cases data) as [E | [E | E]]; rewrite E in *.
  - rewrite app_nil_r.
    destruct (rev (map base64_char (sextets data))) as [|p1 [|p2 rest]] eqn:Er;
      try reflexivity.
    assert (Hin : In p1 (map base64_char (sextets data))).
    { apply in_rev. rewrite Er. now left. }
    apply in_map_iff in Hin as (v & <- & Hv).
    rewrite Forall_forall in Hr. specialize (Hr v Hv).
    destruct (base64_char_facts Hr) as (_ & Hne & _).
    destruct (Z.eqb_spec (base64_char v) pad); [contradiction|reflexivity].
  - rewrite rev_app_distr. cbn [rev app].
    destruct (rev (map base64_char (sextets data))) as [|p2 rest] eqn:Er.
    + apply (f_equal (@length Z)) in Er.
      rewrite length_rev, length_map in Er. cbn in Er.
      specialize (Hp ltac:(discriminate)). lia.
    + rewrite Z.eqb_refl.
      assert (Hin : In p2 (map base64_char (sextets data))).
      { apply in_rev. rewrite Er. now left. }
      apply in_map_iff in Hin as (v & <- & Hv).
      rewrite Forall_forall in Hr. specialize (Hr v Hv).
      destruct (base64_char_facts Hr) as (_ & Hne & _).
      destruct (Z.eqb_spec (base64_char v) pad); [contradiction|].
      change (rev rest ++ [base64_char v]) with (rev (base64_char v :: rest)).
      rewrite <- Er. apply rev_involutive.
  - rewrite rev_app_distr. cbn [rev app]. rewrite !Z.eqb_refl.
    apply rev_involutive.
Qed.

Lemma decode_group (a b c : Z) :
  is_octet a -> is_octet b -> is_octet c ->
  let n := Z.lor (Z.shiftl (Z.lor (Z.shiftl (Z.lor (Z.shiftl (Z.shiftr a 2) 6)
                 (Z.lor (Z.shiftl (Z.land a 3) 4) (Z.shiftr b 4))) 6)
                 (Z.lor (Z.shiftl (Z.land b 15) 2) (Z.shiftr c 6))) 6)
                 (Z.land c 63) in
  Z.shiftr n 16 = a /\ Z.land (Z.shiftr n 8) 0xFF = b /\ Z.land n 0xFF = c.
Proof.
  intros Ha Hb Hc.
  destruct (sextet_values Ha Hb Hc) as (-> & _ & -> & _ & -> & ->).
  unfold is_octet in *. cbv zeta.
  assert (E : Z.lor (Z.shiftl (Z.lor (Z.shiftl (Z.lor (Z.shiftl (a / 4) 6)
                (a mod 4 * 16 + b / 16)) 6) (b mod 16 * 4 + c / 64)) 6) (c mod 64)
              = (a * 256 + b) * 256 + c).
  { rewrite !lor_shiftl_add; change (2 ^ 6) with 64;
      try (Z.div_mod_to_equations; lia). }
  rewrite E.
  rewrite !(@land_ones_literal _ 8 255) by (try lia; reflexivity).
  rewrite !Z.shiftr_div_pow2 by lia.
  change (2 ^ 16) with 65536. change (2 ^ 8) with 256.
  repeat split; Z.div_mod_to_equations; lia.
Qed.

Lemma decode_tail1 (a : Z) :
  is_octet a ->
  Z.shiftr (Z.lor (Z.shiftl (Z.shiftr a 2) 6) (Z.shiftl (Z.land a 3) 4)) 4 = a.
Proof.
  intros Ha.
  assert (O0 : is_octet 0) by (unfold is_octet; lia).
  destruct (sextet_values Ha O0 O0) as (-> & -> & _).
  unfold is_octet in *.
  rewrite lor_shiftl_add; change (2 ^ 6) with 64;
    try (Z.div_mod_to_equations; lia).
  rewrite Z.shiftr_div_pow2 by lia. change (2 ^ 4) with 16.
  Z.div_mod_to_equations; lia.
Qed.

Lemma decode_tail2 (a b : Z) :
  is_octet a -> is_octet b ->
  let n := Z.shiftr (Z.lor (Z.shiftl (Z.lor (Z.shiftl (Z.shiftr a 2) 6)
                 (Z.lor (Z.shiftl (Z.land a 3) 4) (Z.shiftr b 4))) 6)
                 (Z.shiftl (Z.land b 15) 2)) 2 in
  Z.shiftr n 8 = a /\ Z.land n 0xFF = b.
Proof.
  intros Ha Hb.
  assert (O0 : is_octet 0) by (unfold is_octet; lia).
  destruct (sextet_values Ha Hb O0) as (-> & _ & -> & -> & _).
  unfold is_octet in *. cbv zeta.
  assert (E : Z.lor (Z.shiftl (Z.lor (Z.shiftl (a / 4) 6)
                (a mod 4 * 16 + b / 16)) 6) (b mod 16 * 4)
              = (a * 256 + b) * 4).
  { rewrite !lor_shiftl_add; change (2 ^ 6) with 64;
      try (Z.div_mod_to_equations; lia). }
  rewrite E.
  rewrite !(@land_ones_literal _ 8 255) by (try lia; reflexivity).
  rewrite !Z.shiftr_div_pow2 by lia.
  change (2 ^ 2) with 4. change (2 ^ 8) with 256.
  repeat split; Z.div_mod_to_equations; lia.
Qed.

Lemma base64_decode_sextets (data : list Z) :
  Forall is_octet data -> base64_decode_values (sextets data) = data.
Proof.
  induction data as [|a|a b|a b c l IH] using list_ind3; intros H.
  - reflexivity.
  - inversion H; subst. cbn [sextets base64_decode_values].
    now rewrite decode_tail1.
  - inversion H as [|? ? Ha H']; subst. inversion H' as [|? ? Hb _]; subst.
    cbn [sextets base64_decode_values].
    destruct (decode_tail2 Ha Hb) as [E1 E2]. cbv zeta in E1, E2.
    now rewrite E1, E2.
  - inversion H as [|? ? Ha H']; subst. inversion H' as [|? ? Hb H'']; subst.
    inversion H'' as [|? ? Hc Hl]; subst.
    cbn [sextets app base64_decode_values].
    destruct (decode_group Ha Hb Hc) as (E1 & E2 & E3). cbv zeta in E1, E2, E3.
    rewrite E1, E2, E3, IH by assumption. reflexivity.
Qed.

(** [atob] undoes [btoa]. *)
Lemma atob_base64_encode (data : list Z) :
  Forall is_octet data -> atob (base64_encode data) = Returned data.
Proof.
  intros H. unfold atob.
  rewrite base64_encode_no_whitespace, strip_padding_encoded by assumption.
  rewrite length_map.
  destruct (Z.eqb_spec (Z.of_nat (length (sextets data)) mod 4) 1) as [E|_].
  - now apply sextets_length in E.
  - rewrite base64_values_chars by now apply sextets_range.
    now rewrite base64_decode_sextets.
Qed.

Lemma octets_of_bytes (data : bytes) : Forall is_octet (map byte_val data).
Proof.
  induction data; cbn [map]; constructor; auto. apply byte_val_range.
Qed.

Lemma map_to_uint8_byte_val (data : bytes) :
  map to_uint8 (map byte_val data) = data.
Proof.
  induction data as [|b l IH]; [reflexivity|].
  cbn [map]. now rewrite to_uint8_byte_val, IH.
Qed.

Ltac decide_tests :=
  repeat match goal with
         | |- context [Z.leb ?a ?b] => destruct (Z.leb_spec a b); try lia
         | |- context [Z.ltb ?a ?b] => destruct (Z.ltb_spec a b); try lia
         | |- context [Z.eqb ?a ?b] => destruct (Z.eqb_spec a b); try lia
         end; cbn [andb orb negb].

Lemma byte_val_to_uint8_small (z : Z) : 0 <= z < 256 -> byte_val (to_uint8 z) = z.
Proof. intros H. rewrite byte_val_to_uint8. now apply Z.mod_small. Qed.

(** A continuation byte [0x80 | (x & 0x3F)]. *)
Lemma continuation_byte (x : Z) :
  let v := Z.lor 0x80 (Z.land x 0x3F) in
  v = 128 + x mod 64 /\ Z.land v 0x3F = x mod 64.
Proof.
  cbv zeta.
  rewrite (@land_ones_literal x 6 0x3F) by (try lia; reflexivity).
  change (2 ^ 6) with 64.
  pose proof (Z.mod_pos_bound x 64 ltac:(lia)) as Hr.
  rewrite (@lor_add_low 128 (x mod 64) 7) by (try reflexivity; change (2 ^ 7) with 128; lia).
  split; [reflexivity|].
  rewrite (@land_ones_literal _ 6 0x3F) by (try lia; reflexivity).
  change (2 ^ 6) with 64.
  Z.div_mod_to_equations; lia.
Qed.

Lemma utf8_items_lead (b : byte) (rest : bytes) :
  utf8_items None (b :: rest)
  = utf8_on_lead (byte_val b) (fun st' => utf8_items st' rest).
Proof. reflexivity. Qed.

Lemma utf8_items_last (s : utf8_state) (b : byte) (rest : bytes) :
  bytes_left s = 1%nat ->
  lower_boundary s <= byte_val b <= upper_boundary s ->
  utf8_items (Some s) (b :: rest)
  = Some (Z.lor (Z.shiftl (code_point s) 6) (Z.land (byte_val b) 0x3F))
      :: utf8_items None rest.
Proof.
  intros Hl Hb. cbn [utf8_items]. cbv zeta. rewrite Hl.
  destruct (Z.leb_spec (lower_boundary s) (byte_val b)); [|lia].
  destruct (Z.leb_spec (byte_val b) (upper_boundary s)); [|lia].
  reflexivity.
Qed.

Lemma utf8_items_more (s : utf8_state) (n : nat) (b : byte) (rest : bytes) :
  bytes_left s = S (S n) ->
  lower_boundary s <= byte_val b <= upper_boundary s ->
  utf8_items (Some s) (b :: rest)
  = utf8_items
      (Some {| code_point := Z.lor (Z.shiftl (code_point s) 6)
                                   (Z.land (byte_val b) 0x3F);
               bytes_left := S n;
               lower_boundary := 0x80; upper_boundary := 0xBF |}) rest.
Proof.
  intros Hl Hb. cbn [utf8_items]. cbv zeta. rewrite Hl.
  destruct (Z.leb_spec (lower_boundary s) (byte_val b)); [|lia].
  destruct (Z.leb_spec (byte_val b) (upper_boundary s)); [|lia].
  reflexivity.
Qed.

Lemma decode_one_byte (c : Z) (rest : bytes) :
  0 <= c <= 0x7F ->
  utf8_items None (to_uint8 c :: rest) = Some c :: utf8_items None rest.
Proof.
  intros Hc. rewrite utf8_items_lead, byte_val_to_uint8_small by lia.
  unfold utf8_on_lead, utf8_lead. decide_tests. reflexivity.
Qed.

Lemma decode_two_bytes (c : Z) (rest : bytes) :
  0x80 <= c <= 0x7FF ->
  utf8_items None (to_uint8 (Z.shiftr c 6 + 0xC0)
                   :: to_uint8 (Z.lor 0x80 (Z.land c 0x3F)) :: rest)
  = Some c :: utf8_items None rest.
Proof.
  intros Hc.
  destruct (continuation_byte c) as [E1 E2]. cbv zeta in E1, E2.
  rewrite Z.shiftr_div_pow2 by lia. change (2 ^ 6) with 64.
  rewrite utf8_items_lead, byte_val_to_uint8_small
    by (Z.div_mod_to_equations; lia).
  unfold utf8_on_lead, utf8_lead. decide_tests;
    try (exfalso; Z.div_mod_to_equations; lia).
  rewrite utf8_items_last;
    [|reflexivity
     |cbn [lower_boundary upper_boundary];
      rewrite byte_val_to_uint8_small; rewrite E1;
      Z.div_mod_to_equations; lia].
  cbn [code_point]. rewrite byte_val_to_uint8_small
    by (rewrite E1; Z.div_mod_to_equations; lia).
  rewrite E2. f_equal. f_equal.
  rewrite (@land_ones_literal _ 5 0x1F) by (try lia; reflexivity).
  rewrite lor_shiftl_add; change (2 ^ 6) with 64; change (2 ^ 5) with 32;
    Z.div_mod_to_equations; lia.
Qed.

Lemma continuation_value (x : Z) :
  byte_val (to_uint8 (Z.lor 0x80 (Z.land x 0x3F))) = 128 + x mod 64.
Proof.
  destruct (continuation_byte x) as [E1 _]. cbv zeta in E1. rewrite E1.
  apply byte_val_to_uint8_small.
  pose proof (Z.mod_pos_bound x 64 ltac:(lia)). lia.
Qed.

Lemma accumulate (cp x : Z) :
  Z.lor (Z.shiftl cp 6) (Z.land (128 + x mod 64) 0x3F) = cp * 64 + x mod 64.
Proof.
  pose proof (Z.mod_pos_bound x 64 ltac:(lia)) as Hr.
  rewrite (@land_ones_literal _ 6 0x3F) by (try lia; reflexivity).
  change (2 ^ 6) with 64.
  replace ((128 + x mod 64) mod 64) with (x mod 64)
    by (Z.div_mod_to_equations; lia).
  rewrite lor_shiftl_add; change (2 ^ 6) with 64; lia.
Qed.

Lemma decode_three_bytes (c : Z) (rest : bytes) :
  0x800 <= c <= 0xFFFF -> ~ (0xD800 <= c <= 0xDFFF) ->
  utf8_items None (to_uint8 (Z.shiftr c 12 + 0xE0)
                   :: to_uint8 (Z.lor 0x80 (Z.land (Z.shiftr c 6) 0x3F))
                   :: to_uint8 (Z.lor 0x80 (Z.land c 0x3F)) :: rest)
  = Some c :: utf8_items None rest.
Proof.
  intros Hc Hs.
  rewrite !Z.shiftr_div_pow2 by lia.
  change (2 ^ 6) with 64. change (2 ^ 12) with 4096.
  rewrite utf8_items_lead, byte_val_to_uint8_small
    by (Z.div_mod_to_equations; lia).
  unfold utf8_on_lead, utf8_lead.
  destruct (Z.leb_spec (c / 4096 + 224) 127);
    [exfalso; Z.div_mod_to_equations; lia|].
  destruct (Z.leb_spec 194 (c / 4096 + 224));
    destruct (Z.leb_spec (c / 4096 + 224) 223);
    try (exfalso; Z.div_mod_to_equations; lia).
  cbn [andb].
  destruct (Z.leb_spec 224 (c / 4096 + 224));
    destruct (Z.leb_spec (c / 4096 + 224) 239);
    try (exfalso; Z.div_mod_to_equations; lia).
  cbn [andb].
  rewrite (@utf8_items_more _ 0);
    [|reflexivity
     |cbn [lower_boundary upper_boundary]; rewrite continuation_value;
      destruct (Z.eqb_spec (c / 4096 + 224) 224);
      destruct (Z.eqb_spec (c / 4096 + 224) 237);
      Z.div_mod_to_equations; lia].
  rewrite utf8_items_last;
    [|reflexivity
     |cbn [lower_boundary upper_boundary]; rewrite continuation_value;
      Z.div_mod_to_equations; lia].
  cbn [code_point]. rewrite !continuation_value, !accumulate.
  f_equal. f_equal.
  rewrite (@land_ones_literal _ 4 0xF) by (try lia; reflexivity).
  change (2 ^ 4) with 16.
  Z.div_mod_to_equations; lia.
Qed.

Lemma decode_four_bytes (c : Z) (rest : bytes) :
  0x10000 <= c <= 0x10FFFF ->
  utf8_items None (to_uint8 (Z.shiftr c 18 + 0xF0)
                   :: to_uint8 (Z.lor 0x80 (Z.land (Z.shiftr c 12) 0x3F))
                   :: to_uint8 (Z.lor 0x80 (Z.land (Z.shiftr c 6) 0x3F))
                   :: to_uint8 (Z.lor 0x80 (Z.land c 0x3F)) :: rest)
  = Some c :: utf8_items None rest.
Proof.
  intros Hc.
  rewrite !Z.shiftr_div_pow2 by lia.
  change (2 ^ 6) with 64. change (2 ^ 12) with 4096.
  change (2 ^ 18) with 262144.
  rewrite utf8_items_lead, byte_val_to_uint8_small
    by (Z.div_mod_to_equations; lia).
  unfold utf8_on_lead, utf8_lead.
  destruct (Z.leb_spec (c / 262144 + 240) 127);
    [exfalso; Z.div_mod_to_equations; lia|].
  destruct (Z.leb_spec 194 (c / 262144 + 240));
    destruct (Z.leb_spec (c / 262144 + 240) 223);
    try (exfalso; Z.div_mod_to_equations; lia).
  cbn [andb].
  destruct (Z.leb_spec 224 (c / 262144 + 240));
    destruct (Z.leb_spec (c / 262144 + 240) 239);
    try (exfalso; Z.div_mod_to_equations; lia).
  cbn [andb].
  destruct (Z.leb_spec 240 (c / 262144 + 240));
    destruct (Z.leb_spec (c / 262144 + 240) 244);
    try (exfalso; Z.div_mod_to_equations; lia).
  cbn [andb].
  rewrite (@utf8_items_more _ 1);
    [|reflexivity
     |cbn [lower_boundary upper_boundary]; rewrite continuation_value;
      destruct (Z.eqb_spec (c / 262144 + 240) 240);
      destruct (Z.eqb_spec (c / 262144 + 240) 244);
      Z.div_mod_to_equations; lia].
  rewrite (@utf8_items_more _ 0);
    [|reflexivity
     |cbn [lower_boundary upper_boundary]; rewrite continuation_value;
      Z.div_mod_to_equations; lia].
  rewrite utf8_items_last;
    [|reflexivity
     |cbn [lower_boundary upper_boundary]; rewrite continuation_value;
      Z.div_mod_to_equations; lia].
  cbn [code_point]. rewrite !continuation_value, !accumulate.
  f_equal. f_equal.
  rewrite (@land_ones_literal _ 3 0x7) by (try lia; reflexivity).
  change (2 ^ 3) with 8.
  Z.div_mod_to_equations; lia.
Qed.

Lemma is_scalar_spec (c : Z) :
  is_scalar c = true <-> 0 <= c <= 0x10FFFF /\ ~ (0xD800 <= c <= 0xDFFF).
Proof.
  unfold is_scalar. rewrite !andb_true_iff, negb_true_iff, andb_false_iff.
  rewrite !Z.leb_le, !Z.leb_gt. lia.
Qed.

Lemma utf8_items_encode_scalar (c : Z) (rest : bytes) :
  is_scalar c = true ->
  utf8_items None (utf8_encode_scalar c ++ rest) = Some c :: utf8_items None rest.
Proof.
  intros H. apply is_scalar_spec in H as [Hr Hs]. unfold utf8_encode_scalar.
  destruct (Z.leb_spec c 0x7F); [apply decode_one_byte; lia|].
  destruct (Z.leb_spec c 0x7FF); [apply decode_two_bytes; lia|].
  destruct (Z.leb_spec c 0xFFFF); [apply decode_three_bytes; lia|].
  apply decode_four_bytes; lia.
Qed.

Lemma utf8_items_scalars (cs : list Z) :
  Forall (fun c => is_scalar c = true) cs ->
  utf8_items None (flat_map utf8_encode_scalar cs) = map Some cs.
Proof.
  induction 1 as [|c cs Hc _ IH]; [reflexivity|].
  cbn [flat_map map]. now rewrite utf8_items_encode_scalar, IH.
Qed.

Lemma all_decoded_some (cs : list Z) : all_decoded (map Some cs) = Some cs.
Proof.
  induction cs as [|c cs IH]; [reflexivity|].
  cbn [map all_decoded]. now rewrite IH.
Qed.

Lemma surrogate_tests (u : Z) :
  (is_high_surrogate u = true <-> 0xD800 <= u <= 0xDBFF)
  /\ (is_low_surrogate u = true <-> 0xDC00 <= u <= 0xDFFF).
Proof.
  unfold is_high_surrogate, is_low_surrogate.
  rewrite !andb_true_iff, !Z.leb_le. tauto.
Qed.

(** Induction over a well-formed string: one unit that is no surrogate,
    or a surrogate pair, at a time. *)
Lemma well_formed_ind (P : jsstring -> Prop) :
  P [] ->
  (forall u rest, 0 <= u <= 0xFFFF -> ~ (0xD800 <= u <= 0xDFFF) ->
                  P rest -> P (u :: rest)) ->
  (forall h l rest, 0xD800 <= h <= 0xDBFF -> 0xDC00 <= l <= 0xDFFF ->
                    P rest -> P (h :: l :: rest)) ->
  forall s, isWellFormed s = true -> P s.
Proof.
  intros H0 H1 H2.
  fix IH 1. intros [|u rest] Hs; [exact H0|].
  cbn [isWellFormed] in Hs.
  apply andb_prop in Hs as [Hr Hs]. apply andb_prop in Hr as [Hr1 Hr2].
  apply Z.leb_le in Hr1, Hr2.
  destruct (surrogate_tests u) as [Hh Hl].
  destruct (is_high_surrogate u) eqn:Eh.
  - destruct rest as [|l rest']; [discriminate|].
    apply andb_prop in Hs as [Hlow Hs].
    apply (surrogate_tests l) in Hlow.
    apply H2; [now apply Hh|assumption|]. apply IH. exact Hs.
  - apply andb_prop in Hs as [Hlow Hs]. apply negb_true_iff in Hlow.
    apply H1; [lia| |apply IH; exact Hs].
    intros Hsur.
    assert (~ (0xD800 <= u <= 0xDBFF)) by (intros X; apply Hh in X; discriminate).
    assert (~ (0xDC00 <= u <= 0xDFFF))
      by (intros X; apply Hl in X; congruence).
    lia.
Qed.

Lemma to_scalars_unit (u : Z) (rest : jsstring) :
  ~ (0xD800 <= u <= 0xDFFF) -> to_scalars (u :: rest) = u :: to_scalars rest.
Proof.
  intros H. cbn [to_scalars].
  destruct (surrogate_tests u) as [Hh Hl].
  destruct (is_high_surrogate u); [exfalso; apply H; lia|].
  destruct (is_low_surrogate u); [exfalso; apply H; lia|].
  reflexivity.
Qed.

Lemma to_scalars_pair (h l : Z) (rest : jsstring) :
  0xD800 <= h <= 0xDBFF -> 0xDC00 <= l <= 0xDFFF ->
  to_scalars (h :: l :: rest)
  = (0x10000 + (h - 0xD800) * 0x400 + (l - 0xDC00)) :: to_scalars rest.
Proof.
  intros Hh Hl. cbn [to_scalars].
  rewrite (proj2 (proj1 (surrogate_tests h)) Hh).
  rewrite (proj2 (proj2 (surrogate_tests l)) Hl).
  reflexivity.
Qed.

Lemma from_scalar_pair (h l : Z) :
  0xD800 <= h <= 0xDBFF -> 0xDC00 <= l <= 0xDFFF ->
  from_scalar (0x10000 + (h - 0xD800) * 0x400 + (l - 0xDC00)) = [h; l].
Proof.
  intros Hh Hl. unfold from_scalar.
  destruct (Z.leb_spec (0x10000 + (h - 0xD800) * 0x400 + (l - 0xDC00)) 0xFFFF);
    [lia|].
  rewrite Z.shiftr_div_pow2 by lia.
  rewrite (@land_ones_literal _ 10 0x3FF) by (try lia; reflexivity).
  change (2 ^ 10) with 1024.
  f_equal; [|f_equal]; Z.div_mod_to_equations; lia.
Qed.

(** The scalar values of a well-formed string are Unicode scalar values,
    and writing them back in UTF-16 gives the string. *)
Lemma to_scalars_well_formed (s : jsstring) :
  isWellFormed s = true ->
  Forall (fun c => is_scalar c = true) (to_scalars s)
  /\ flat_map from_scalar (to_scalars s) = s
  /\ (no_leading_bom s = true -> drop_bom (to_scalars s) = to_scalars s).
Proof.
  revert s.
  apply (@well_formed_ind (fun s =>
    Forall (fun c => is_scalar c = true) (to_scalars s)
    /\ flat_map from_scalar (to_scalars s) = s
    /\ (no_leading_bom s = true -> drop_bom (to_scalars s) = to_scalars s)));
    [|intros u rest Hu Hs (IH1 & IH2 & _)|intros h l rest Hh Hl (IH1 & IH2 & _)].
  - repeat split; constructor.
  - rewrite to_scalars_unit by assumption. split; [|split].
    + constructor; [apply is_scalar_spec; lia|assumption].
    + cbn [flat_map]. rewrite IH2. unfold from_scalar.
      destruct (Z.leb_spec u 0xFFFF); [reflexivity|lia].
    + cbn [no_leading_bom drop_bom]. intros Hb.
      apply negb_true_iff in Hb. now rewrite Hb.
  - rewrite to_scalars_pair by assumption. split; [|split].
    + constructor; [apply is_scalar_spec; lia|assumption].
    + cbn [flat_map]. now rewrite IH2, from_scalar_pair.
    + intros _. cbn [drop_bom].
      destruct (Z.eqb_spec (0x10000 + (h - 0xD800) * 0x400 + (l - 0xDC00)) 0xFEFF);
        [lia|reflexivity].
Qed.

(** A fatal UTF-8 decoder undoes [TextEncoder] on a well-formed string
    that does not start with U+FEFF. *)
Lemma utf8_round_trip (s : jsstring) :
  isWellFormed s = true -> no_leading_bom s = true ->
  utf8_decode_fatal (TextEncoder_encode s) = Returned s.
Proof.
  intros Hw Hb.
  destruct (to_scalars_well_formed s Hw) as (Hsc & Hback & Hbom).
  unfold utf8_decode_fatal, TextEncoder_encode.
  rewrite utf8_items_scalars, all_decoded_some by assumption.
  now rewrite (Hbom Hb), Hback.
Qed.

End HostFacts.

(** ** Embedding, then extracting *)

Module RoundTripFacts.

Import JSFacts BufferFacts WalkerFacts Host PngCard Walker Examples Base64 Text PngCardFacts HostFacts.

Lemma ascii_text_bytes (t : jsstring) :
  Forall (fun u => 0 <= u < 128) t ->
  TextEncoder_encode t = map to_uint8 t /\ ascii_decode (map to_uint8 t) = t.
Proof.
  unfold TextEncoder_encode, ascii_decode.
  induction 1 as [|u t Hu _ [IH1 IH2]]; [split; reflexivity|].
  rewrite to_scalars_unit by lia. cbn [flat_map map]. rewrite IH1, IH2.
  unfold utf8_encode_scalar, windows1252.
  rewrite byte_val_to_uint8_small by lia.
  destruct (Z.leb_spec u 0x7F); [|lia].
  destruct (Z.leb_spec 0x80 u); [lia|]. split; reflexivity.
Qed.

Lemma base64_encode_ascii (data : list Z) :
  Forall is_octet data -> Forall (fun u => 0 <= u < 128) (base64_encode data).
Proof.
  intros H. rewrite base64_encode_sextets. apply Forall_app. split.
  - apply sextets_range in H. induction H as [|v vs Hv _ IH]; constructor; auto.
    now destruct (base64_char_facts Hv) as (_ & _ & _ & ?).
  - destruct (padding_cases data) as [-> | [-> | ->]];
      repeat (constructor; [unfold pad; lia|]); constructor.
Qed.

Lemma payload64_text (s : jsstring) :
  ascii_decode (encodeAscii (payload64 s)) = payload64 s.
Proof.
  unfold encodeAscii, payload64.
  destruct (@ascii_text_bytes
              (base64_encode (map byte_val (TextEncoder_encode s)))) as [E1 E2].
  - apply base64_encode_ascii, octets_of_bytes.
  - now rewrite E1, E2.
Qed.

(** Decoding the base64 text of a card gives the card back. *)
Lemma base64DecodeUtf8_payload64 (s : jsstring) :
  isWellFormed s = true -> no_leading_bom s = true ->
  base64DecodeUtf8 (payload64 s) = Returned s.
Proof.
  intros Hw Hb. unfold base64DecodeUtf8, payload64.
  rewrite atob_base64_encode by apply octets_of_bytes.
  cbn [JS.bind]. rewrite map_to_uint8_byte_val. now apply utf8_round_trip.
Qed.

Lemma decode_text_chunk (key s : jsstring) :
  ~ In x00 (encodeAscii key) -> encodeAscii key <> [] ->
  isWellFormed s = true -> no_leading_bom s = true ->
  decode_carrier (text_chunk key (payload64 s))
  = Returned (Some {| keyword := utf8_decode (encodeAscii key); jsonText := s |}).
Proof.
  intros Hk1 Hk2 Hw Hb. unfold decode_carrier.
  rewrite text_chunk_parse by assumption. cbn [textBytes parsed_keyword].
  rewrite payload64_text, base64DecodeUtf8_payload64 by assumption.
  reflexivity.
Qed.

Lemma decode_chara_chunk (s : jsstring) :
  isWellFormed s = true -> no_leading_bom s = true ->
  decode_carrier (text_chunk (lit "chara") (payload64 s))
  = Returned (Some {| keyword := lit "chara"; jsonText := s |}).
Proof.
  intros Hw Hb. rewrite decode_text_chunk; try assumption;
    [reflexivity| |discriminate].
  vm_compute. intuition discriminate.
Qed.

Lemma decode_ccv3_chunk (s : jsstring) :
  isWellFormed s = true -> no_leading_bom s = true ->
  decode_carrier (text_chunk (lit "ccv3") (payload64 s))
  = Returned (Some {| keyword := lit "ccv3"; jsonText := s |}).
Proof.
  intros Hw Hb. rewrite decode_text_chunk; try assumption;
    [reflexivity| |discriminate].
  vm_compute. intuition discriminate.
Qed.

Lemma valid_png_spec (p : bytes) :
  valid_png p = true <-> has_signature p = true /\ stream_end p = AtIEND.
Proof.
  unfold valid_png. rewrite andb_true_iff.
  destruct (stream_end p); intuition discriminate.
Qed.

Lemma kept_are_not_carriers (cs : list chunk) :
  forallb (fun x => negb (is_carrier x))
          (map recrc (filter (fun c => negb (is_carrier c)) cs)) = true.
Proof.
  induction cs as [|c cs IH]; [reflexivity|].
  cbn [filter]. destruct (is_carrier c) eqn:E; cbn [negb map forallb]; auto.
  now rewrite is_carrier_recrc, E.
Qed.

Lemma has_signature_prefixed (body : bytes) :
  has_signature (PNG_SIGNATURE ++ body) = true.
Proof. reflexivity. Qed.

(** What the rewrite makes of a valid buffer. *)
Lemma embed_valid (p : bytes) (s : jsstring) (opts : option EmbedOptions) :
  valid_png p = true ->
  exists pre l,
    chunks p = pre ++ [l] /\ type_is l "IEND" = true
    /\ embedCardIntoPng p s opts =
       Returned (PNG_SIGNATURE ++ flat_map chunk_bytes
                   (map recrc (filter (fun c => negb (is_carrier c)) pre)
                    ++ insertion_set opts (payload64 s) ++ [recrc l])).
Proof.
  intros Hv. apply valid_png_spec in Hv as [Hs He].
  destruct (chunks_shape p) as [_ [[_ (pre & l & Hcs & Hl & Hpre)]|[Hne _]]];
    [|congruence].
  exists pre, l. split; [assumption|]. split; [assumption|].
  rewrite embed_spec, Hs, He, Hcs, rewrite_chunks_iend by assumption.
  reflexivity.
Qed.

(** What [extractCardFromPng] finds in the output of the rewrite. *)
Lemma extract_after_embed (p : bytes) (s : jsstring)
    (opts : option EmbedOptions) (out : bytes) :
  valid_png p = true ->
  fits_length_field (payload64 s) ->
  isWellFormed s = true -> no_leading_bom s = true ->
  embedCardIntoPng p s opts = Returned out ->
  extractCardFromPng out =
  Returned (if option_flag opts writeChara
            then Some {| keyword := lit "chara"; jsonText := s |}
            else if option_flag opts writeCcv3
                 then Some {| keyword := lit "ccv3"; jsonText := s |}
                 else None).
Proof.
  intros Hv Hfit Hw Hb Hout.
  pose proof Hout as Hout'. apply embed_output in Hout'.
  destruct Hout' as (_ & _ & Eout & Hchunks).
  destruct (Hchunks Hfit) as [Ech _].
  apply valid_png_spec in Hv as [Hs He].
  destruct (chunks_shape p) as [_ [[_ (pre' & l' & Hcs' & Hl' & Hpre')]|[Hne _]]];
    [|congruence].
  rewrite Hcs', rewrite_chunks_iend in Ech by assumption.
  rewrite extract_spec, Eout, has_signature_prefixed, <- Eout, Ech.
  rewrite find_skip by apply kept_are_not_carriers.
  unfold insertion_set.
  destruct (insertion_set_facts opts (payload64 s)) as (_ & Hcar & _).
  unfold insertion_set in Hcar.
  destruct (option_flag opts writeChara), (option_flag opts writeCcv3);
    cbn [app find forallb] in *.
  - apply andb_prop in Hcar as [-> _]. now apply decode_chara_chunk.
  - apply andb_prop in Hcar as [-> _]. now apply decode_chara_chunk.
  - apply andb_prop in Hcar as [-> _]. now apply decode_ccv3_chunk.
  - rewrite is_carrier_recrc, (iend_not_carrier l' Hl'). reflexivity.
Qed.

(** C3, the statement as written fails: this card text is a well-formed
    string, yet what comes back has lost its leading U+FEFF. *)
Lemma round_trip_counterexample :
  valid_png (png [ihdr; iend]) = true
  /\ isWellFormed bom_braces = true
  /\ exists out,
       embedCardIntoPng (png [ihdr; iend]) bom_braces chara_only = Returned out
       /\ extractCardFromPng out
          = Returned (Some {| keyword := lit "chara"; jsonText := lit "{}" |})
       /\ lit "{}" <> bom_braces.
Proof.
  split; [reflexivity|]. split; [reflexivity|].
  eexists. split; [vm_compute; reflexivity|].
  split; [vm_compute; reflexivity|discriminate].
Qed.

(** C3, amended. For every valid PNG buffer and every well-formed string
    (no unpaired surrogate) that does not start with U+FEFF and whose
    text chunk fits the 32-bit length field, embedding with
    [{ writeChara: true, writeCcv3: false }] returns a buffer from which
    [extractCardFromPng] returns the string, under the keyword "chara". *)
Theorem embed_then_extract_round_trip (p : bytes) (s : jsstring) :
  valid_png p = true ->
  isWellFormed s = true -> no_leading_bom s = true ->
  fits_length_field (payload64 s) ->
  exists out,
    embedCardIntoPng p s chara_only = Returned out
    /\ extractCardFromPng out
       = Returned (Some {| keyword := lit "chara"; jsonText := s |}).
Proof.
  intros Hv Hw Hb Hfit.
  destruct (embed_valid p s chara_only Hv) as (pre & l & _ & _ & Hemb).
  eexists. split; [exact Hemb|].
  rewrite (@extract_after_embed p s chara_only _ Hv Hfit Hw Hb Hemb).
  reflexivity.
Qed.

Lemma embed_then_extract_round_trip_witness :
  exists out,
    embedCardIntoPng (png [ihdr; chara_braces; iend]) (lit "[]") chara_only
    = Returned out
    /\ extractCardFromPng out
       = Returned (Some {| keyword := lit "chara"; jsonText := lit "[]" |}).
Proof.
  apply (@embed_then_extract_round_trip
           (png [ihdr; chara_braces; iend]) (lit "[]"));
    [reflexivity|reflexivity|reflexivity|vm_compute; reflexivity].
Defined.

Lemma recrc_idempotent (c : chunk) : recrc (recrc c) = recrc c.
Proof. reflexivity. Qed.

Lemma map_recrc_idempotent (cs : list chunk) :
  map recrc (map recrc cs) = map recrc cs.
Proof. rewrite map_map. reflexivity. Qed.

Lemma filter_kept (cs : list chunk) :
  filter (fun c => negb (is_carrier c))
         (map recrc (filter (fun c => negb (is_carrier c)) cs))
  = map recrc (filter (fun c => negb (is_carrier c)) cs).
Proof.
  apply filter_id. pose proof (kept_are_not_carriers cs) as H.
  rewrite forallb_forall in H. apply Forall_forall. exact H.
Qed.

(** Rewriting a rewritten stream drops the first insertion set and
    leaves the rest as the first rewrite made it. *)
Lemma rewrite_chunks_twice (ins1 ins2 : list chunk) (p : bytes) :
  forallb is_carrier ins1 = true ->
  forallb (fun c => negb (type_is c "IEND")) ins1 = true ->
  rewrite_chunks ins2 (rewrite_chunks ins1 (chunks p))
  = rewrite_chunks ins2 (chunks p).
Proof.
  intros Hcar Hni.
  destruct (chunks_shape p) as [_ [[_ (pre & l & Hcs & Hl & Hpre)]|[_ Hpre]]].
  - rewrite Hcs, (@rewrite_chunks_iend ins1 pre l Hpre Hl), app_assoc.
    rewrite !rewrite_chunks_iend; try assumption; try now rewrite type_is_recrc.
    + rewrite filter_app, filter_kept, (filter_out_carriers _ Hcar), app_nil_r.
      now rewrite map_recrc_idempotent.
    + rewrite forallb_app, Hni, forallb_map_recrc_not_iend by assumption.
      reflexivity.
  - rewrite (@rewrite_chunks_non_iend ins1 (chunks p) Hpre).
    rewrite !rewrite_chunks_non_iend; try assumption.
    + now rewrite filter_kept, map_recrc_idempotent.
    + now apply forallb_map_recrc_not_iend.
Qed.

(** Embedding into the output of an embedding is embedding into the
    original buffer. *)
Lemma embed_twice (p : bytes) (s1 s2 : jsstring)
    (o1 o2 : option EmbedOptions) (out1 : bytes) :
  embedCardIntoPng p s1 o1 = Returned out1 ->
  fits_length_field (payload64 s1) ->
  embedCardIntoPng out1 s2 o2 = embedCardIntoPng p s2 o2.
Proof.
  intros H1 Hfit. apply embed_output in H1 as (Hs & Hend & Eout & Hchunks).
  destruct (Hchunks Hfit) as [Ech Eend].
  destruct (insertion_set_facts o1 (payload64 s1)) as (Hni & Hcar & _).
  rewrite !embed_spec, Hs, Ech, Eend, rewrite_chunks_twice by assumption.
  now rewrite Eout, has_signature_prefixed.
Qed.

Lemma keyed_is_carrier (key : jsstring) (c : chunk) :
  is_card_keyword key = true -> keyed key c = true -> is_carrier c = true.
Proof.
  unfold keyed, chunk_keyword, is_carrier. intros Hk H.
  destruct (type_is c "tEXt"); [|discriminate].
  destruct (parseTextChunkKeyword (cdata c)) as [parsed|]; [|discriminate].
  apply jsstring_eqb_eq in H. now rewrite H.
Qed.

Lemma filter_keyed_not_carriers (key : jsstring) (cs : list chunk) :
  is_card_keyword key = true ->
  forallb (fun x => negb (is_carrier x)) cs = true ->
  filter (keyed key) cs = [].
Proof.
  intros Hk. induction cs as [|c cs IH]; intros H; [reflexivity|].
  cbn [forallb] in H. apply andb_prop in H as [Hc Hcs].
  cbn [filter]. destruct (keyed key c) eqn:E; [|auto].
  apply (keyed_is_carrier _ _ Hk) in E. rewrite E in Hc. discriminate.
Qed.

Lemma keyed_text_chunk (key key' b64 : jsstring) :
  ~ In x00 (encodeAscii key') -> encodeAscii key' <> [] ->
  keyed key (text_chunk key' b64)
  = jsstring_eqb (utf8_decode (encodeAscii key')) key.
Proof.
  intros H1 H2. unfold keyed, chunk_keyword.
  rewrite text_chunk_type, text_chunk_parse by assumption. reflexivity.
Qed.

(** How many chunks of the insertion set are stored under a keyword. *)
Lemma insertion_set_keyed (opts : option EmbedOptions) (b64 : jsstring) :
  length (filter (keyed (lit "chara")) (insertion_set opts b64))
  = (if option_flag opts writeChara then 1 else 0)%nat
  /\ length (filter (keyed (lit "ccv3")) (insertion_set opts b64))
     = (if option_flag opts writeCcv3 then 1 else 0)%nat.
Proof.
  assert (N1 : ~ In x00 (encodeAscii (lit "chara")))
    by (vm_compute; intuition discriminate).
  assert (N2 : ~ In x00 (encodeAscii (lit "ccv3")))
    by (vm_compute; intuition discriminate).
  unfold insertion_set.
  destruct (option_flag opts writeChara), (option_flag opts writeCcv3);
    cbn [app filter];
    rewrite ?keyed_text_chunk by (assumption || discriminate);
    split; reflexivity.
Qed.

(** The chunks stored under a keyword in the output of the rewrite of a
    valid buffer. *)
Lemma embed_valid_keyed (p : bytes) (s : jsstring)
    (opts : option EmbedOptions) (out : bytes) :
  valid_png p = true ->
  fits_length_field (payload64 s) ->
  embedCardIntoPng p s opts = Returned out ->
  length (filter (keyed (lit "chara")) (chunks out))
  = (if option_flag opts writeChara then 1 else 0)%nat
  /\ length (filter (keyed (lit "ccv3")) (chunks out))
     = (if option_flag opts writeCcv3 then 1 else 0)%nat.
Proof.
  intros Hv Hfit Hout.
  apply embed_output in Hout as (_ & _ & _ & Hchunks).
  destruct (Hchunks Hfit) as [Ech _].
  apply valid_png_spec in Hv as [Hs He].
  destruct (chunks_shape p) as [_ [[_ (pre & l & Hcs & Hl & Hpre)]|[Hne _]]];
    [|congruence].
  rewrite Hcs, rewrite_chunks_iend in Ech by assumption.
  assert (Hlast : forallb (fun x => negb (is_carrier x)) [recrc l] = true).
  { cbn [forallb]. now rewrite is_carrier_recrc, (iend_not_carrier l Hl). }
  destruct (insertion_set_keyed opts (payload64 s)) as [K1 K2].
  rewrite Ech, !filter_app, !length_app.
  rewrite !(@filter_keyed_not_carriers _ (map recrc _))
    by (reflexivity || apply kept_are_not_carriers).
  rewrite !(@filter_keyed_not_carriers _ [recrc l]) by (reflexivity || assumption).
  cbn [length]. rewrite K1, K2. split; lia.
Qed.

(** C4, the statement as written fails: after two embeddings the second
    card text, a well-formed string, does not come back as it was. *)
Lemma embed_twice_counterexample :
  valid_png (png [ihdr; iend]) = true
  /\ exists out1 out2,
       embedCardIntoPng (png [ihdr; iend]) (lit "[]") None = Returned out1
       /\ embedCardIntoPng out1 bom_braces None = Returned out2
       /\ extractCardFromPng out2
          = Returned (Some {| keyword := lit "chara"; jsonText := lit "{}" |})
       /\ lit "{}" <> bom_braces.
Proof.
  split; [reflexivity|].
  eexists. eexists. split; [vm_compute; reflexivity|].
  split; [vm_compute; reflexivity|].
  split; [vm_compute; reflexivity|discriminate].
Qed.

(** C4, amended. For every valid PNG buffer and card texts [s1], [s2]
    whose text chunks fit the 32-bit length field, embedding [s2] into
    the result of embedding [s1] gives exactly the buffer that embedding
    [s2] into the original gives: the chunks of the first embedding are
    dropped, and the result holds one tEXt chunk for each keyword the
    second call was asked to write and none for the other. When [s2] is
    well formed and does not start with U+FEFF, [extractCardFromPng]
    returns [s2], under "chara" when that was written, else under
    "ccv3", and [null] when neither was. *)
Theorem embed_twice_replaces
    (p : bytes) (s1 s2 : jsstring) (o1 o2 : option EmbedOptions) :
  valid_png p = true ->
  fits_length_field (payload64 s1) ->
  fits_length_field (payload64 s2) ->
  exists out1 out2,
    embedCardIntoPng p s1 o1 = Returned out1
    /\ embedCardIntoPng out1 s2 o2 = Returned out2
    /\ embedCardIntoPng p s2 o2 = Returned out2
    /\ length (filter (keyed (lit "chara")) (chunks out2))
       = (if option_flag o2 writeChara then 1 else 0)%nat
    /\ length (filter (keyed (lit "ccv3")) (chunks out2))
       = (if option_flag o2 writeCcv3 then 1 else 0)%nat
    /\ (isWellFormed s2 = true -> no_leading_bom s2 = true ->
        extractCardFromPng out2 =
        Returned (if option_flag o2 writeChara
                  then Some {| keyword := lit "chara"; jsonText := s2 |}
                  else if option_flag o2 writeCcv3
                       then Some {| keyword := lit "ccv3"; jsonText := s2 |}
                       else None)).
Proof.
  intros Hv Hf1 Hf2.
  destruct (embed_valid p s1 o1 Hv) as (pre1 & l1 & _ & _ & H1).
  destruct (embed_valid p s2 o2 Hv) as (pre2 & l2 & _ & _ & H2).
  eexists. eexists. split; [exact H1|].
  split; [rewrite (@embed_twice p s1 s2 o1 o2 _ H1 Hf1); exact H2|].
  split; [exact H2|].
  destruct (@embed_valid_keyed p s2 o2 _ Hv Hf2 H2) as [K1 K2].
  split; [exact K1|]. split; [exact K2|].
  intros Hw Hb. exact (@extract_after_embed p s2 o2 _ Hv Hf2 Hw Hb H2).
Qed.

Lemma embed_twice_replaces_witness :
  exists out1 out2,
    embedCardIntoPng (png [ihdr; iend]) (lit "[]") None = Returned out1
    /\ embedCardIntoPng out1 (lit "{}") None = Returned out2
    /\ length (filter (keyed (lit "chara")) (chunks out2)) = 1%nat
    /\ length (filter (keyed (lit "ccv3")) (chunks out2)) = 1%nat
    /\ extractCardFromPng out2
       = Returned (Some {| keyword := lit "chara"; jsonText := lit "{}" |}).
Proof.
  destruct (@embed_twice_replaces (png [ihdr; iend]) (lit "[]") (lit "{}")
              None None)
    as (out1 & out2 & H1 & H2 & _ & K1 & K2 & Hx);
    [reflexivity|vm_compute; reflexivity|vm_compute; reflexivity|].
  exists out1, out2. repeat split; try assumption.
  apply Hx; reflexivity.
Defined.

End RoundTripFacts.

(** ** Further facts about the helpers of [pngCard.ts] *)

Module HelperFacts.

Import JS Crc32 Host PngCard Walker Text Base64 Examples JSFacts Crc32Facts BufferFacts WalkerFacts PngCardFacts HostFacts RoundTripFacts.

Lemma ToInt32_ToUint32 (z : Z) : ToInt32 (ToUint32 z) = ToInt32 z.
Proof. unfold ToInt32, ToUint32. now rewrite Z.mod_mod by lia. Qed.

Lemma ToInt32_idem (z : Z) : ToInt32 (ToInt32 z) = ToInt32 z.
Proof. now rewrite <- (ToInt32_ToUint32 (ToInt32 z)), ToUint32_ToInt32, ToInt32_ToUint32. Qed.

Lemma readUint32BE_int32 (buf : bytes) (offset : Z) :
  readUint32BE buf offset = ToInt32 (ToUint32 (readUint32BE buf offset)).
Proof.
  rewrite ToInt32_ToUint32. unfold readUint32BE.
  set (x := JS.or (JS.or (JS.shl _ _) _) _).
  set (y := operand (at_index buf (offset + 3))).
  unfold JS.or. now rewrite ToInt32_idem.
Qed.

Lemma at_index_app_len (pre post : bytes) (i : Z) :
  0 <= i -> at_index (pre ++ post) (len pre + i) = at_index post i.
Proof.
  intros Hi. unfold len. rewrite at_index_skipn by assumption.
  now rewrite skipn_app_exact.
Qed.

Lemma readUint32BE_app (pre post : bytes) :
  readUint32BE (pre ++ post) (len pre) = readUint32BE post 0.
Proof.
  unfold len. rewrite readUint32BE_skipn. now rewrite skipn_app_exact.
Qed.

(** X1. [readUint32BE] reads the four bytes at the offset big-endian
    into a signed 32-bit number: it is negative as soon as the first byte
    is 0x80 or more, and [>>> 0] turns it into the unsigned value. *)
Theorem readUint32BE_big_endian (pre : bytes) (a b c d : byte) (post : bytes) :
  let v := readUint32BE (pre ++ a :: b :: c :: d :: post) (len pre) in
  JS.shru v 0 = be32 a b c d
  /\ v = (if be32 a b c d <? 2 ^ 31 then be32 a b c d else be32 a b c d - 2 ^ 32).
Proof.
  cbv zeta. rewrite readUint32BE_app.
  pose proof (readUint32BE_cons4 a b c d post) as H.
  split; [exact H|].
  rewrite readUint32BE_int32. rewrite shru_0 in H. rewrite H.
  unfold ToInt32. pose proof (be32_range a b c d).
  now rewrite Z.mod_small by lia.
Qed.

Lemma at_index_beyond (buf : bytes) (i : Z) : len buf <= i -> at_index buf i = None.
Proof.
  intros H. unfold at_index. pose proof (len_nonneg buf).
  destruct (i <? 0) eqn:E; [reflexivity|].
  apply nth_error_None. unfold len in *. lia.
Qed.

(** X2. Reading at or past the end of the buffer does not throw: the
    missing elements count as zero and [readUint32BE] returns 0. *)
Theorem readUint32BE_past_the_end (buf : bytes) (offset : Z) :
  len buf <= offset -> readUint32BE buf offset = 0.
Proof.
  intros H. unfold readUint32BE.
  rewrite !at_index_beyond by lia. reflexivity.
Qed.

Lemma readUint32BE_past_the_end_witness :
  readUint32BE PNG_SIGNATURE 8 = 0.
Proof. apply (@readUint32BE_past_the_end PNG_SIGNATURE 8). vm_compute. discriminate. Defined.

Lemma writeUint32BE_ToUint32 (n : Z) : writeUint32BE n = writeUint32BE (ToUint32 n).
Proof.
  unfold writeUint32BE, JS.shru.
  rewrite !and_0xff.
  unfold ToUint32. now rewrite !Z.mod_mod by lia.
Qed.

(** X3. [writeUint32BE] always writes four bytes and keeps only the
    value modulo 2^32 (a negative or too large number wraps around);
    reading them back gives that residue. *)
Theorem writeUint32BE_wraps (n : Z) :
  writeUint32BE n = writeUint32BE (n mod 2 ^ 32)
  /\ length (writeUint32BE n) = 4%nat
  /\ forall rest, JS.shru (readUint32BE (writeUint32BE n ++ rest) 0) 0 = n mod 2 ^ 32.
Proof.
  split; [apply writeUint32BE_ToUint32|].
  split; [apply writeUint32BE_length|].
  intros rest. rewrite writeUint32BE_ToUint32.
  apply readUint32BE_writeUint32BE. apply ToUint32_range.
Qed.

(** X4. [bytesToBinaryString] returns one code unit per byte, equal to
    the byte, whatever the length: the 0x2000-byte windows leave no seam.
    [btoa] accepts the result, and the bytes can be read back from it. *)
Theorem bytesToBinaryString_one_unit_per_byte (data : bytes) :
  bytesToBinaryString data = Returned (map byte_val data)
  /\ btoa (map byte_val data) = Returned (base64_encode (map byte_val data))
  /\ map to_uint8 (map byte_val data) = data.
Proof.
  split; [apply bytesToBinaryString_spec|].
  split; [|apply map_to_uint8_byte_val].
  unfold btoa. now rewrite forallb_latin1.
Qed.

Lemma to_scalars_are_scalars (s : jsstring) :
  Forall (fun u => 0 <= u <= 0xFFFF) s ->
  Forall (fun c => is_scalar c = true) (to_scalars s).
Proof.
  remember (length s) as n eqn:En.
  assert (Hn : (length s <= n)%nat) by lia. clear En.
  revert s Hn. induction n as [|n IH]; intros [|u rest] Hn H;
    try constructor; cbn [length] in Hn; try lia.
  apply Forall_cons_iff in H as [Hu Hrest].
  assert (IHrest : Forall (fun c => is_scalar c = true) (to_scalars rest))
    by (apply IH; [lia|assumption]).
  cbn [to_scalars].
  destruct (is_high_surrogate u) eqn:Eh.
  - destruct rest as [|l rest']; [constructor; [reflexivity|constructor]|].
    apply Forall_cons_iff in Hrest as [Hlu Hrest'].
    destruct (is_low_surrogate l) eqn:El.
    + apply (surrogate_tests u) in Eh. apply (surrogate_tests l) in El.
      constructor; [apply is_scalar_spec; lia|].
      apply IH; [cbn [length] in Hn; lia|assumption].
    + constructor; [reflexivity|assumption].
  - destruct (is_low_surrogate u) eqn:El.
    + constructor; [reflexivity|assumption].
    + constructor; [|assumption].
      apply is_scalar_spec.
      assert (~ (0xD800 <= u <= 0xDBFF))
        by (intros X; apply (surrogate_tests u) in X; congruence).
      assert (~ (0xDC00 <= u <= 0xDFFF))
        by (intros X; apply (surrogate_tests u) in X; congruence).
      lia.
Qed.

Lemma base64DecodeUtf8_scalars (s : jsstring) :
  Forall (fun u => 0 <= u <= 0xFFFF) s ->
  base64DecodeUtf8 (payload64 s)
  = Returned (flat_map from_scalar (drop_bom (to_scalars s))).
Proof.
  intros H. unfold base64DecodeUtf8, payload64.
  rewrite atob_base64_encode by apply octets_of_bytes.
  cbn [JS.bind]. rewrite map_to_uint8_byte_val.
  unfold utf8_decode_fatal, TextEncoder_encode.
  rewrite utf8_items_scalars, all_decoded_some by now apply to_scalars_are_scalars.
  reflexivity.
Qed.

(** X5. [base64EncodeUtf8] never throws, and [base64DecodeUtf8] of its
    result is the string passed through the scalar-value conversion: each
    unpaired surrogate becomes U+FFFD and a leading U+FEFF is lost. A
    well-formed string without leading U+FEFF comes back unchanged. *)
Theorem base64_utf8_round_trip (s : jsstring) :
  Forall (fun u => 0 <= u <= 0xFFFF) s ->
  exists b64,
    base64EncodeUtf8 s = Returned b64
    /\ base64DecodeUtf8 b64
       = Returned (flat_map from_scalar (drop_bom (to_scalars s)))
    /\ (isWellFormed s = true -> no_leading_bom s = true ->
        base64DecodeUtf8 b64 = Returned s).
Proof.
  intros H. exists (payload64 s).
  split; [apply base64EncodeUtf8_spec|].
  split; [now apply base64DecodeUtf8_scalars|].
  apply base64DecodeUtf8_payload64.
Qed.

Lemma base64_utf8_round_trip_witness :
  exists b64,
    base64EncodeUtf8 [0x61; 0xD800] = Returned b64
    /\ base64DecodeUtf8 b64
       = Returned (flat_map from_scalar (drop_bom (to_scalars [0x61; 0xD800])))
    /\ (isWellFormed [0x61; 0xD800] = true -> no_leading_bom [0x61; 0xD800] = true ->
        base64DecodeUtf8 b64 = Returned [0x61; 0xD800]).
Proof.
  apply (@base64_utf8_round_trip [0x61; 0xD800]).
  repeat constructor; lia.
Defined.

Lemma first_occurrence (x : byte) (l : bytes) :
  In x l -> exists pre post, l = pre ++ x :: post /\ ~ In x pre.
Proof.
  induction l as [|b l IH]; intros H; [contradiction|].
  destruct (Byte.byte_eq_dec b x) as [->|Hne].
  - exists [], l. split; [reflexivity|intros []].
  - destruct H as [H|H]; [contradiction|].
    destruct (IH H) as (pre & post & -> & Hn).
    exists (b :: pre), post. split; [reflexivity|].
    intros [E|E]; [contradiction|now apply Hn].
Qed.

(** X6. [parseTextChunkKeyword] splits the payload at its first NUL
    byte. It returns [null] exactly when there is no NUL or the payload
    starts with one; otherwise the payload is the keyword bytes (not
    empty, free of NUL), the NUL, and the returned text bytes, which may
    hold further NUL bytes. *)
Theorem parseTextChunkKeyword_first_nul (data : bytes) :
  match parseTextChunkKeyword data with
  | None => ~ In x00 data \/ hd_error data = Some x00
  | Some parsed =>
      exists kb, kb <> [] /\ ~ In x00 kb
        /\ data = kb ++ [x00] ++ textBytes parsed
        /\ parsed_keyword parsed = utf8_decode kb
  end.
Proof.
  destruct (in_dec Byte.byte_eq_dec x00 data) as [Hin|Hn].
  - destruct (first_occurrence _ _ Hin) as (pre & post & -> & Hpre).
    destruct pre as [|b pre].
    + rewrite parse_malformed by (now right). now right.
    + change ((b :: pre) ++ x00 :: post) with ((b :: pre) ++ [x00] ++ post).
      rewrite parse_keyed by (assumption || discriminate).
      exists (b :: pre). cbn [textBytes parsed_keyword].
      repeat split; (assumption || discriminate || reflexivity).
  - rewrite parse_malformed by (now left). now left.
Qed.

Lemma slice_prefix_block (pre mid post : bytes) :
  slice (pre ++ mid ++ post) (len pre) (len pre + len mid) = mid.
Proof.
  unfold len. rewrite slice_clamped by (rewrite ?length_app; lia).
  rewrite skipn_app_exact by reflexivity.
  rewrite Nat2Z.id. now apply firstn_app_exact.
Qed.

(** X7. The layout of what [buildTextChunk] returns: the payload is
    keyword, NUL, text; the buffer is 12 bytes longer than the payload;
    its first four bytes hold the payload length modulo 2^32, the next
    four are "tEXt", then comes the payload, and the last four bytes
    hold the CRC-32 of type and payload. *)
Theorem buildTextChunk_layout (key base64Payload : jsstring) :
  let data := encodeAscii key ++ [x00] ++ encodeAscii base64Payload in
  let out := buildTextChunk key base64Payload in
  len out = len data + 12
  /\ JS.shru (readUint32BE out 0) 0 = len data mod 2 ^ 32
  /\ slice out 4 8 = String.list_byte_of_string "tEXt"
  /\ slice out 8 (8 + len data) = data
  /\ JS.shru (readUint32BE out (8 + len data)) 0
     = Crc32.crc32 (slice out 4 (8 + len data)).
Proof.
  cbv zeta. rewrite buildTextChunk_spec.
  unfold chunk_bytes, text_chunk, recrc, fresh_crc. cbn [ctype cdata ccrc].
  change (encodeAscii (lit "tEXt")) with (String.list_byte_of_string "tEXt").
  set (ty := String.list_byte_of_string "tEXt").
  remember (encodeAscii key ++ [x00] ++ encodeAscii base64Payload) as data eqn:Ed.
  clear Ed.
  remember (writeUint32BE (len data)) as lb eqn:El.
  remember (writeUint32BE (crc32 (ty ++ data))) as cb eqn:Ec.
  assert (Hlb : len lb = 4) by (subst lb; unfold len; now rewrite writeUint32BE_length).
  assert (Hcb : len cb = 4) by (subst cb; unfold len; now rewrite writeUint32BE_length).
  assert (Hty : len ty = 4) by reflexivity.
  split; [rewrite !len_app; lia|].
  split.
  { subst lb. rewrite writeUint32BE_ToUint32.
    apply readUint32BE_writeUint32BE. apply ToUint32_range. }
  split.
  { replace 4 with (len lb) at 1 by assumption.
    replace 8 with (len lb + len ty) by lia.
    apply slice_prefix_block. }
  split.
  { rewrite (app_assoc lb ty).
    replace 8 with (len (lb ++ ty)) by (rewrite len_app; lia).
    apply slice_prefix_block. }
  assert (E : slice (lb ++ ty ++ data ++ cb) 4 (8 + len data) = ty ++ data).
  { replace 4 with (len lb) by assumption.
    replace (8 + len data) with (len lb + len (ty ++ data)) by (rewrite len_app; lia).
    rewrite (app_assoc ty data cb). apply slice_prefix_block. }
  rewrite E.
  replace (lb ++ ty ++ data ++ cb) with ((lb ++ ty ++ data) ++ cb ++ [])
    by (rewrite app_nil_r, <- !app_assoc; reflexivity).
  replace (8 + len data) with (len (lb ++ ty ++ data)) by (rewrite !len_app; lia).
  rewrite readUint32BE_app. subst cb.
  apply readUint32BE_writeUint32BE. apply crc32_range.
Qed.

End HelperFacts.

(** ** Further facts about the two loops of [pngCard.ts] *)

Module StreamFacts.

Import JS Crc32 Host PngCard Walker Text Base64 Examples JSFacts Crc32Facts BufferFacts WalkerFacts PngCardFacts HostFacts RoundTripFacts HelperFacts.

(** The chunks of a serialised stream that ends in "IEND", whatever
    follows it. *)
Lemma chunks_with_tail (pre : list chunk) (l : chunk) (rest : bytes) :
  Forall well_sized (pre ++ [l]) ->
  forallb (fun c => negb (type_is c "IEND")) pre = true ->
  type_is l "IEND" = true ->
  let out := PNG_SIGNATURE ++ flat_map chunk_bytes (pre ++ [l]) ++ rest in
  chunks out = pre ++ [l] /\ stream_end out = AtIEND.
Proof.
  intros Hws Hni Hl out.
  assert (Hskip : skipn 8 out = flat_map chunk_bytes (pre ++ [l]) ++ rest)
    by reflexivity.
  assert (Hw : walk (length out) (skipn 8 out) = (pre ++ [l], AtIEND)).
  { rewrite Hskip, flat_map_app, <- app_assoc.
    apply Forall_app in Hws as [Hp Hl'].
    rewrite walk_serialised;
      [|assumption|assumption|
       unfold out; rewrite flat_map_app, !length_app; lia].
    inversion Hl'; subst. cbn [flat_map]. rewrite app_nil_r.
    pose proof (chunk_bytes_length H1) as H12.
    destruct (length (chunk_bytes l ++ rest)) as [|n] eqn:En;
      [rewrite length_app in En; lia|].
    rewrite walk_chunk_bytes by assumption.
    rewrite Hl. reflexivity. }
  unfold chunks, stream_end. rewrite Hw. split; reflexivity.
Qed.

Lemma valid_png_shape (p : bytes) :
  valid_png p = true ->
  exists pre l tail,
    p = PNG_SIGNATURE ++ flat_map chunk_bytes (pre ++ [l]) ++ tail
    /\ chunks p = pre ++ [l]
    /\ Forall well_sized (pre ++ [l])
    /\ forallb (fun c => negb (type_is c "IEND")) pre = true
    /\ type_is l "IEND" = true.
Proof.
  intros Hv. apply valid_png_spec in Hv as [Hs He].
  destruct (chunks_shape p) as [Hall [[_ (pre & l & Hcs & Hl & Hpre)]|[Hne _]]];
    [|congruence].
  destruct (chunks_in_buffer p Hs) as [tail Ht].
  exists pre, l, tail. rewrite <- Hcs. repeat split; assumption.
Qed.

(** X8. Both loops stop at the "IEND" chunk: bytes appended to a valid
    PNG buffer change neither what [extractCardFromPng] returns nor what
    [embedCardIntoPng] returns. A card chunk placed after "IEND" is not
    found, and the rewrite leaves trailing bytes out of its output. *)
Theorem bytes_after_iend_are_ignored
    (p tail : bytes) (s : jsstring) (opts : option EmbedOptions) :
  valid_png p = true ->
  extractCardFromPng (p ++ tail) = extractCardFromPng p
  /\ embedCardIntoPng (p ++ tail) s opts = embedCardIntoPng p s opts.
Proof.
  intros Hv.
  destruct (valid_png_shape p Hv) as (pre & l & tail0 & Hp & Hcs & Hws & Hni & Hl).
  apply valid_png_spec in Hv as [Hs He].
  assert (Hp' : p ++ tail
    = PNG_SIGNATURE ++ flat_map chunk_bytes (pre ++ [l]) ++ (tail0 ++ tail)).
  { rewrite Hp at 1. now rewrite <- !app_assoc. }
  destruct (chunks_with_tail pre l (tail0 ++ tail) Hws Hni Hl) as [E1 E2].
  cbv zeta in E1, E2. rewrite <- Hp' in E1, E2.
  assert (Hs' : has_signature (p ++ tail) = true)
    by (rewrite Hp'; apply has_signature_prefixed).
  split.
  - rewrite !extract_spec, Hs, Hs', E1, Hcs. reflexivity.
  - rewrite !embed_spec, Hs, Hs', E1, E2, He, Hcs. reflexivity.
Qed.

Lemma bytes_after_iend_are_ignored_witness :
  extractCardFromPng (png [ihdr; iend] ++ PngCard.buildTextChunk (lit "chara") (lit "e30="))
  = extractCardFromPng (png [ihdr; iend])
  /\ embedCardIntoPng (png [ihdr; iend] ++ PngCard.buildTextChunk (lit "chara") (lit "e30="))
       (lit "{}") None
     = embedCardIntoPng (png [ihdr; iend]) (lit "{}") None.
Proof.
  apply (@bytes_after_iend_are_ignored (png [ihdr; iend])
           (PngCard.buildTextChunk (lit "chara") (lit "e30=")) (lit "{}") None).
  reflexivity.
Defined.

(** Two chunks with the same type tag and payload. *)
Lemma same_fields_tests (c c' : chunk) :
  ctype c' = ctype c -> cdata c' = cdata c ->
  (forall tag, type_is c' tag = type_is c tag)
  /\ is_carrier c' = is_carrier c
  /\ decode_carrier c' = decode_carrier c.
Proof.
  intros Ht Hd. unfold is_carrier, decode_carrier, type_is.
  rewrite Ht, Hd. repeat split; reflexivity.
Qed.

Lemma walk_same_fields (cs cs' : list chunk) :
  Forall2 (fun c c' => ctype c' = ctype c /\ cdata c' = cdata c) cs cs' ->
  Forall well_sized cs -> Forall well_sized cs' ->
  forall (fuel : nat) (tail : bytes),
  Forall2 (fun c c' => ctype c' = ctype c /\ cdata c' = cdata c)
          (fst (walk fuel (flat_map chunk_bytes cs ++ tail)))
          (fst (walk fuel (flat_map chunk_bytes cs' ++ tail))).
Proof.
  induction 1 as [|c c' cs cs' [Ht Hd] Hrest IH]; intros Hw Hw' fuel tail.
  - cbn [flat_map app].
    generalize (fst (walk fuel tail)). intros l.
    induction l; constructor; auto.
  - apply Forall_cons_iff in Hw as [Hc Hw].
    apply Forall_cons_iff in Hw' as [Hc' Hw'].
    destruct fuel as [|fuel]; [constructor|].
    cbn [flat_map]. rewrite <- !app_assoc.
    rewrite !walk_chunk_bytes by assumption.
    destruct (same_fields_tests c c' Ht Hd) as (Hty & _ & _).
    rewrite Hty.
    destruct (type_is c "IEND").
    + cbn [fst]. constructor; [split; assumption|constructor].
    + specialize (IH Hw Hw' fuel tail).
      destruct (walk fuel (flat_map chunk_bytes cs ++ tail)) as [r e].
      destruct (walk fuel (flat_map chunk_bytes cs' ++ tail)) as [r' e'].
      cbn [fst] in *. constructor; [split; assumption|assumption].
Qed.

Lemma same_fields_length (cs cs' : list chunk) :
  Forall2 (fun c c' => ctype c' = ctype c /\ cdata c' = cdata c) cs cs' ->
  Forall well_sized cs -> Forall well_sized cs' ->
  length (flat_map chunk_bytes cs) = length (flat_map chunk_bytes cs').
Proof.
  induction 1 as [|c c' cs cs' [Ht Hd] Hrest IH]; intros Hw Hw'; [reflexivity|].
  apply Forall_cons_iff in Hw as [(_ & Hc & _) Hw].
  apply Forall_cons_iff in Hw' as [(_ & Hc' & _) Hw'].
  cbn [flat_map]. rewrite !length_app, (IH Hw Hw'). f_equal.
  unfold chunk_bytes. rewrite !length_app, !writeUint32BE_length, Ht, Hd. lia.
Qed.

Lemma find_same_fields (cs cs' : list chunk) :
  Forall2 (fun c c' => ctype c' = ctype c /\ cdata c' = cdata c) cs cs' ->
  match find is_carrier cs' with
  | Some c => decode_carrier c
  | None => Returned None
  end
  = match find is_carrier cs with
    | Some c => decode_carrier c
    | None => Returned None
    end.
Proof.
  induction 1 as [|c c' cs cs' [Ht Hd] Hrest IH]; [reflexivity|].
  cbn [find]. destruct (same_fields_tests c c' Ht Hd) as (_ & Hc & Hdec).
  rewrite Hc. destruct (is_carrier c); [exact Hdec|exact IH].
Qed.

(** X9. [extractCardFromPng] never reads a CRC field: two buffers whose
    chunks have the same type tags and payloads, whatever their CRC
    fields hold, give the same result. *)
Theorem extract_never_reads_the_crc
    (cs cs' : list chunk) (tail : bytes) :
  Forall2 (fun c c' => ctype c' = ctype c /\ cdata c' = cdata c) cs cs' ->
  Forall well_sized cs -> Forall well_sized cs' ->
  extractCardFromPng (PNG_SIGNATURE ++ flat_map chunk_bytes cs' ++ tail)
  = extractCardFromPng (PNG_SIGNATURE ++ flat_map chunk_bytes cs ++ tail).
Proof.
  intros Hsame Hw Hw'.
  rewrite !extract_spec, !has_signature_prefixed.
  unfold chunks.
  change (skipn 8 (PNG_SIGNATURE ++ flat_map chunk_bytes cs' ++ tail))
    with (flat_map chunk_bytes cs' ++ tail).
  change (skipn 8 (PNG_SIGNATURE ++ flat_map chunk_bytes cs ++ tail))
    with (flat_map chunk_bytes cs ++ tail).
  assert (El : length (PNG_SIGNATURE ++ flat_map chunk_bytes cs' ++ tail)
               = length (PNG_SIGNATURE ++ flat_map chunk_bytes cs ++ tail)).
  { rewrite !length_app. now rewrite (same_fields_length Hsame). }
  rewrite El.
  apply find_same_fields. now apply walk_same_fields.
Qed.

Lemma extract_never_reads_the_crc_witness :
  extractCardFromPng (PNG_SIGNATURE ++ flat_map chunk_bytes
      [ihdr; text (ascii "chara" ++ [x00] ++ ascii "e30="); iend_zero_crc] ++ [])
  = extractCardFromPng (PNG_SIGNATURE ++ flat_map chunk_bytes
      [recrc ihdr; text_chunk (lit "chara") (lit "e30="); iend] ++ []).
Proof.
  apply (@extract_never_reads_the_crc
           [recrc ihdr; text_chunk (lit "chara") (lit "e30="); iend]
           [ihdr; text (ascii "chara" ++ [x00] ++ ascii "e30="); iend_zero_crc] []).
  - repeat constructor.
  - repeat (apply Forall_cons; [vm_compute; intuition discriminate|]). constructor.
  - repeat (apply Forall_cons; [vm_compute; intuition discriminate|]). constructor.
Defined.

Lemma decode_carrier_result (c : chunk) :
  is_carrier c = true ->
  exists parsed,
    parseTextChunkKeyword (cdata c) = Some parsed
    /\ is_card_keyword (parsed_keyword parsed) = true
    /\ decode_carrier c =
       (text <- base64DecodeUtf8 (ascii_decode (textBytes parsed)) ;;
        Returned (Some {| keyword := parsed_keyword parsed; jsonText := text |})).
Proof.
  unfold is_carrier, decode_carrier. intros H.
  apply andb_prop in H as [_ H].
  destruct (parseTextChunkKeyword (cdata c)) as [parsed|]; [|discriminate].
  exists parsed. repeat split. exact H.
Qed.

Lemma is_card_keyword_spec (k : jsstring) :
  is_card_keyword k = true <-> k = lit "chara" \/ k = lit "ccv3".
Proof.
  unfold is_card_keyword. rewrite orb_true_iff, !jsstring_eqb_eq. reflexivity.
Qed.

(** X10. When [extractCardFromPng] returns a card, its keyword is
    "chara" or "ccv3", and the card comes from a tEXt chunk of the
    buffer: the keyword is the one parsed from the chunk's payload and
    the text is the base64 decoding of the bytes after the NUL. *)
Theorem extract_result_is_null_or_a_card
    (p : bytes) (card : ExtractedPngCard) :
  extractCardFromPng p = Returned (Some card) ->
  (keyword card = lit "chara" \/ keyword card = lit "ccv3")
  /\ exists c parsed,
       In c (chunks p) /\ type_is c "tEXt" = true
       /\ parseTextChunkKeyword (cdata c) = Some parsed
       /\ keyword card = parsed_keyword parsed
       /\ base64DecodeUtf8 (ascii_decode (textBytes parsed))
          = Returned (jsonText card).
Proof.
  rewrite extract_spec. intros H.
  destruct (has_signature p); [|discriminate].
  destruct (find is_carrier (chunks p)) as [c|] eqn:Ef; [|discriminate].
  apply find_some in Ef as [Hin Hc].
  destruct (decode_carrier_result c Hc) as (parsed & Hp & Hk & Hd).
  rewrite Hd in H.
  destruct (base64DecodeUtf8 (ascii_decode (textBytes parsed))) as [t| |] eqn:Eb;
    try discriminate.
  cbn [JS.bind] in H. inversion H; subst card. cbn [keyword jsonText].
  split; [now apply is_card_keyword_spec|].
  exists c, parsed. unfold is_carrier in Hc. apply andb_prop in Hc as [Hty _].
  repeat split; assumption.
Qed.

Lemma extract_result_is_null_or_a_card_witness :
  (lit "ccv3" = lit "chara" \/ lit "ccv3" = lit "ccv3")
  /\ exists c parsed,
       In c (chunks (png [ihdr; ccv3_brackets; iend])) /\ type_is c "tEXt" = true
       /\ parseTextChunkKeyword (cdata c) = Some parsed
       /\ lit "ccv3" = parsed_keyword parsed
       /\ base64DecodeUtf8 (ascii_decode (textBytes parsed)) = Returned (lit "[]").
Proof.
  apply (@extract_result_is_null_or_a_card (png [ihdr; ccv3_brackets; iend])
           {| keyword := lit "ccv3"; jsonText := lit "[]" |}).
  vm_compute. reflexivity.
Defined.

Lemma extract_thrown (p : bytes) (e : error) :
  extractCardFromPng p = Thrown e ->
  (e = InvalidCharacter \/ e = DecodeTypeError)
  /\ exists c, In c (chunks p) /\ is_carrier c = true.
Proof.
  rewrite extract_spec.
  destruct (has_signature p); [|discriminate].
  destruct (find is_carrier (chunks p)) as [c|] eqn:Ef; [|discriminate].
  apply find_some in Ef as [Hin Hc]. intros H.
  split; [|exists c; split; assumption].
  destruct (decode_carrier_result c Hc) as (parsed & Hp & Hk & Hd).
  rewrite Hd in H.
  destruct (base64DecodeUtf8 (ascii_decode (textBytes parsed))) as [t| |] eqn:Eb;
    try discriminate.
  cbn [JS.bind] in H. inversion H; subst.
  now apply base64DecodeUtf8_errors in Eb.
Qed.

(** X11. [extractCardFromPng] always returns or throws, and the only
    errors it throws are those of [atob] and of the fatal UTF-8 decoder,
    raised on a card chunk of the buffer. It never reports a bad
    signature or a damaged chunk. *)
Theorem extract_throws_only_decoding_errors (p : bytes) :
  extractCardFromPng p <> Diverged
  /\ forall e, extractCardFromPng p = Thrown e ->
       (e = InvalidCharacter \/ e = DecodeTypeError)
       /\ exists c, In c (chunks p) /\ is_carrier c = true.
Proof.
  split; [apply extractCardFromPng_terminates|apply extract_thrown].
Qed.

(** X12. What [embedCardIntoPng] throws depends on the buffer alone,
    never on the card text or the options: "not a PNG" exactly when the
    first eight bytes are not the signature, "chunk damaged" exactly when
    the signature is there and a chunk's declared length overruns the
    buffer before any "IEND". It throws nothing else and always ends. *)
Theorem embed_throws_only_on_the_buffer
    (p : bytes) (s : jsstring) (opts : option EmbedOptions) :
  (embedCardIntoPng p s opts = Thrown NotAPng <-> firstn 8 p <> PNG_SIGNATURE)
  /\ (embedCardIntoPng p s opts = Thrown ChunkDamaged
      <-> firstn 8 p = PNG_SIGNATURE /\ stream_end p = Overrun)
  /\ (forall e, embedCardIntoPng p s opts = Thrown e ->
        e = NotAPng \/ e = ChunkDamaged)
  /\ embedCardIntoPng p s opts <> Diverged.
Proof.
  pose proof (has_signature_true p) as Hs.
  rewrite embed_spec.
  destruct (has_signature p) eqn:E.
  - assert (Hsig : firstn 8 p = PNG_SIGNATURE) by now apply Hs.
    destruct (stream_end p) eqn:Ee; repeat split;
      try discriminate; try congruence; try tauto;
      try (intros [_ X]; discriminate);
      intros e X; inversion X; auto.
  - assert (Hsig : firstn 8 p <> PNG_SIGNATURE)
      by (intros X; apply Hs in X; discriminate).
    repeat split; try discriminate; try tauto; try congruence;
      intros e X; inversion X; auto.
Qed.

(** X13. On a buffer with the signature and a chunk that overruns the
    buffer, [embedCardIntoPng] throws "chunk damaged" while
    [extractCardFromPng] does not: it answers from the chunks read before
    the truncated one. *)
Theorem truncated_chunk_extract_tolerates_embed_throws
    (p : bytes) (s : jsstring) (opts : option EmbedOptions) :
  firstn 8 p = PNG_SIGNATURE -> stream_end p = Overrun ->
  embedCardIntoPng p s opts = Thrown ChunkDamaged
  /\ extractCardFromPng p =
     match find is_carrier (chunks p) with
     | Some c => decode_carrier c
     | None => Returned None
     end
  /\ extractCardFromPng p <> Thrown ChunkDamaged.
Proof.
  intros Hs He. apply has_signature_true in Hs.
  split; [now rewrite embed_spec, Hs, He|].
  split; [now rewrite extract_spec, Hs|].
  intros H. destruct (extract_thrown _ H) as [[X|X] _]; discriminate.
Qed.

Lemma truncated_chunk_witness :
  embedCardIntoPng
    (png [chara_braces] ++ [x00; x00; x00; x64] ++ ascii "IDAT" ++ [x00; x00; x00; x00])
    (lit "{}") None = Thrown ChunkDamaged
  /\ extractCardFromPng
       (png [chara_braces] ++ [x00; x00; x00; x64] ++ ascii "IDAT" ++ [x00; x00; x00; x00])
     = match find is_carrier (chunks
         (png [chara_braces] ++ [x00; x00; x00; x64] ++ ascii "IDAT" ++ [x00; x00; x00; x00])) with
       | Some c => decode_carrier c
       | None => Returned None
       end
  /\ extractCardFromPng
       (png [chara_braces] ++ [x00; x00; x00; x64] ++ ascii "IDAT" ++ [x00; x00; x00; x00])
     <> Thrown ChunkDamaged.
Proof.
  apply (@truncated_chunk_extract_tolerates_embed_throws
    (png [chara_braces] ++ [x00; x00; x00; x64] ++ ascii "IDAT" ++ [x00; x00; x00; x00])
    (lit "{}") None); vm_compute; reflexivity.
Defined.

(** X14. Where the rewrite puts the card: for a valid PNG buffer and a
    text that fits the length field, the output's chunks are the input's
    non-card chunks in their order with recomputed CRC, then the "chara"
    chunk (when requested), then the "ccv3" chunk (when requested), then
    the "IEND" chunk; the output is again a valid PNG buffer. *)
Theorem embed_inserts_before_iend
    (p : bytes) (s : jsstring) (opts : option EmbedOptions) :
  valid_png p = true ->
  fits_length_field (payload64 s) ->
  exists pre l out,
    chunks p = pre ++ [l] /\ type_is l "IEND" = true
    /\ embedCardIntoPng p s opts = Returned out
    /\ chunks out =
       map recrc (filter (fun c => negb (is_carrier c)) pre)
       ++ (if option_flag opts writeChara
           then [text_chunk (lit "chara") (payload64 s)] else [])
       ++ (if option_flag opts writeCcv3
           then [text_chunk (lit "ccv3") (payload64 s)] else [])
       ++ [recrc l]
    /\ valid_png out = true.
Proof.
  intros Hv Hfit.
  destruct (embed_valid p s opts Hv) as (pre & l & Hcs & Hl & Hout).
  destruct (valid_png_shape p Hv) as (pre' & l' & tail & _ & Hcs' & Hws & Hni & _).
  rewrite Hcs in Hcs'. apply app_inj_tail in Hcs' as [<- <-].
  apply Forall_app in Hws as [Hwp Hwl]. inversion Hwl; subst.
  destruct (insertion_set_facts opts (payload64 s)) as (Hins & _ & _ & Hsz).
  cbv zeta in Hins. specialize (Hsz Hfit).
  exists pre, l. eexists. split; [assumption|]. split; [assumption|].
  split; [exact Hout|].
  rewrite (app_assoc (if option_flag opts writeChara then _ else _)).
  change ((if option_flag opts writeChara
           then [text_chunk (lit "chara") (payload64 s)] else [])
          ++ (if option_flag opts writeCcv3
              then [text_chunk (lit "ccv3") (payload64 s)] else []))
    with (insertion_set opts (payload64 s)).
  rewrite !app_assoc.
  destruct (@chunks_of_serialised
              (map recrc (filter (fun c => negb (is_carrier c)) pre)
               ++ insertion_set opts (payload64 s))
              [recrc l]) as [E1 E2].
  - apply Forall_app; split; [apply Forall_app; split|].
    + apply Forall_map_recrc; [apply well_sized_recrc|]. now apply Forall_filter.
    + assumption.
    + constructor; [now apply well_sized_recrc|constructor].
  - rewrite forallb_app, Hins, forallb_map_recrc_not_iend by assumption.
    reflexivity.
  - right. exists (recrc l). split; [reflexivity|]. now rewrite type_is_recrc.
  - cbv zeta in E1, E2. split; [exact E1|].
    apply valid_png_spec. split; [apply has_signature_prefixed|exact E2].
Qed.

Lemma embed_inserts_before_iend_witness :
  exists pre l out,
    chunks (png [ihdr; ccv3_brackets; iend]) = pre ++ [l]
    /\ type_is l "IEND" = true
    /\ embedCardIntoPng (png [ihdr; ccv3_brackets; iend]) (lit "{}") None
       = Returned out
    /\ chunks out =
       map recrc (filter (fun c => negb (is_carrier c)) pre)
       ++ (if option_flag None writeChara
           then [text_chunk (lit "chara") (payload64 (lit "{}"))] else [])
       ++ (if option_flag None writeCcv3
           then [text_chunk (lit "ccv3") (payload64 (lit "{}"))] else [])
       ++ [recrc l]
    /\ valid_png out = true.
Proof.
  apply (@embed_inserts_before_iend (png [ihdr; ccv3_brackets; iend]) (lit "{}") None);
    [reflexivity|vm_compute; reflexivity].
Defined.

Lemma base64_encode_size (data : list Z) :
  Z.of_nat (length (base64_encode data)) = 4 * ((Z.of_nat (length data) + 2) / 3).
Proof.
  induction data as [| | |a b c l IH] using list_ind3; try reflexivity.
  cbn [base64_encode]. rewrite length_app. cbn [length].
  replace (Z.of_nat (S (S (S (length l)))) + 2)
    with (Z.of_nat (length l) + 2 + 1 * 3) by lia.
  rewrite Z.div_add by lia. lia.
Qed.

Lemma payload64_size (s : jsstring) :
  len (encodeAscii (payload64 s)) = 4 * ((len (TextEncoder_encode s) + 2) / 3).
Proof.
  unfold encodeAscii, payload64.
  destruct (@ascii_text_bytes (base64_encode (map byte_val (TextEncoder_encode s))))
    as [E _].
  { apply base64_encode_ascii, octets_of_bytes. }
  rewrite E. unfold len. rewrite length_map, base64_encode_size, length_map.
  reflexivity.
Qed.

Lemma chunk_bytes_size (c : chunk) :
  length (ccrc c) = 4%nat -> length (ctype c) = 4%nat ->
  len (chunk_bytes c) = 12 + len (cdata c).
Proof.
  intros H1 H2. unfold chunk_bytes, len.
  rewrite !length_app, writeUint32BE_length. lia.
Qed.

Lemma text_chunk_size (key b64 : jsstring) :
  len (chunk_bytes (text_chunk key b64))
  = 13 + len (encodeAscii key) + len (encodeAscii b64).
Proof.
  rewrite chunk_bytes_size; [|reflexivity|reflexivity].
  unfold text_chunk, recrc. cbn [cdata]. rewrite !len_app.
  change (len [x00]) with 1. lia.
Qed.

Lemma recrc_stream_size (cs : list chunk) :
  Forall well_sized cs ->
  len (flat_map chunk_bytes (map recrc cs)) = len (flat_map chunk_bytes cs).
Proof.
  induction 1 as [|c cs (Ht & Hc & _) _ IH]; [reflexivity|].
  cbn [map flat_map]. rewrite !len_app, IH. f_equal.
  rewrite !chunk_bytes_size; auto.
Qed.

Lemma partition_stream_size (f : chunk -> bool) (cs : list chunk) :
  len (flat_map chunk_bytes cs)
  = len (flat_map chunk_bytes (filter (fun c => negb (f c)) cs))
    + len (flat_map chunk_bytes (filter f cs)).
Proof.
  induction cs as [|c cs IH]; [reflexivity|].
  cbn [flat_map filter]. destruct (f c); cbn [negb flat_map];
    rewrite !len_app, IH; lia.
Qed.

Lemma Returned_inj (A : Type) (a b : A) : Returned a = Returned b -> a = b.
Proof. intros H. now injection H. Qed.

(** X15. The size of the output for a valid PNG buffer: the input's
    size, minus the bytes after "IEND", minus the card chunks it held,
    plus 18 bytes and the base64 text for "chara" and 17 bytes and the
    base64 text for "ccv3"; the base64 text takes four characters for
    every three bytes of UTF-8, rounded up. *)
Theorem embed_output_length
    (p : bytes) (s : jsstring) (opts : option EmbedOptions) (out : bytes) :
  valid_png p = true ->
  embedCardIntoPng p s opts = Returned out ->
  let text64 := 4 * ((len (TextEncoder_encode s) + 2) / 3) in
  exists tail,
    p = PNG_SIGNATURE ++ flat_map chunk_bytes (chunks p) ++ tail
    /\ len out
       = len p - len tail
         - len (flat_map chunk_bytes (filter is_carrier (chunks p)))
         + (if option_flag opts writeChara then 18 + text64 else 0)
         + (if option_flag opts writeCcv3 then 17 + text64 else 0).
Proof.
  intros Hv Hout text64.
  destruct (valid_png_shape p Hv) as (pre & l & tail & Hp & Hcs & Hws & Hni & Hl).
  exists tail. rewrite Hcs. split; [exact Hp|].
  destruct (embed_valid p s opts Hv) as (pre' & l' & Hcs' & _ & Hout').
  rewrite Hcs in Hcs'. apply app_inj_tail in Hcs' as [<- <-].
  rewrite Hout in Hout'. apply Returned_inj in Hout'.
  apply Forall_app in Hws as [Hwp Hwl]. apply Forall_cons_iff in Hwl as [Hwl' _].
  rewrite Hout'. rewrite Hp at 1.
  rewrite !len_app, !flat_map_app, !len_app.
  rewrite recrc_stream_size by now apply Forall_filter.
  rewrite (partition_stream_size is_carrier pre).
  rewrite filter_app. cbn [filter]. rewrite (iend_not_carrier l Hl).
  rewrite app_nil_r.
  cbn [flat_map]. rewrite !app_nil_r.
  destruct Hwl' as (Ht & Hc & _).
  rewrite !chunk_bytes_size by (assumption || reflexivity).
  cbn [recrc cdata].
  assert (Hins : len (flat_map chunk_bytes (insertion_set opts (payload64 s)))
    = (if option_flag opts writeChara then 18 + text64 else 0)
      + (if option_flag opts writeCcv3 then 17 + text64 else 0)).
  { unfold insertion_set.
    destruct (option_flag opts writeChara), (option_flag opts writeCcv3);
      cbn [app flat_map]; rewrite ?len_app, ?text_chunk_size, ?payload64_size;
      fold text64;
      change (len (encodeAscii (lit "chara"))) with 5;
      change (len (encodeAscii (lit "ccv3"))) with 4;
      change (len []) with 0; lia. }
  rewrite Hins. lia.
Qed.

Lemma embed_output_length_witness :
  exists out,
    embedCardIntoPng (png [ihdr; chara_braces; iend]) (lit "{}") None = Returned out
    /\ exists tail,
         png [ihdr; chara_braces; iend]
         = PNG_SIGNATURE
           ++ flat_map chunk_bytes (chunks (png [ihdr; chara_braces; iend])) ++ tail
         /\ len out
            = len (png [ihdr; chara_braces; iend]) - len tail
              - len (flat_map chunk_bytes
                       (filter is_carrier (chunks (png [ihdr; chara_braces; iend]))))
              + (if option_flag None writeChara
                 then 18 + 4 * ((len (TextEncoder_encode (lit "{}")) + 2) / 3) else 0)
              + (if option_flag None writeCcv3
                 then 17 + 4 * ((len (TextEncoder_encode (lit "{}")) + 2) / 3) else 0).
Proof.
  eexists. split; [vm_compute; reflexivity|].
  apply (@embed_output_length (png [ihdr; chara_braces; iend]) (lit "{}") None);
    [reflexivity|vm_compute; reflexivity].
Defined.

(** The chunk stream the rewrite leaves when nothing is inserted. *)
Lemma stripped_stream (p : bytes) :
  let out := PNG_SIGNATURE
             ++ flat_map chunk_bytes (rewrite_chunks [] (chunks p)) in
  chunks out = rewrite_chunks [] (chunks p)
  /\ stream_end out <> Overrun
  /\ forallb (fun c => negb (is_carrier c)) (chunks out) = true
  /\ rewrite_chunks [] (chunks out) = chunks out.
Proof.
  cbv zeta.
  destruct (chunks_shape p) as [Hall [[He (pre & l & Hcs & Hl & Hpre)]|[He Hpre]]].
  - rewrite Hcs, rewrite_chunks_iend by assumption.
    rewrite Hcs in Hall. apply Forall_app in Hall as [Hallp Halll].
    apply Forall_cons_iff in Halll as [Hwl _].
    cbn [app].
    destruct (@chunks_of_serialised
                (map recrc (filter (fun c => negb (is_carrier c)) pre))
                [recrc l]) as [E1 E2].
    + apply Forall_app; split.
      * apply Forall_map_recrc; [apply well_sized_recrc|]. now apply Forall_filter.
      * constructor; [now apply well_sized_recrc|constructor].
    + now apply forallb_map_recrc_not_iend.
    + right. exists (recrc l). split; [reflexivity|]. now rewrite type_is_recrc.
    + cbv zeta in E1, E2. rewrite E1, E2.
      split; [reflexivity|]. split; [discriminate|]. split.
      * rewrite forallb_app, kept_are_not_carriers. cbn [forallb].
        now rewrite is_carrier_recrc, (iend_not_carrier l Hl).
      * rewrite rewrite_chunks_iend;
          [|now apply forallb_map_recrc_not_iend|now rewrite type_is_recrc].
        now rewrite filter_kept, map_recrc_idempotent, recrc_idempotent.
  - rewrite rewrite_chunks_non_iend by assumption.
    destruct (@chunks_of_serialised
                (map recrc (filter (fun c => negb (is_carrier c)) (chunks p)))
                []) as [E1 E2].
    + rewrite app_nil_r. apply Forall_map_recrc; [apply well_sized_recrc|].
      now apply Forall_filter.
    + now apply forallb_map_recrc_not_iend.
    + now left.
    + cbv zeta in E1, E2. rewrite app_nil_r in E1, E2. rewrite E1, E2.
      split; [reflexivity|]. split; [discriminate|]. split.
      * apply kept_are_not_carriers.
      * rewrite rewrite_chunks_non_iend by now apply forallb_map_recrc_not_iend.
        now rewrite filter_kept, map_recrc_idempotent.
Qed.

Lemma find_none_forallb (A : Type) (f : A -> bool) (l : list A) :
  forallb (fun x => negb (f x)) l = true -> find f l = None.
Proof.
  induction l as [|a l IH]; [reflexivity|]. cbn [forallb find].
  intros H. apply andb_prop in H as [Ha Hl].
  apply negb_true_iff in Ha. rewrite Ha. now apply IH.
Qed.

(** X16. With both [writeChara] and [writeCcv3] set to [false] the
    rewrite removes the card: [extractCardFromPng] finds nothing in the
    output, and rewriting the output again returns it unchanged. *)
Theorem embed_without_flags_removes_the_card
    (p : bytes) (s : jsstring) (out : bytes) :
  let neither := Some {| writeCcv3 := Some false; writeChara := Some false |} in
  embedCardIntoPng p s neither = Returned out ->
  extractCardFromPng out = Returned None
  /\ embedCardIntoPng out s neither = Returned out.
Proof.
  intros neither H. rewrite embed_spec in H.
  change (insertion_set neither (payload64 s)) with (@nil chunk) in H.
  destruct (has_signature p); [|discriminate].
  assert (Eout : out = PNG_SIGNATURE
                       ++ flat_map chunk_bytes (rewrite_chunks [] (chunks p))).
  { destruct (stream_end p); try discriminate; now apply Returned_inj in H. }
  destruct (stripped_stream p) as (E1 & E2 & E3 & E4).
  cbv zeta in E1, E2, E3, E4. rewrite <- Eout in E1, E2, E3, E4.
  assert (Hs : has_signature out = true)
    by (rewrite Eout; apply has_signature_prefixed).
  split.
  - rewrite extract_spec, Hs. now rewrite find_none_forallb.
  - rewrite embed_spec, Hs.
    change (insertion_set neither (payload64 s)) with (@nil chunk).
    rewrite E4, E1, <- Eout.
    destruct (stream_end out); [reflexivity|reflexivity|now elim E2].
Qed.

Lemma embed_without_flags_witness :
  exists out,
    embedCardIntoPng (png [ihdr; chara_braces; ccv3_brackets; iend]) (lit "{}")
      (Some {| writeCcv3 := Some false; writeChara := Some false |}) = Returned out
    /\ extractCardFromPng out = Returned None
    /\ embedCardIntoPng out (lit "{}")
         (Some {| writeCcv3 := Some false; writeChara := Some false |}) = Returned out.
Proof.
  eexists. split; [vm_compute; reflexivity|].
  apply (@embed_without_flags_removes_the_card
           (png [ihdr; chara_braces; ccv3_brackets; iend]) (lit "{}")).
  vm_compute. reflexivity.
Defined.

(** X19. On a buffer that has the signature but whose chunk stream runs
    out before any "IEND", [embedCardIntoPng] returns normally, yet its
    output holds no card at all: the card chunks of the input are
    dropped, nothing is inserted, and [extractCardFromPng] finds nothing
    in it. *)
Theorem embed_without_iend_drops_the_card
    (p : bytes) (s : jsstring) (opts : option EmbedOptions) :
  firstn 8 p = PNG_SIGNATURE -> stream_end p = TooShort ->
  exists out,
    embedCardIntoPng p s opts = Returned out
    /\ chunks out = map recrc (filter (fun c => negb (is_carrier c)) (chunks p))
    /\ extractCardFromPng out = Returned None.
Proof.
  intros Hs He. apply has_signature_true in Hs.
  destruct (chunks_shape p) as [_ [[He' _]|[_ Hni]]]; [congruence|].
  exists (PNG_SIGNATURE ++ flat_map chunk_bytes (rewrite_chunks [] (chunks p))).
  destruct (stripped_stream p) as (E1 & _ & E3 & _). cbv zeta in E1, E3.
  split; [|split].
  - rewrite embed_spec, Hs, He.
    now rewrite !(rewrite_chunks_non_iend _ _ Hni).
  - now rewrite E1, rewrite_chunks_non_iend.
  - rewrite extract_spec, has_signature_prefixed. now rewrite find_none_forallb.
Qed.

Lemma embed_without_iend_drops_the_card_witness :
  exists out,
    embedCardIntoPng (png [ihdr; chara_braces]) (lit "[]") None = Returned out
    /\ chunks out
       = map recrc (filter (fun c => negb (is_carrier c))
                           (chunks (png [ihdr; chara_braces])))
    /\ extractCardFromPng out = Returned None.
Proof.
  apply (@embed_without_iend_drops_the_card (png [ihdr; chara_braces]) (lit "[]") None);
    reflexivity.
Defined.

Lemma walk_same_end (cs cs' : list chunk) :
  Forall2 (fun c c' => ctype c' = ctype c /\ cdata c' = cdata c) cs cs' ->
  Forall well_sized cs -> Forall well_sized cs' ->
  forall (fuel : nat) (tail : bytes),
  snd (walk fuel (flat_map chunk_bytes cs' ++ tail))
  = snd (walk fuel (flat_map chunk_bytes cs ++ tail)).
Proof.
  induction 1 as [|c c' cs cs' [Ht Hd] Hrest IH]; intros Hw Hw' fuel tail;
    [reflexivity|].
  apply Forall_cons_iff in Hw as [Hc Hw].
  apply Forall_cons_iff in Hw' as [Hc' Hw'].
  destruct fuel as [|fuel]; [reflexivity|].
  cbn [flat_map]. rewrite <- !app_assoc.
  rewrite !walk_chunk_bytes by assumption.
  destruct (same_fields_tests c c' Ht Hd) as (Hty & _ & _).
  rewrite Hty.
  destruct (type_is c "IEND"); [reflexivity|].
  specialize (IH Hw Hw' fuel tail).
  destruct (walk fuel (flat_map chunk_bytes cs ++ tail)) as [r e].
  destruct (walk fuel (flat_map chunk_bytes cs' ++ tail)) as [r' e'].
  exact IH.
Qed.

Lemma rewrite_same_fields (ins cs cs' : list chunk) :
  Forall2 (fun c c' => ctype c' = ctype c /\ cdata c' = cdata c) cs cs' ->
  rewrite_chunks ins cs' = rewrite_chunks ins cs.
Proof.
  induction 1 as [|c c' cs cs' [Ht Hd] Hrest IH]; [reflexivity|].
  unfold rewrite_chunks in *. cbn [flat_map]. rewrite IH.
  destruct (same_fields_tests c c' Ht Hd) as (Hty & Hcar & _).
  rewrite Hty, Hcar.
  assert (Hre : recrc c' = recrc c)
    by (unfold recrc, fresh_crc; now rewrite Ht, Hd).
  now rewrite Hre.
Qed.

(** X30. [embedCardIntoPng] never reads a CRC field either: two buffers
    whose chunks have the same type tags and payloads give the same
    output, whatever their CRC fields hold. A wrong CRC in the input is
    neither reported nor kept. *)
Theorem embed_never_reads_the_crc
    (cs cs' : list chunk) (tail : bytes) (s : jsstring)
    (opts : option EmbedOptions) :
  Forall2 (fun c c' => ctype c' = ctype c /\ cdata c' = cdata c) cs cs' ->
  Forall well_sized cs -> Forall well_sized cs' ->
  embedCardIntoPng (PNG_SIGNATURE ++ flat_map chunk_bytes cs' ++ tail) s opts
  = embedCardIntoPng (PNG_SIGNATURE ++ flat_map chunk_bytes cs ++ tail) s opts.
Proof.
  intros Hsame Hw Hw'.
  rewrite !embed_spec, !has_signature_prefixed.
  unfold chunks, stream_end.
  change (skipn 8 (PNG_SIGNATURE ++ flat_map chunk_bytes cs' ++ tail))
    with (flat_map chunk_bytes cs' ++ tail).
  change (skipn 8 (PNG_SIGNATURE ++ flat_map chunk_bytes cs ++ tail))
    with (flat_map chunk_bytes cs ++ tail).
  assert (El : length (PNG_SIGNATURE ++ flat_map chunk_bytes cs' ++ tail)
               = length (PNG_SIGNATURE ++ flat_map chunk_bytes cs ++ tail)).
  { rewrite !length_app. now rewrite (same_fields_length Hsame). }
  rewrite El.
  rewrite (walk_same_end Hsame Hw Hw').
  rewrite (rewrite_same_fields _ (walk_same_fields Hsame Hw Hw' _ _)).
  reflexivity.
Qed.

Lemma embed_never_reads_the_crc_witness :
  embedCardIntoPng (PNG_SIGNATURE ++ flat_map chunk_bytes
      [ihdr; iend_zero_crc] ++ []) (lit "{}") None
  = embedCardIntoPng (PNG_SIGNATURE ++ flat_map chunk_bytes
      [ihdr; iend] ++ []) (lit "{}") None.
Proof.
  apply (@embed_never_reads_the_crc [ihdr; iend] [ihdr; iend_zero_crc] []
           (lit "{}") None).
  - repeat constructor.
  - repeat (apply Forall_cons; [vm_compute; intuition discriminate|]). constructor.
  - repeat (apply Forall_cons; [vm_compute; intuition discriminate|]). constructor.
Defined.

End StreamFacts.

(** ** Further facts about [crc32.ts] *)

Module ChecksumFacts.

Import JS Crc32 Host PngCard Walker Examples JSFacts Crc32Facts BufferFacts.

Lemma lxor_range (a b n : Z) :
  0 < n -> 0 <= a < 2 ^ n -> 0 <= b < 2 ^ n -> 0 <= Z.lxor a b < 2 ^ n.
Proof.
  intros Hn Ha Hb.
  assert (H0 : 0 <= Z.lxor a b) by (apply Z.lxor_nonneg; lia).
  split; [exact H0|].
  destruct (Z.eq_dec (Z.lxor a b) 0) as [->|Hne]; [lia|].
  apply Z.log2_lt_pow2; [lia|].
  eapply Z.le_lt_trans; [apply Z.log2_lxor; lia|].
  apply Z.max_lub_lt.
  - destruct (Z.eq_dec a 0) as [->|Ha0]; [exact Hn|]. apply Z.log2_lt_pow2; lia.
  - destruct (Z.eq_dec b 0) as [->|Hb0]; [exact Hn|]. apply Z.log2_lt_pow2; lia.
Qed.

Lemma reference_bit_range (c : Z) :
  0 <= c < 2 ^ 32 -> 0 <= reference_bit c < 2 ^ 32.
Proof.
  intros Hc. unfold reference_bit.
  assert (Hs : 0 <= Z.shiftr c 1 < 2 ^ 31).
  { rewrite Z.shiftr_div_pow2 by lia. change (2 ^ 1) with 2.
    split; [apply Z.div_pos; lia|apply Z.div_lt_upper_bound; lia]. }
  destruct (Z.testbit c 0); [|lia].
  apply lxor_range; lia.
Qed.

Lemma reference_bit_top (c : Z) :
  0 <= c < 2 ^ 32 -> Z.testbit (reference_bit c) 31 = Z.testbit c 0.
Proof.
  intros Hc. unfold reference_bit.
  assert (Hhi : Z.testbit (Z.shiftr c 1) 31 = false).
  { rewrite Z.shiftr_spec by lia. change (31 + 1) with 32.
    destruct (Z.eq_dec c 0) as [->|Hne]; [apply Z.bits_0|].
    apply Z.bits_above_log2; [lia|]. apply Z.log2_lt_pow2; lia. }
  destruct (Z.testbit c 0).
  - rewrite Z.lxor_spec, Hhi. reflexivity.
  - exact Hhi.
Qed.

Lemma reference_bit_inj (c d : Z) :
  0 <= c < 2 ^ 32 -> 0 <= d < 2 ^ 32 ->
  reference_bit c = reference_bit d -> c = d.
Proof.
  intros Hc Hd H.
  assert (Hb : Z.testbit c 0 = Z.testbit d 0).
  { rewrite <- (reference_bit_top Hc), <- (reference_bit_top Hd). now rewrite H. }
  assert (Hs : Z.shiftr c 1 = Z.shiftr d 1).
  { unfold reference_bit in H. rewrite <- Hb in H.
    destruct (Z.testbit c 0); [|exact H].
    apply (f_equal (fun v => Z.lxor v 0xEDB88320)) in H.
    now rewrite !Z.lxor_assoc, !Z.lxor_nilpotent, !Z.lxor_0_r in H. }
  rewrite !Z.shiftr_div_pow2 in Hs by lia. change (2 ^ 1) with 2 in Hs.
  pose proof (Z.bit0_mod c) as Bc. pose proof (Z.bit0_mod d) as Bd.
  rewrite Hb in Bc. rewrite Bc in Bd.
  rewrite (Z.div_mod c 2), (Z.div_mod d 2) by lia. now rewrite Hs, Bd.
Qed.

Lemma reference_bits_range (n : nat) (c : Z) :
  0 <= c < 2 ^ 32 -> 0 <= Nat.iter n reference_bit c < 2 ^ 32.
Proof.
  intros Hc. induction n as [|n IH]; [exact Hc|].
  cbn [Nat.iter]. now apply reference_bit_range.
Qed.

Lemma reference_bits_inj (n : nat) (c d : Z) :
  0 <= c < 2 ^ 32 -> 0 <= d < 2 ^ 32 ->
  Nat.iter n reference_bit c = Nat.iter n reference_bit d -> c = d.
Proof.
  intros Hc Hd. induction n as [|n IH]; [auto|].
  cbn [Nat.iter]. intros H. apply IH.
  apply reference_bit_inj; [now apply reference_bits_range..|exact H].
Qed.

Lemma lxor_byte_range (u : Z) (b : byte) :
  0 <= u < 2 ^ 32 -> 0 <= Z.lxor u (byte_val b) < 2 ^ 32.
Proof.
  intros Hu. pose proof (byte_val_range b) as Hb. apply lxor_range; lia.
Qed.

Lemma reference_byte_range (u : Z) (b : byte) :
  0 <= u < 2 ^ 32 -> 0 <= reference_byte u b < 2 ^ 32.
Proof.
  intros Hu. unfold reference_byte.
  apply reference_bits_range. now apply lxor_byte_range.
Qed.

Lemma lxor_cancel_l (a b c : Z) : Z.lxor a b = Z.lxor a c -> b = c.
Proof.
  intros H. apply (f_equal (Z.lxor a)) in H.
  now rewrite <- !Z.lxor_assoc, Z.lxor_nilpotent, !Z.lxor_0_l in H.
Qed.

Lemma lxor_cancel_r (a b c : Z) : Z.lxor b a = Z.lxor c a -> b = c.
Proof. rewrite !(Z.lxor_comm _ a). apply lxor_cancel_l. Qed.

Lemma reference_byte_inj_state (u v : Z) (b : byte) :
  0 <= u < 2 ^ 32 -> 0 <= v < 2 ^ 32 ->
  reference_byte u b = reference_byte v b -> u = v.
Proof.
  intros Hu Hv H. unfold reference_byte in H.
  apply reference_bits_inj in H; [|now apply lxor_byte_range..].
  now apply lxor_cancel_r in H.
Qed.

Lemma reference_byte_inj_byte (u : Z) (x y : byte) :
  0 <= u < 2 ^ 32 ->
  reference_byte u x = reference_byte u y -> x = y.
Proof.
  intros Hu H. unfold reference_byte in H.
  apply reference_bits_inj in H; [|now apply lxor_byte_range..].
  apply lxor_cancel_l in H. now apply byte_val_inj.
Qed.

Lemma reference_fold_range (data : bytes) : forall u,
  0 <= u < 2 ^ 32 -> 0 <= fold_left reference_byte data u < 2 ^ 32.
Proof.
  induction data as [|b data IH]; intros u Hu; [exact Hu|].
  cbn [fold_left]. apply IH. now apply reference_byte_range.
Qed.

Lemma reference_fold_inj (data : bytes) : forall u v,
  0 <= u < 2 ^ 32 -> 0 <= v < 2 ^ 32 ->
  fold_left reference_byte data u = fold_left reference_byte data v -> u = v.
Proof.
  induction data as [|b data IH]; intros u v Hu Hv H; [exact H|].
  cbn [fold_left] in H. apply IH in H; [|now apply reference_byte_range..].
  now apply reference_byte_inj_state in H.
Qed.

(** X17. [crc32] detects any change of a single byte: two inputs that
    differ in exactly one position never have the same checksum. *)
Theorem crc32_detects_a_changed_byte (before after : bytes) (x y : byte) :
  x <> y -> crc32 (before ++ x :: after) <> crc32 (before ++ y :: after).
Proof.
  intros Hxy H. apply Hxy.
  rewrite !crc32_matches_reference in H. unfold crc32_reference in H.
  apply lxor_cancel_r in H. rewrite !fold_left_app in H. cbn [fold_left] in H.
  assert (Hu : 0 <= fold_left reference_byte before 0xFFFFFFFF < 2 ^ 32)
    by (apply reference_fold_range; lia).
  apply reference_fold_inj in H; [|now apply reference_byte_range..].
  now apply reference_byte_inj_byte in H.
Qed.

Lemma crc32_detects_a_changed_byte_witness :
  crc32 (ascii "IE" ++ "N"%byte :: ascii "D") <> crc32 (ascii "IE" ++ "M"%byte :: ascii "D").
Proof.
  apply (@crc32_detects_a_changed_byte (ascii "IE") (ascii "D") "N"%byte "M"%byte).
  discriminate.
Defined.

(** X18. [makeCrc32Table] builds the standard table of the reflected
    CRC-32: 256 entries, entry [i] being the register after eight
    division steps on [i], an unsigned 32-bit number; no two entries are
    equal. *)
Theorem makeCrc32Table_is_the_standard_table :
  length makeCrc32Table = 256%nat
  /\ (forall i, 0 <= i < 256 ->
        nth (Z.to_nat i) makeCrc32Table 0 = Nat.iter 8 reference_bit i
        /\ 0 <= nth (Z.to_nat i) makeCrc32Table 0 < 2 ^ 32)
  /\ (forall i j, 0 <= i < 256 -> 0 <= j < 256 ->
        nth (Z.to_nat i) makeCrc32Table 0 = nth (Z.to_nat j) makeCrc32Table 0 ->
        i = j).
Proof.
  rewrite <- table_is_built.
  assert (Hget : forall i, 0 <= i < 256 ->
            nth (Z.to_nat i) CRC32_TABLE 0 = Nat.iter 8 reference_bit i
            /\ 0 <= nth (Z.to_nat i) CRC32_TABLE 0 < 2 ^ 32).
  { intros i Hi. pose proof (table_get_reference Hi) as H.
    unfold table_get in H. destruct (Z.ltb_spec i 0); [lia|exact H]. }
  split; [reflexivity|]. split; [exact Hget|].
  intros i j Hi Hj H.
  destruct (Hget i Hi) as [Ei _]. destruct (Hget j Hj) as [Ej _].
  rewrite Ei, Ej in H. apply reference_bits_inj in H; lia.
Qed.

End ChecksumFacts.

(** ** Facts about [safeJson.ts] *)

Module SafeJsonFacts.

Import JS PngCard SafeJson Nesting WalkerFacts StreamFacts.

Section Delimiters.

Variables opening closing : Z.

Lemma str_indexOf_from_absent (text : jsstring) (u i : Z) :
  ~ In u text -> str_indexOf_from text u i = -1.
Proof.
  revert i. induction text as [|c text IH]; intros i Hn; [reflexivity|].
  cbn [str_indexOf_from]. destruct (Z.eqb_spec c u) as [->|Hne].
  - exfalso. apply Hn. now left.
  - apply IH. intros H. apply Hn. now right.
Qed.

Lemma str_indexOf_from_found (pre post : jsstring) (u i : Z) :
  ~ In u pre -> str_indexOf_from (pre ++ u :: post) u i = i + Z.of_nat (length pre).
Proof.
  revert i. induction pre as [|c pre IH]; intros i Hn; cbn [app str_indexOf_from].
  - rewrite Z.eqb_refl. cbn [length]. lia.
  - destruct (Z.eqb_spec c u) as [->|Hne].
    + exfalso. apply Hn. now left.
    + rewrite IH by (intros H; apply Hn; now right). cbn [length]. lia.
Qed.

Lemma first_unit (u : Z) (l : jsstring) :
  In u l -> exists pre post, l = pre ++ u :: post /\ ~ In u pre.
Proof.
  induction l as [|c l IH]; intros H; [contradiction|].
  destruct (Z.eq_dec c u) as [->|Hne].
  - exists [], l. split; [reflexivity|intros []].
  - destruct H as [H|H]; [contradiction|].
    destruct (IH H) as (pre & post & -> & Hn).
    exists (c :: pre), post. split; [reflexivity|].
    intros [E|E]; [contradiction|now apply Hn].
Qed.

Lemma str_slice_inside (text : jsstring) (i j : nat) :
  (i <= j)%nat -> (j <= length text)%nat ->
  str_slice text (Z.of_nat i) (Z.of_nat j) = firstn (j - i) (skipn i text).
Proof.
  intros Hij Hj. unfold str_slice, relative_index, str_len.
  destruct (Z.ltb_spec (Z.of_nat i) 0); [lia|].
  destruct (Z.ltb_spec (Z.of_nat j) 0); [lia|].
  rewrite !Z.min_l by lia. rewrite Nat2Z.id. f_equal. lia.
Qed.

Lemma skipn_nth_error (A : Type) (l : list A) (i : nat) (a : A) :
  nth_error l i = Some a -> skipn i l = a :: skipn (S i) l.
Proof.
  revert i. induction l as [|b l IH]; intros [|i] H; try discriminate.
  - now inversion H.
  - cbn [skipn]. now apply IH.
Qed.

Lemma strict_eq_some (c u : Z) : strict_eq (Some c) u = (c =? u).
Proof. reflexivity. Qed.

Lemma scan_loop_spec (fuel : nat) : forall (text : jsstring) (start i : nat) (d : Z),
  (start <= i)%nat -> (i <= length text)%nat -> (length text - i < fuel)%nat ->
  scan_loop opening closing fuel text (Z.of_nat start) (Z.of_nat i) d =
  Returned (match closing_length opening closing d (skipn i text) with
            | Some n => Some (firstn (i + n - start) (skipn start text))
            | None => None
            end).
Proof.
  induction fuel as [|fuel IH]; intros text start i d Hs Hi Hf; [lia|].
  cbn [scan_loop]. unfold str_len.
  destruct (Z.ltb_spec (Z.of_nat i) (Z.of_nat (length text))) as [Hlt|Hge].
  - assert (Hn : (i < length text)%nat) by lia.
    destruct (nth_error text i) as [c|] eqn:Ec;
      [|apply nth_error_None in Ec; lia].
    unfold char_at. destruct (Z.ltb_spec (Z.of_nat i) 0); [lia|].
    rewrite Nat2Z.id, Ec, !strict_eq_some.
    rewrite (skipn_nth_error _ _ Ec). cbn [closing_length]. unfold nest.
    cbv zeta.
    set (d1 := if c =? opening then d + 1 else d).
    set (d2 := if c =? closing then d1 - 1 else d1).
    destruct (d2 =? 0).
    + f_equal. f_equal.
      replace (Z.of_nat i + 1) with (Z.of_nat (S i)) by lia.
      rewrite str_slice_inside by lia. f_equal. lia.
    + replace (Z.of_nat i + 1) with (Z.of_nat (S i)) by lia.
      rewrite IH by lia.
      destruct (closing_length opening closing d2 (skipn (S i) text)) as [n|];
        cbn [option_map]; [|reflexivity].
      do 3 f_equal. lia.
  - assert (E : skipn i text = []) by (apply skipn_all2; lia).
    rewrite E. reflexivity.
Qed.

Lemma fold_nest_cons (d u : Z) (s : jsstring) :
  fold_left (nest opening closing) (u :: s) d
  = fold_left (nest opening closing) s (nest opening closing d u).
Proof. reflexivity. Qed.

Lemma closing_length_some (s : jsstring) : forall d n,
  closing_length opening closing d s = Some n ->
  (0 < n <= length s)%nat
  /\ fold_left (nest opening closing) (firstn n s) d = 0
  /\ forall k, (0 < k < n)%nat ->
       fold_left (nest opening closing) (firstn k s) d <> 0.
Proof.
  induction s as [|u s IH]; intros d n H; [discriminate|].
  cbn [closing_length] in H.
  destruct (Z.eqb_spec (nest opening closing d u) 0) as [E|E].
  - inversion H; subst n. cbn [length firstn]. split; [lia|].
    split; [cbn [fold_left]; exact E|]. intros k Hk. lia.
  - destruct (closing_length opening closing (nest opening closing d u) s)
      as [m|] eqn:Em; [|discriminate].
    inversion H; subst n. destruct (IH _ _ Em) as (Hm & H0 & Hk).
    cbn [length]. split; [lia|]. split; [exact H0|].
    intros [|k] Hlt; [lia|]. cbn [firstn]. rewrite fold_nest_cons.
    destruct k as [|k]; [exact E|]. apply Hk. lia.
Qed.

Lemma closing_length_none (s : jsstring) : forall d,
  closing_length opening closing d s = None ->
  forall k, (0 < k <= length s)%nat ->
    fold_left (nest opening closing) (firstn k s) d <> 0.
Proof.
  induction s as [|u s IH]; intros d H k Hk; [cbn [length] in Hk; lia|].
  cbn [closing_length] in H.
  destruct (Z.eqb_spec (nest opening closing d u) 0) as [E|E]; [discriminate|].
  destruct (closing_length opening closing (nest opening closing d u) s)
    as [m|] eqn:Em; [discriminate|].
  destruct k as [|k]; [lia|]. cbn [firstn]. rewrite fold_nest_cons.
  destruct k as [|k]; [exact E|]. apply (IH _ Em). cbn [length] in Hk. lia.
Qed.

Lemma nest_lower (d u : Z) : d - 1 <= nest opening closing d u.
Proof.
  unfold nest. destruct (u =? opening), (u =? closing); lia.
Qed.

Lemma firstn_snoc (A : Type) (l : list A) (k : nat) (a : A) :
  nth_error l k = Some a -> firstn (S k) l = firstn k l ++ [a].
Proof.
  revert k. induction l as [|b l IH]; intros [|k] H; try discriminate.
  - now inversion H.
  - cbn [firstn app]. f_equal. now apply IH.
Qed.

(** Prefixes that never close stay open, once the first unit opened. *)
Lemma open_prefixes (s : jsstring) (n : nat) :
  (n <= S (length s))%nat ->
  0 < depth opening closing (firstn 1 s) ->
  (forall k, (0 < k < n)%nat -> depth opening closing (firstn k s) <> 0) ->
  open_below opening closing s n.
Proof.
  intros Hn H1 Hne k. induction k as [|k IH]; intros Hk; [lia|].
  destruct k as [|k]; [exact H1|].
  assert (Hprev : 0 < depth opening closing (firstn (S k) s)) by (apply IH; lia).
  destruct (nth_error s (S k)) as [a|] eqn:Ea;
    [|apply nth_error_None in Ea; lia].
  pose proof (Hne (S (S k)) Hk) as Hnz.
  rewrite (firstn_snoc _ _ Ea) in *. unfold depth in *.
  rewrite fold_left_app in *. cbn [fold_left] in *.
  pose proof (nest_lower (fold_left (nest opening closing) (firstn (S k) s) 0) a).
  lia.
Qed.


Lemma closing_length_complete (s : jsstring) (d : Z) (n : nat) :
  (0 < n <= length s)%nat ->
  fold_left (nest opening closing) (firstn n s) d = 0 ->
  (forall k, (0 < k < n)%nat ->
     fold_left (nest opening closing) (firstn k s) d <> 0) ->
  closing_length opening closing d s = Some n.
Proof.
  intros Hn H0 Hk.
  destruct (closing_length opening closing d s) as [m|] eqn:Em.
  - destruct (closing_length_some _ _ Em) as (Hm & Hm0 & Hmk).
    f_equal. destruct (Nat.lt_trichotomy m n) as [Hlt|[Heq|Hgt]]; [|exact Heq|].
    + exfalso. apply (Hk m); [lia|exact Hm0].
    + exfalso. apply (Hmk n); [lia|exact H0].
  - exfalso. apply (@closing_length_none s d Em n); [lia|exact H0].
Qed.

Lemma closing_length_never (s : jsstring) (d : Z) :
  (forall k, (0 < k <= length s)%nat ->
     fold_left (nest opening closing) (firstn k s) d <> 0) ->
  closing_length opening closing d s = None.
Proof.
  intros Hk.
  destruct (closing_length opening closing d s) as [m|] eqn:Em; [|reflexivity].
  destruct (closing_length_some _ _ Em) as (Hm & Hm0 & _).
  exfalso. now apply (Hk m).
Qed.

Hypothesis distinct : opening <> closing.

Lemma depth_opening (rest : jsstring) :
  depth opening closing (firstn 1 (opening :: rest)) = 1.
Proof.
  cbn [firstn]. unfold depth, nest. cbn [fold_left].
  rewrite Z.eqb_refl. destruct (Z.eqb_spec opening closing); [contradiction|lia].
Qed.

Lemma scan_found (pre post : jsstring) :
  ~ In opening pre ->
  extractFirst opening closing (pre ++ opening :: post) =
  Returned (match closing_length opening closing 0 (opening :: post) with
            | Some n => Some (firstn n (opening :: post))
            | None => None
            end).
Proof.
  intros Hn. unfold extractFirst, str_indexOf.
  rewrite str_indexOf_from_found by assumption.
  destruct (Z.ltb_spec (0 + Z.of_nat (length pre)) 0); [lia|].
  rewrite Z.add_0_l, scan_loop_spec by (rewrite ?length_app; cbn [length]; lia).
  rewrite (@skipn_app_exact _ pre (opening :: post) (length pre)) by reflexivity.
  destruct (closing_length opening closing 0 (opening :: post)); [|reflexivity].
  do 3 f_equal. lia.
Qed.

Lemma last_snoc (A : Type) (l : list A) (a d : A) : last (l ++ [a]) d = a.
Proof.
  induction l as [|b l IH]; [reflexivity|].
  cbn [app]. destruct (l ++ [a]) eqn:E; [destruct l; discriminate|exact IH].
Qed.

Lemma closed_run (post : jsstring) (n : nat) :
  closing_length opening closing 0 (opening :: post) = Some n ->
  balanced_run opening closing (firstn n (opening :: post)).
Proof.
  intros H. destruct (closing_length_some _ _ H) as (Hn & H0 & Hk).
  set (body := opening :: post) in *.
  assert (Hlen : length (firstn n body) = n)
    by (rewrite length_firstn; lia).
  assert (Hopen : open_below opening closing (firstn n body) n).
  { apply open_prefixes; [lia| |].
    - rewrite firstn_firstn, Nat.min_l by lia. unfold body.
      rewrite depth_opening. lia.
    - intros k Hlt. rewrite firstn_firstn, Nat.min_l by lia. now apply Hk. }
  assert (Hn2 : (2 <= n)%nat).
  { destruct n as [|[|n]]; [lia| |lia].
    unfold body in H0. pose proof (depth_opening post) as D.
    unfold depth in D. lia. }
  repeat split.
  - destruct n; [lia|reflexivity].
  - destruct n as [|m]; [lia|].
    destruct (nth_error body m) as [a|] eqn:Ea;
      [|apply nth_error_None in Ea; lia].
    rewrite (firstn_snoc _ _ Ea), last_snoc.
    rewrite (firstn_snoc _ _ Ea), fold_left_app in H0. cbn [fold_left] in H0.
    assert (Hm : 0 < depth opening closing (firstn m (firstn (S m) body)))
      by (apply Hopen; lia).
    rewrite firstn_firstn, Nat.min_l in Hm by lia. unfold depth in Hm.
    remember (fold_left (nest opening closing) (firstn m body) 0) as dm eqn:Edm.
    clear Edm. unfold nest in H0.
    destruct (Z.eqb_spec a closing) as [E|E]; [exact E|].
    destruct (a =? opening); lia.
  - exact H0.
  - now rewrite Hlen.
Qed.

Lemma unclosed_run (post : jsstring) :
  closing_length opening closing 0 (opening :: post) = None ->
  never_closed opening closing (opening :: post).
Proof.
  intros H. split; [reflexivity|].
  apply open_prefixes; [lia|rewrite depth_opening; lia|].
  intros k Hk. apply (@closing_length_none _ _ H k). lia.
Qed.

Lemma balanced_run_closes (r post : jsstring) :
  balanced_run opening closing r ->
  exists r', r = opening :: r'
    /\ closing_length opening closing 0 (r ++ post) = Some (length r).
Proof.
  intros (Hhd & _ & H0 & Hopen).
  destruct r as [|u r']; [discriminate|]. inversion Hhd; subst u.
  exists r'. split; [reflexivity|].
  apply closing_length_complete.
  - rewrite length_app. cbn [length]. lia.
  - now rewrite firstn_app_exact.
  - intros k Hk. rewrite firstn_app, (proj2 (Nat.sub_0_le k _)), firstn_O, app_nil_r
      by lia.
    specialize (Hopen k Hk). unfold depth in Hopen. lia.
Qed.

Lemma never_closed_none (body : jsstring) :
  never_closed opening closing body ->
  exists post, body = opening :: post
    /\ closing_length opening closing 0 body = None.
Proof.
  intros (Hhd & Hopen).
  destruct body as [|u post]; [discriminate|]. inversion Hhd; subst u.
  exists post. split; [reflexivity|].
  apply closing_length_never. intros k Hk.
  specialize (Hopen k). unfold depth in Hopen. lia.
Qed.

(** The whole behaviour of the scan. *)
Lemma scan_spec (text : jsstring) :
  (exists result, extractFirst opening closing text = Returned result)
  /\ (forall r, extractFirst opening closing text = Returned (Some r) <->
        exists pre post,
          text = pre ++ r ++ post /\ ~ In opening pre /\ balanced_run opening closing r)
  /\ (extractFirst opening closing text = Returned None <->
        ~ In opening text
        \/ exists pre body,
             text = pre ++ body /\ ~ In opening pre /\ never_closed opening closing body).
Proof.
  assert (Habsent : ~ In opening text -> extractFirst opening closing text = Returned None).
  { intros Hn. unfold extractFirst, str_indexOf. now rewrite str_indexOf_from_absent. }
  assert (Hsome : forall pre r post,
            ~ In opening pre -> balanced_run opening closing r ->
            extractFirst opening closing (pre ++ r ++ post) = Returned (Some r)).
  { intros pre r post Hn Hr.
    destruct (@balanced_run_closes r post Hr) as (r' & -> & Hc).
    cbn [app] in *. rewrite scan_found by assumption. rewrite Hc.
    do 2 f_equal. change (opening :: r' ++ post) with ((opening :: r') ++ post).
    now apply firstn_app_exact. }
  assert (Hnone : forall pre body,
            ~ In opening pre -> never_closed opening closing body ->
            extractFirst opening closing (pre ++ body) = Returned None).
  { intros pre body Hn Hb. destruct (@never_closed_none body Hb) as (post & -> & Hc).
    rewrite scan_found by assumption. now rewrite Hc. }
  destruct (in_dec Z.eq_dec opening text) as [Hin|Hn].
  - destruct (first_unit _ _ Hin) as (pre & post & -> & Hpre).
    pose proof (@scan_found pre post Hpre) as Hscan.
    destruct (closing_length opening closing 0 (opening :: post)) as [n|] eqn:Ec.
    + pose proof (@closed_run post n Ec) as Hrun.
      assert (Hsplit : pre ++ opening :: post
                = pre ++ firstn n (opening :: post) ++ skipn n (opening :: post))
        by now rewrite firstn_skipn.
      split; [eexists; exact Hscan|]. split.
      * intros r. split.
        -- intros H. rewrite Hscan in H. apply Returned_inj in H.
           inversion H; subst r.
           exists pre, (skipn n (opening :: post)). repeat split; try assumption;
             apply Hrun.
        -- intros (pre' & post' & E & Hn' & Hr'). rewrite E. now apply Hsome.
      * split.
        -- intros H. rewrite Hscan in H. discriminate.
        -- intros [Hn'|(pre' & body & E & Hn' & Hb)].
           ++ exfalso. apply Hn'. apply in_or_app. right. now left.
           ++ rewrite E, (Hnone _ _ Hn' Hb) in Hscan. discriminate.
    + pose proof (@unclosed_run post Ec) as Hrun.
      split; [eexists; exact Hscan|]. split.
      * intros r. split.
        -- intros H. rewrite Hscan in H. discriminate.
        -- intros (pre' & post' & E & Hn' & Hr').
           rewrite E, (Hsome _ _ _ Hn' Hr') in Hscan. discriminate.
      * split; [|intros _; exact Hscan].
        intros _. right. exists pre, (opening :: post). repeat split; try assumption;
          apply Hrun.
  - split; [eexists; now apply Habsent|]. split.
    + intros r. split.
      * intros H. rewrite (Habsent Hn) in H. discriminate.
      * intros (pre & post & E & Hn' & Hr).
        exfalso. apply Hn. rewrite E.
        destruct Hr as (Hhd & _). destruct r as [|u r]; [discriminate|].
        inversion Hhd; subst u. apply in_or_app. right. now left.
    + split; [now left|intros _; now apply Habsent].
Qed.

End Delimiters.

(** X20. [extractFirstJsonObject] always returns. It returns a text
    exactly when the input has a "{" and, counting from the first one,
    the braces get back to balance: the result is then the run from that
    "{" to the first "}" that balances it, so it starts with "{", ends
    with "}", is balanced and has no balanced proper prefix. It returns
    [null] exactly when there is no "{" or the first one is never
    balanced. Quotation marks play no part: a brace inside a JSON string
    counts like any other. *)
Theorem extractFirstJsonObject_first_balanced_run (text : jsstring) :
  (exists result, extractFirstJsonObject text = Returned result)
  /\ (forall r, extractFirstJsonObject text = Returned (Some r) <->
        exists pre post,
          text = pre ++ r ++ post /\ ~ In (unit_of "{") pre
          /\ balanced_run (unit_of "{") (unit_of "}") r)
  /\ (extractFirstJsonObject text = Returned None <->
        ~ In (unit_of "{") text
        \/ exists pre body,
             text = pre ++ body /\ ~ In (unit_of "{") pre
             /\ never_closed (unit_of "{") (unit_of "}") body).
Proof. apply scan_spec. discriminate. Qed.

(** X21. [extractFirstJsonArray] does the same with "[" and "]": it
    always returns, the result is the run from the first "[" to the
    first "]" that balances it, and it is [null] exactly when there is
    no "[" or the first one is never balanced. *)
Theorem extractFirstJsonArray_first_balanced_run (text : jsstring) :
  (exists result, extractFirstJsonArray text = Returned result)
  /\ (forall r, extractFirstJsonArray text = Returned (Some r) <->
        exists pre post,
          text = pre ++ r ++ post /\ ~ In (unit_of "[") pre
          /\ balanced_run (unit_of "[") (unit_of "]") r)
  /\ (extractFirstJsonArray text = Returned None <->
        ~ In (unit_of "[") text
        \/ exists pre body,
             text = pre ++ body /\ ~ In (unit_of "[") pre
             /\ never_closed (unit_of "[") (unit_of "]") body).
Proof. apply scan_spec. discriminate. Qed.

End SafeJsonFacts.

(** ** Which keyword bytes make a card chunk *)

Module KeywordFacts.

Import JS Host PngCard Walker Text Examples JSFacts BufferFacts WalkerFacts HostFacts HelperFacts StreamFacts.

Lemma accumulate_any (cp x : Z) :
  Z.lor (Z.shiftl cp 6) (Z.land x 0x3F) = cp * 64 + x mod 64.
Proof.
  pose proof (Z.mod_pos_bound x 64 ltac:(lia)) as Hr.
  rewrite (@land_ones_literal _ 6 0x3F) by (try lia; reflexivity).
  change (2 ^ 6) with 64.
  rewrite lor_shiftl_add; change (2 ^ 6) with 64; lia.
Qed.

(** The first item the decoder emits once a sequence is open with one,
    two or three continuation bytes to come. *)
Lemma continue_one (st : utf8_state) (rest : bytes) :
  bytes_left st = 1%nat ->
  match utf8_items (Some st) rest with
  | [] => False
  | None :: _ => True
  | Some c :: items =>
      exists b rest',
        rest = b :: rest'
        /\ lower_boundary st <= byte_val b <= upper_boundary st
        /\ c = code_point st * 64 + byte_val b mod 64
        /\ items = utf8_items None rest'
  end.
Proof.
  intros Hl. destruct rest as [|b rest']; [exact I|].
  cbn [utf8_items]. cbv zeta. rewrite Hl.
  destruct (Z.leb_spec (lower_boundary st) (byte_val b));
    destruct (Z.leb_spec (byte_val b) (upper_boundary st));
    cbn [andb]; try exact I.
  exists b, rest'. rewrite accumulate_any. repeat split; assumption.
Qed.

Lemma continue_two (st : utf8_state) (rest : bytes) :
  bytes_left st = 2%nat ->
  match utf8_items (Some st) rest with
  | [] => False
  | None :: _ => True
  | Some c :: items =>
      exists b1 b2 rest',
        rest = b1 :: b2 :: rest'
        /\ lower_boundary st <= byte_val b1 <= upper_boundary st
        /\ 0x80 <= byte_val b2 <= 0xBF
        /\ c = (code_point st * 64 + byte_val b1 mod 64) * 64 + byte_val b2 mod 64
        /\ items = utf8_items None rest'
  end.
Proof.
  intros Hl. destruct rest as [|b rest']; [exact I|].
  cbn [utf8_items]. cbv zeta. rewrite Hl.
  destruct (Z.leb_spec (lower_boundary st) (byte_val b));
    destruct (Z.leb_spec (byte_val b) (upper_boundary st));
    cbn [andb]; try exact I.
  rewrite accumulate_any.
  match goal with
  | |- context [utf8_items (Some ?s) rest'] =>
      pose proof (@continue_one s rest' eq_refl) as H1;
      destruct (utf8_items (Some s) rest') as [|[c|] items]
  end; try exact I; [contradiction|].
  destruct H1 as (b2 & rest2 & -> & Hb & -> & ->).
  cbn [lower_boundary upper_boundary code_point] in *.
  exists b, b2, rest2. repeat split; (assumption || lia).
Qed.

Lemma continue_three (st : utf8_state) (rest : bytes) :
  bytes_left st = 3%nat ->
  match utf8_items (Some st) rest with
  | [] => False
  | None :: _ => True
  | Some c :: items =>
      exists b1,
        lower_boundary st <= byte_val b1 <= upper_boundary st
        /\ (code_point st * 64 + byte_val b1 mod 64) * 4096 <= c
  end.
Proof.
  intros Hl. destruct rest as [|b rest']; [exact I|].
  cbn [utf8_items]. cbv zeta. rewrite Hl.
  destruct (Z.leb_spec (lower_boundary st) (byte_val b));
    destruct (Z.leb_spec (byte_val b) (upper_boundary st));
    cbn [andb]; try exact I.
  rewrite accumulate_any.
  match goal with
  | |- context [utf8_items (Some ?s) rest'] =>
      pose proof (@continue_two s rest' eq_refl) as H1;
      destruct (utf8_items (Some s) rest') as [|[c|] items]
  end; try exact I; [contradiction|].
  destruct H1 as (b2 & b3 & rest3 & -> & Hb2 & Hb3 & -> & ->).
  cbn [lower_boundary upper_boundary code_point] in *.
  exists b. split; [lia|].
  pose proof (Z.mod_pos_bound (byte_val b2) 64 ltac:(lia)).
  pose proof (Z.mod_pos_bound (byte_val b3) 64 ltac:(lia)).
  lia.
Qed.

(** What the first decoded item tells about the input. *)
Lemma utf8_items_head (input : bytes) :
  match utf8_items None input with
  | [] => input = []
  | None :: _ => True
  | Some c :: items =>
      (0 <= c < 0x80
       /\ exists rest, input = to_uint8 c :: rest /\ items = utf8_items None rest)
      \/ (0x80 <= c /\ c <> 0xFEFF)
      \/ (c = 0xFEFF
          /\ exists rest, input = xef :: xbb :: xbf :: rest
                          /\ items = utf8_items None rest)
  end.
Proof.
  destruct input as [|b rest]; [reflexivity|].
  rewrite utf8_items_lead. unfold utf8_on_lead, utf8_lead.
  pose proof (byte_val_range b) as Hb.
  pose proof (to_uint8_byte_val b) as Eb.
  remember (byte_val b) as v eqn:Ev.
  destruct (Z.leb_spec v 0x7F).
  { left. split; [lia|]. exists rest. split; [now rewrite Eb|reflexivity]. }
  destruct (Z.leb_spec 0xC2 v); destruct (Z.leb_spec v 0xDF); cbn [andb].
  { match goal with
    | |- context [utf8_items (Some ?s) rest] =>
        pose proof (@continue_one s rest eq_refl) as Hcont;
        destruct (utf8_items (Some s) rest) as [|[c|] items]
    end; try exact I; [contradiction|].
    destruct Hcont as (b2 & rest2 & -> & Hb2 & -> & ->).
    cbn [lower_boundary upper_boundary code_point] in *.
    right; left.
    rewrite (@land_ones_literal _ 5 0x1F) by (try lia; reflexivity).
    change (2 ^ 5) with 32.
    pose proof (Z.mod_pos_bound (byte_val b2) 64 ltac:(lia)).
    assert (v mod 32 = v - 192) by (Z.div_mod_to_equations; lia).
    lia. }
  all: destruct (Z.leb_spec 0xE0 v); destruct (Z.leb_spec v 0xEF); cbn [andb];
    try lia.
  { match goal with
    | |- context [utf8_items (Some ?s) rest] =>
        pose proof (@continue_two s rest eq_refl) as Hcont;
        destruct (utf8_items (Some s) rest) as [|[c|] items]
    end; try exact I; [contradiction|].
    destruct Hcont as (b2 & b3 & rest3 & -> & Hb2 & Hb3 & -> & ->).
    cbn [lower_boundary upper_boundary code_point] in *.
    rewrite (@land_ones_literal _ 4 0xF) in * by (try lia; reflexivity).
    change (2 ^ 4) with 16 in *.
    assert (Hv : v mod 16 = v - 224) by (Z.div_mod_to_equations; lia).
    rewrite Hv in *.
    pose proof (byte_val_range b2) as R2. pose proof (byte_val_range b3) as R3.
    assert (Hm3 : byte_val b3 mod 64 = byte_val b3 - 128)
      by (Z.div_mod_to_equations; lia).
    rewrite Hm3.
    destruct (Z.eqb_spec v 0xE0) as [E0|E0]; destruct (Z.eqb_spec v 0xED) as [Ed|Ed];
      try lia.
    - assert (Hm2 : byte_val b2 mod 64 = byte_val b2 - 128)
        by (Z.div_mod_to_equations; lia).
      rewrite Hm2. right; left. lia.
    - assert (Hm2 : byte_val b2 mod 64 = byte_val b2 - 128)
        by (Z.div_mod_to_equations; lia).
      rewrite Hm2. right; left. lia.
    - assert (Hm2 : byte_val b2 mod 64 = byte_val b2 - 128)
        by (Z.div_mod_to_equations; lia).
      rewrite Hm2.
      destruct (Z.eq_dec (((v - 224) * 64 + (byte_val b2 - 128)) * 64
                           + (byte_val b3 - 128)) 0xFEFF) as [E|E].
      + right; right. split; [exact E|]. exists rest3.
        assert (v = byte_val xef) by (change (byte_val xef) with 239; lia).
        assert (byte_val b2 = byte_val xbb) by (change (byte_val xbb) with 187; lia).
        assert (byte_val b3 = byte_val xbf) by (change (byte_val xbf) with 191; lia).
        subst v.
        repeat match goal with
               | H : byte_val _ = byte_val _ |- _ => apply byte_val_inj in H; subst
               end.
        split; reflexivity.
      + right; left. split; [lia|exact E]. }
  all: destruct (Z.leb_spec 0xF0 v); destruct (Z.leb_spec v 0xF4); cbn [andb];
    try lia; try exact I.
  all: match goal with
       | |- context [utf8_items (Some ?s) ?r] =>
           pose proof (@continue_three s r eq_refl) as Hcont;
           destruct (utf8_items (Some s) r) as [|[c|] items]
       end; try exact I; try contradiction.
  all: destruct Hcont as (b2 & Hb2 & Hc);
    cbn [lower_boundary upper_boundary code_point] in *;
    rewrite (@land_ones_literal _ 3 0x7) in * by (try lia; reflexivity);
    change (2 ^ 3) with 8 in *;
    assert (Hv : v mod 8 = v - 240) by (Z.div_mod_to_equations; lia);
    rewrite Hv in *;
    pose proof (byte_val_range b2) as R2;
    right; left;
    destruct (Z.eqb_spec v 0xF0); destruct (Z.eqb_spec v 0xF4); try lia;
    assert (Hm2 : byte_val b2 mod 64 = byte_val b2 - 128)
      by (Z.div_mod_to_equations; lia);
    lia.
Qed.

Lemma from_scalar_head (c : Z) :
  from_scalar c = [c]
  \/ exists u rest, from_scalar c = u :: rest /\ 0xD800 <= u.
Proof.
  unfold from_scalar. destruct (Z.leb_spec c 0xFFFF) as [Hc|Hc]; [now left|].
  right. eexists. eexists. split; [reflexivity|].
  pose proof (Z.shiftr_nonneg (c - 0x10000) 10) as Hs.
  assert (0 <= Z.shiftr (c - 0x10000) 10) by (apply Hs; lia). lia.
Qed.

Lemma from_scalar_ascii (cs : list Z) : forall t : jsstring,
  Forall (fun u => 0 <= u < 0x80) t ->
  flat_map from_scalar cs = t -> cs = t.
Proof.
  induction cs as [|c cs IH]; intros t Ht H; [exact H|].
  cbn [flat_map] in H.
  destruct (from_scalar_head c) as [E|(u & rest & E & Hu)]; rewrite E in H.
  - destruct t as [|v t]; [discriminate|]. cbn [app] in H.
    injection H as Hv Htail. subst v.
    apply Forall_cons_iff in Ht as [_ Ht]. f_equal. now apply IH.
  - exfalso. destruct t as [|v t]; [discriminate|].
    apply Forall_cons_iff in Ht as [Hv _]. cbn [app] in H.
    injection H as Hv' _. subst v. lia.
Qed.

Lemma ascii_items (n : nat) : forall input : bytes,
  (length input <= n)%nat ->
  Forall (fun u => 0 <= u < 0x80) (map item_value (utf8_items None input)) ->
  input = map to_uint8 (map item_value (utf8_items None input)).
Proof.
  induction n as [|n IH]; intros input Hn H.
  - destruct input; [reflexivity|cbn [length] in Hn; lia].
  - pose proof (utf8_items_head input) as Hh.
    destruct (utf8_items None input) as [|[c|] items]; [now subst| |].
    + cbn [map item_value] in *. apply Forall_cons_iff in H as [Hc H].
      destruct Hh as [(_ & rest & -> & ->)|[(Hc' & _)|(Hc' & _)]]; try lia.
      f_equal. apply IH; [cbn [length] in Hn; lia|exact H].
    + cbn [map item_value] in H. apply Forall_cons_iff in H as [Hc _]. lia.
Qed.

(** The byte strings the non-fatal decoder turns into a given ASCII
    text: the text itself, or the text behind a byte order mark. *)
Lemma utf8_decode_ascii (kb : bytes) (t : jsstring) :
  Forall (fun u => 0 <= u < 0x80) t ->
  utf8_decode kb = t ->
  kb = map to_uint8 t \/ kb = xef :: xbb :: xbf :: map to_uint8 t.
Proof.
  intros Ht H. unfold utf8_decode in H.
  change (fun i : option Z => match i with Some c => c | None => 0xFFFD end)
    with item_value in H.
  apply from_scalar_ascii in H; [|exact Ht].
  pose proof (utf8_items_head kb) as Hh.
  destruct (utf8_items None kb) as [|i items] eqn:Ei.
  - left. subst kb. cbn [map drop_bom] in H. now subst t.
  - cbn [map drop_bom] in H.
    destruct (Z.eqb_spec (item_value i) 0xFEFF) as [Eb|Eb].
    + right. destruct i as [c|]; [|discriminate]. cbn [item_value] in Eb.
      destruct Hh as [(Hc & _)|[(_ & Hc)|(_ & rest & -> & ->)]]; try lia.
      do 3 f_equal. rewrite <- H.
      apply ascii_items with (n := length rest); [lia|now rewrite H].
    + left. rewrite <- H.
      change (item_value i :: map item_value items)
        with (map item_value (i :: items)).
      rewrite <- Ei. apply ascii_items with (n := length kb); [lia|].
      rewrite Ei. cbn [map]. now rewrite H.
Qed.

Lemma windows1252_ascii (b : byte) (v : Z) :
  0 <= v < 0x80 -> windows1252 b = v -> b = to_uint8 v.
Proof.
  intros Hv H. subst v. destruct b; vm_compute in Hv; try reflexivity;
    exfalso; destruct Hv as [_ Hv]; discriminate Hv.
Qed.

Lemma ascii_decode_ascii (input : bytes) : forall t : jsstring,
  Forall (fun u => 0 <= u < 0x80) t ->
  ascii_decode input = t -> input = map to_uint8 t.
Proof.
  unfold ascii_decode.
  induction input as [|b input IH]; intros t Ht H.
  - now subst t.
  - destruct t as [|u t]; [discriminate|]. cbn [map] in *.
    inversion H as [[Hu Hrest]]. apply Forall_cons_iff in Ht as [Hr Ht].
    rewrite Hu, Hrest. f_equal.
    + now apply windows1252_ascii.
    + now apply IH.
Qed.

Lemma parse_some (data : bytes) (parsed : ParsedText) :
  parseTextChunkKeyword data = Some parsed ->
  exists kb, kb <> [] /\ ~ In x00 kb
    /\ data = kb ++ x00 :: textBytes parsed
    /\ parsed_keyword parsed = utf8_decode kb.
Proof.
  intros H.
  destruct (in_dec Byte.byte_eq_dec x00 data) as [Hin|Hn];
    [|rewrite parse_malformed in H by (now left); discriminate].
  destruct (first_occurrence _ _ Hin) as (pre & post & -> & Hpre).
  destruct pre as [|b pre];
    [rewrite parse_malformed in H by (now right); discriminate|].
  change ((b :: pre) ++ x00 :: post) with ((b :: pre) ++ [x00] ++ post) in H.
  rewrite parse_keyed in H by (assumption || discriminate).
  inversion H; subst parsed. cbn [textBytes parsed_keyword].
  exists (b :: pre). repeat split; (assumption || discriminate || reflexivity).
Qed.

Ltac ascii_text :=
  match goal with
  | |- Forall _ ?t =>
      let t' := eval vm_compute in t in
      change t with t'; repeat (apply Forall_cons; [lia|]); apply Forall_nil
  end.

(** X22. Which chunks the codec takes for a card, byte by byte: the
    type tag is "tEXt" and the payload starts with "chara" or "ccv3"
    followed by a NUL, or with the three bytes EF BB BF (a UTF-8 byte
    order mark), then "chara" or "ccv3", then a NUL. No other keyword
    bytes qualify; the mark is accepted because the keyword is decoded
    with a decoder that drops it. *)
Theorem card_chunks_by_their_bytes (c : chunk) :
  is_carrier c = true <->
  ctype c = ascii "tEXt"
  /\ exists key tb,
       (key = ascii "chara" \/ key = ascii "ccv3")
       /\ (cdata c = key ++ x00 :: tb
           \/ cdata c = xef :: xbb :: xbf :: key ++ x00 :: tb).
Proof.
  unfold is_carrier, type_is. split.
  - intros H. apply andb_prop in H as [Hty Hk].
    apply jsstring_eqb_eq in Hty.
    apply ascii_decode_ascii in Hty; [|ascii_text].
    split; [exact Hty|].
    destruct (parseTextChunkKeyword (cdata c)) as [parsed|] eqn:Ep; [|discriminate].
    destruct (parse_some _ Ep) as (kb & _ & _ & Hdata & Hkw).
    rewrite Hkw in Hk. apply is_card_keyword_spec in Hk.
    destruct Hk as [Hk|Hk]; apply utf8_decode_ascii in Hk; try ascii_text.
    + exists (ascii "chara"), (textBytes parsed). split; [now left|].
      destruct Hk as [->| ->]; [now left|now right].
    + exists (ascii "ccv3"), (textBytes parsed). split; [now right|].
      destruct Hk as [->| ->]; [now left|now right].
  - intros (Hty & key & tb & Hkey & Hdata).
    rewrite Hty. cbn [andb].
    change (jsstring_eqb (ascii_decode (ascii "tEXt")) (lit "tEXt")) with true.
    cbn [andb].
    destruct Hkey as [-> | ->]; destruct Hdata as [-> | ->].
    + change (ascii "chara" ++ x00 :: tb) with (ascii "chara" ++ [x00] ++ tb).
      rewrite parse_keyed; [reflexivity| |discriminate].
      cbn. intuition discriminate.
    + change (xef :: xbb :: xbf :: ascii "chara" ++ x00 :: tb)
        with ((xef :: xbb :: xbf :: ascii "chara") ++ [x00] ++ tb).
      rewrite parse_keyed; [reflexivity| |discriminate].
      cbn. intuition discriminate.
    + change (ascii "ccv3" ++ x00 :: tb) with (ascii "ccv3" ++ [x00] ++ tb).
      rewrite parse_keyed; [reflexivity| |discriminate].
      cbn. intuition discriminate.
    + change (xef :: xbb :: xbf :: ascii "ccv3" ++ x00 :: tb)
        with ((xef :: xbb :: xbf :: ascii "ccv3") ++ [x00] ++ tb).
      rewrite parse_keyed; [reflexivity| |discriminate].
      cbn. intuition discriminate.
Qed.

End KeywordFacts.

(** ** The PNG handlers of [page.tsx] *)

Module PageFacts.

Import JS Host PngCard Walker Text Examples JSFacts WalkerFacts PngCardFacts RoundTripFacts StreamFacts Page.

Section Handlers.

Variables Card Json : Type.
Variable cardToJsonString : Card -> jsstring.
Variable tryParseJson : jsstring -> Json + jsstring.
Variable normalizeImportedCard : Json -> Card.




(** X25. [importPngFile] does not catch what [extractCardFromPng]
    throws: on a PNG whose first card chunk holds text that is not
    base64 of UTF-8, the handler ends with that error and sets neither
    an error message nor a notice. *)
Theorem importPngFile_lets_the_decoding_error_escape
    (st : state Card) (p : bytes) (pre post : list chunk) (c : chunk)
    (parsed : ParsedText) (e : error) :
  firstn 8 p = PNG_SIGNATURE ->
  chunks p = pre ++ c :: post ->
  forallb (fun x => negb (is_carrier x)) pre = true ->
  is_carrier c = true ->
  parseTextChunkKeyword (cdata c) = Some parsed ->
  base64DecodeUtf8 (ascii_decode (textBytes parsed)) = Thrown e ->
  importPngFile tryParseJson normalizeImportedCard (Some p) st = Thrown e.
Proof.
  intros Hs Hcs Hpre Hc Hp Hd. apply has_signature_true in Hs.
  unfold Page.importPngFile.
  rewrite extract_spec, Hs, Hcs, (@find_first _ is_carrier pre post c Hpre Hc).
  unfold decode_carrier. rewrite Hp, Hd. reflexivity.
Qed.

End Handlers.



Lemma importPngFile_witness :
  Page.importPngFile (fun t : jsstring => @inl jsstring jsstring t)
    (fun v : jsstring => v)
    (Some (Examples.png [ihdr; chara_not_utf8; iend]))
    {| card := lit "{}"; png := None;
       error_shown := None; notice_shown := None; downloads := [] |}
  = Thrown DecodeTypeError.
Proof.
  apply (@importPngFile_lets_the_decoding_error_escape jsstring jsstring
           (fun t => inl t) (fun v => v)
           {| card := lit "{}"; png := None;
              error_shown := None; notice_shown := None; downloads := [] |}
           (Examples.png [ihdr; chara_not_utf8; iend])
           [ihdr] [iend] chara_not_utf8
           {| parsed_keyword := lit "chara"; textBytes := ascii "/w==" |}
           DecodeTypeError); reflexivity.
Defined.

End PageFacts.

(** ** Facts about [normalizeBaseUrl] *)

Module RouteFacts.

Import JS SafeJson Route.

Lemma all_slashes (s : jsstring) :
  forallb (fun u => u =? unit_of "/") s = true ->
  s = repeat (unit_of "/") (length s).
Proof.
  induction s as [|u s IH]; [reflexivity|]. cbn [forallb length repeat].
  intros H. apply andb_prop in H as [Hu Hs]. apply Z.eqb_eq in Hu.
  now rewrite Hu, <- IH.
Qed.

Lemma repeat_slashes (k : nat) :
  forallb (fun u => u =? unit_of "/") (repeat (unit_of "/") k) = true.
Proof. induction k as [|k IH]; [reflexivity|]. cbn [repeat forallb]. exact IH. Qed.

Lemma last_cons (A : Type) (a : A) (l : list A) (d : A) :
  l <> [] -> last (a :: l) d = last l d.
Proof. destruct l; [congruence|reflexivity]. Qed.

Lemma not_all_slashes (r : jsstring) (k : nat) :
  r <> [] -> last r 0 <> unit_of "/" ->
  forallb (fun u => u =? unit_of "/") (r ++ repeat (unit_of "/") k) = false.
Proof.
  induction r as [|u r IH]; [congruence|]. intros _ Hl.
  cbn [app forallb]. destruct r as [|v r].
  - cbn [last] in Hl. destruct (Z.eqb_spec u (unit_of "/")); [contradiction|reflexivity].
  - rewrite IH; [apply andb_false_r|discriminate|].
    now rewrite last_cons in Hl by discriminate.
Qed.

Lemma normalizeBaseUrl_cut (s : jsstring) :
  exists k,
    s = normalizeBaseUrl s ++ repeat (unit_of "/") k
    /\ (normalizeBaseUrl s = [] \/ last (normalizeBaseUrl s) 0 <> unit_of "/").
Proof.
  induction s as [|u s (k & IH & Hl)]; [exists 0%nat; split; [reflexivity|now left]|].
  cbn [normalizeBaseUrl]. destruct (trailing_run (u :: s)) eqn:Et.
  - exists (length (u :: s)). split; [|now left]. now apply all_slashes.
  - exists k. split; [cbn [app]; now rewrite <- IH|]. right.
    destruct (normalizeBaseUrl s) as [|v r] eqn:En.
    + cbn [last]. intros Hu. cbn [app] in IH. rewrite IH in Et.
      cbn [trailing_run forallb] in Et.
      rewrite repeat_slashes, Hu in Et. discriminate.
    + rewrite last_cons by discriminate. destruct Hl as [Hl|Hl]; [discriminate|exact Hl].
Qed.

Lemma normalizeBaseUrl_unique (r : jsstring) (k : nat) :
  r = [] \/ last r 0 <> unit_of "/" ->
  normalizeBaseUrl (r ++ repeat (unit_of "/") k) = r.
Proof.
  induction r as [|u r IH]; intros Hl.
  - cbn [app]. destruct k as [|k]; [reflexivity|].
    cbn [repeat normalizeBaseUrl trailing_run].
    change (forallb _ (unit_of "/" :: repeat (unit_of "/") k))
      with (forallb (fun u => u =? unit_of "/") (repeat (unit_of "/") (S k))).
    now rewrite repeat_slashes.
  - destruct Hl as [Hl|Hl]; [discriminate|].
    cbn [app normalizeBaseUrl trailing_run].
    change (forallb _ (u :: r ++ repeat (unit_of "/") k))
      with (forallb (fun u => u =? unit_of "/") ((u :: r) ++ repeat (unit_of "/") k)).
    rewrite not_all_slashes by (discriminate || assumption).
    f_equal. apply IH. destruct r as [|v r]; [now left|right].
    now rewrite last_cons in Hl by discriminate.
Qed.

(** X26. [normalizeBaseUrl] cuts the run of "/" at the end of the base
    URL and nothing else: the input is the result followed by slashes,
    and the result is empty or does not end in "/". It is idempotent,
    and slashes appended to the input do not change the result; a base
    URL made of slashes only becomes the empty string. *)
Theorem normalizeBaseUrl_strips_trailing_slashes (baseUrl : jsstring) :
  (forall r, normalizeBaseUrl baseUrl = r <->
     (exists k, baseUrl = r ++ repeat (unit_of "/") k)
     /\ (r = [] \/ last r 0 <> unit_of "/"))
  /\ normalizeBaseUrl (normalizeBaseUrl baseUrl) = normalizeBaseUrl baseUrl
  /\ forall k, normalizeBaseUrl (baseUrl ++ repeat (unit_of "/") k)
               = normalizeBaseUrl baseUrl.
Proof.
  destruct (normalizeBaseUrl_cut baseUrl) as (k0 & Hcut & Hlast).
  split; [|split].
  - intros r. split.
    + intros <-. split; [now exists k0|exact Hlast].
    + intros [[k ->] Hl]. now apply (@normalizeBaseUrl_unique r k).
  - rewrite <- (app_nil_r (normalizeBaseUrl baseUrl)) at 1.
    now apply (@normalizeBaseUrl_unique _ 0%nat).
  - intros k. rewrite Hcut at 1.
    rewrite <- app_assoc, <- repeat_app.
    now apply (@normalizeBaseUrl_unique _ (k0 + k)%nat).
Qed.

End RouteFacts.

(** ** Facts about [bytesToHuman] *)

Module SizeFacts.

Import JS Size.

Lemma scale_loop_closed (bytes : Z) :
  let idx := if bytes <? 1024 then 0
             else if bytes <? 1024 ^ 2 then 1
             else if bytes <? 1024 ^ 3 then 2 else 3 in
  scale_loop (S (length units)) {| numerator := bytes; denominator := 1 |} 0
  = Returned ({| numerator := bytes; denominator := 1024 ^ idx |}, idx).
Proof.
  cbv zeta. unfold scale_loop, at_least.
  cbn [length units numerator denominator Z.of_nat].
  change (Z.of_nat 4 - 1) with 3. change (Z.pos (Pos.of_succ_nat 3) - 1) with 3.
  repeat match goal with
         | |- context [Z.leb ?a ?b] => destruct (Z.leb_spec a b); try lia
         | |- context [Z.ltb ?a ?b] => destruct (Z.ltb_spec a b); try lia
         end; cbn [andb]; try reflexivity.
Qed.

(** X27. [bytesToHuman] for a file size (an integer from 0 up to 2^53):
    the unit is B below 1024, KB below 1024^2, MB below 1024^3 and GB
    from there on, with no larger unit; the number is the size divided
    by the unit, with no decimals for B, one decimal from 10 on and two
    below 10. Below 1024 the result is the size in decimal followed by
    " B". *)
Theorem bytesToHuman_unit_and_decimals (bytes : Z) :
  0 <= bytes < 2 ^ 53 ->
  let idx := if bytes <? 1024 then 0
             else if bytes <? 1024 ^ 2 then 1
             else if bytes <? 1024 ^ 3 then 2 else 3 in
  let fixed := if idx =? 0 then 0
               else if 10 * 1024 ^ idx <=? bytes then 1 else 2 in
  bytesToHuman bytes
  = Returned (toFixed {| numerator := bytes; denominator := 1024 ^ idx |} fixed
              ++ lit " " ++ unit_name idx)
  /\ (bytes < 1024 -> bytesToHuman bytes = Returned (decimal bytes ++ lit " B")).
Proof.
  intros Hb idx fixed. unfold bytesToHuman.
  rewrite scale_loop_closed. fold idx. cbn [JS.bind fst snd].
  unfold at_least. cbn [numerator denominator]. fold fixed.
  split; [reflexivity|].
  intros Hlt. subst fixed idx.
  destruct (Z.ltb_spec bytes 1024); [|lia].
  cbn [Z.eqb]. unfold toFixed. cbn [numerator denominator Z.eqb].
  do 3 f_equal. change (10 ^ 0) with 1. change (1024 ^ 0) with 1.
  symmetry. apply Z.div_unique with (r := 1); lia.
Qed.

Lemma bytesToHuman_unit_and_decimals_witness :
  bytesToHuman 1536 = Returned (lit "1.50 KB")
  /\ (1536 < 1024 -> bytesToHuman 1536 = Returned (decimal 1536 ++ lit " B")).
Proof. apply (@bytesToHuman_unit_and_decimals 1536). lia. Defined.

(** X28. Just below the next unit the text shows 1024 of the smaller
    one: a size from 1023.95 KB up to, not including, 1 MB is shown as
    "1024.0 KB", and from 1023.95 MB up to 1 GB as "1024.0 MB", because
    the unit is chosen before the number is rounded. *)
Theorem bytesToHuman_shows_1024_below_the_next_unit (bytes k : Z) :
  k = 1 \/ k = 2 ->
  20479 * 1024 ^ k <= 20 * bytes < 20480 * 1024 ^ k ->
  bytesToHuman bytes = Returned (lit "1024.0 " ++ unit_name k).
Proof.
  intros Hk Hb. unfold bytesToHuman. rewrite scale_loop_closed.
  cbn [JS.bind fst snd]. unfold at_least. cbn [numerator denominator].
  destruct Hk as [-> | ->]; change (1024 ^ 1) with 1024 in *;
    change (1024 ^ 2) with 1048576 in *; change (1024 ^ 3) with 1073741824.
  - destruct (Z.ltb_spec bytes 1024); [lia|].
    destruct (Z.ltb_spec bytes 1048576); [|lia].
    cbn [Z.eqb]. change (1024 ^ 1) with 1024.
    destruct (Z.leb_spec (10 * 1024) bytes); [|lia].
    unfold toFixed. cbn [numerator denominator Z.eqb].
    replace ((2 * (bytes * 10 ^ 1) + 1024) / (2 * 1024)) with 10240
      by (apply Z.div_unique with (r := 20 * bytes + 1024 - 2048 * 10240); lia).
    reflexivity.
  - destruct (Z.ltb_spec bytes 1024); [lia|].
    destruct (Z.ltb_spec bytes 1048576); [lia|].
    destruct (Z.ltb_spec bytes 1073741824); [|lia].
    cbn [Z.eqb]. change (1024 ^ 2) with 1048576.
    destruct (Z.leb_spec (10 * 1048576) bytes); [|lia].
    unfold toFixed. cbn [numerator denominator Z.eqb].
    replace ((2 * (bytes * 10 ^ 1) + 1048576) / (2 * 1048576)) with 10240
      by (apply Z.div_unique
            with (r := 20 * bytes + 1048576 - 2097152 * 10240); lia).
    reflexivity.
Qed.

Lemma bytesToHuman_shows_1024_witness :
  bytesToHuman 1048575 = Returned (lit "1024.0 " ++ unit_name 1).
Proof.
  apply (@bytesToHuman_shows_1024_below_the_next_unit 1048575 1);
    [now left|lia].
Defined.

End SizeFacts.

(** ** What the fatal decoder delivers *)

Module DecoderFacts.

Import JS Host PngCard Walker Text Examples JSFacts BufferFacts WalkerFacts HostFacts StreamFacts KeywordFacts.

Lemma lead_completes (v : Z) (st : utf8_state) :
  0 <= v < 256 -> utf8_lead v = LeadOpen st -> completes_to_scalars st.
Proof.
  intros Hv. unfold utf8_lead.
  destruct (Z.leb_spec v 0x7F); [discriminate|].
  destruct (Z.leb_spec 0xC2 v); destruct (Z.leb_spec v 0xDF); cbn [andb].
  { intros Hlead. inversion Hlead; subst st. clear Hlead.
    unfold completes_to_scalars. cbn [bytes_left code_point lower_boundary upper_boundary].
    intros x Hx. apply is_scalar_spec.
    rewrite (@land_ones_literal _ 5 0x1F) by (try lia; reflexivity).
    change (2 ^ 5) with 32.
    assert (v mod 32 = v - 192) by (Z.div_mod_to_equations; lia).
    assert (x mod 64 = x - 128) by (Z.div_mod_to_equations; lia). lia. }
  all: destruct (Z.leb_spec 0xE0 v); destruct (Z.leb_spec v 0xEF); cbn [andb];
    try lia.
  { intros Hlead. inversion Hlead; subst st. clear Hlead.
    unfold completes_to_scalars. cbn [bytes_left code_point lower_boundary upper_boundary].
    intros x1 x2 Hx1 Hx2. apply is_scalar_spec.
    rewrite (@land_ones_literal _ 4 0xF) by (try lia; reflexivity).
    change (2 ^ 4) with 16.
    assert (v mod 16 = v - 224) by (Z.div_mod_to_equations; lia).
    assert (x2 mod 64 = x2 - 128) by (Z.div_mod_to_equations; lia).
    destruct (Z.eqb_spec v 0xE0); destruct (Z.eqb_spec v 0xED); try lia;
      assert (x1 mod 64 = x1 - 128) by (Z.div_mod_to_equations; lia); lia. }
  all: destruct (Z.leb_spec 0xF0 v); destruct (Z.leb_spec v 0xF4); cbn [andb];
    try lia; try discriminate.
  all: intros Hlead; inversion Hlead; subst st; clear Hlead;
    unfold completes_to_scalars;
    cbn [bytes_left code_point lower_boundary upper_boundary];
    intros x1 x2 x3 Hx1 Hx2 Hx3; apply is_scalar_spec;
    rewrite (@land_ones_literal _ 3 0x7) by (try lia; reflexivity);
    change (2 ^ 3) with 8;
    assert (v mod 8 = v - 240) by (Z.div_mod_to_equations; lia);
    assert (x2 mod 64 = x2 - 128) by (Z.div_mod_to_equations; lia);
    assert (x3 mod 64 = x3 - 128) by (Z.div_mod_to_equations; lia);
    destruct (Z.eqb_spec v 0xF0); destruct (Z.eqb_spec v 0xF4); try lia;
    assert (x1 mod 64 = x1 - 128) by (Z.div_mod_to_equations; lia); lia.
Qed.

Lemma on_lead_items (b : byte) (rest : bytes) :
  (forall st, st = None \/ (exists s, st = Some s /\ completes_to_scalars s) ->
     Forall item_ok (utf8_items st rest)) ->
  Forall item_ok
    (utf8_on_lead (byte_val b) (fun st' => utf8_items st' rest)).
Proof.
  intros IH. unfold utf8_on_lead.
  pose proof (byte_val_range b) as Hb.
  destruct (utf8_lead (byte_val b)) as [c|st|] eqn:El.
  - constructor; [|apply IH; now left].
    unfold utf8_lead in El. destruct (Z.leb_spec (byte_val b) 0x7F).
    + inversion El; subst c. apply is_scalar_spec. lia.
    + repeat match type of El with
             | (if ?t then _ else _) = _ => destruct t; try discriminate
             end.
  - apply IH. right. exists st. split; [reflexivity|].
    now apply (@lead_completes (byte_val b)).
  - constructor; [exact I|apply IH; now left].
Qed.

Lemma utf8_items_ok (input : bytes) : forall st,
  st = None \/ (exists s, st = Some s /\ completes_to_scalars s) ->
  Forall item_ok (utf8_items st input).
Proof.
  induction input as [|b rest IH]; intros st Hst.
  - destruct st; cbn [utf8_items]; repeat constructor.
  - destruct Hst as [->|(s & -> & Hs)].
    + rewrite utf8_items_lead. now apply on_lead_items.
    + cbn [utf8_items]. cbv zeta.
      destruct (Z.leb_spec (lower_boundary s) (byte_val b));
        destruct (Z.leb_spec (byte_val b) (upper_boundary s)); cbn [andb];
        try (constructor; [exact I|now apply on_lead_items]).
      rewrite accumulate_any.
      unfold completes_to_scalars in Hs. cbv zeta in Hs.
      destruct (bytes_left s) as [|[|[|[|n]]]]; try contradiction.
      * constructor; [apply Hs; lia|apply IH; now left].
      * apply IH. right. eexists. split; [reflexivity|].
        unfold completes_to_scalars.
        cbn [bytes_left code_point lower_boundary upper_boundary].
        intros v Hv. apply Hs; lia.
      * apply IH. right. eexists. split; [reflexivity|].
        unfold completes_to_scalars.
        cbn [bytes_left code_point lower_boundary upper_boundary].
        intros v1 v2 Hv1 Hv2. apply Hs; lia.
Qed.

Lemma all_decoded_scalars (items : list (option Z)) : forall cs,
  Forall item_ok items -> all_decoded items = Some cs ->
  Forall (fun c => is_scalar c = true) cs.
Proof.
  induction items as [|[c|] items IH]; intros cs Hok H; cbn [all_decoded] in H.
  - inversion H. constructor.
  - apply Forall_cons_iff in Hok as [Hc Hok].
    destruct (all_decoded items) as [cs'|]; [|discriminate].
    inversion H; subst cs. constructor; [exact Hc|now apply IH].
  - discriminate.
Qed.

Lemma from_scalars_well_formed (cs : list Z) :
  Forall (fun c => is_scalar c = true) cs ->
  isWellFormed (flat_map from_scalar cs) = true.
Proof.
  induction 1 as [|c cs Hc _ IH]; [reflexivity|].
  apply is_scalar_spec in Hc. cbn [flat_map].
  remember (flat_map from_scalar cs) as tail eqn:Et. clear Et.
  unfold from_scalar.
  destruct (Z.leb_spec c 0xFFFF) as [Hle|Hgt].
  - cbn [app isWellFormed].
    destruct (is_high_surrogate c) eqn:Eh;
      [apply (surrogate_tests c) in Eh; lia|].
    destruct (is_low_surrogate c) eqn:El;
      [apply (surrogate_tests c) in El; lia|].
    rewrite IH. cbn [negb andb].
    destruct (Z.leb_spec 0 c); destruct (Z.leb_spec c 0xFFFF);
      try lia; reflexivity.
  - assert (Hs : Z.shiftr (c - 0x10000) 10 = (c - 0x10000) / 1024)
      by (rewrite Z.shiftr_div_pow2 by lia; reflexivity).
    assert (Hm : Z.land (c - 0x10000) 0x3FF = (c - 0x10000) mod 1024)
      by (rewrite (@land_ones_literal _ 10 0x3FF) by (try lia; reflexivity);
          reflexivity).
    rewrite Hs, Hm.
    set (h := 0xD800 + (c - 0x10000) / 1024).
    set (l := 0xDC00 + (c - 0x10000) mod 1024).
    assert (Hh : 0xD800 <= h <= 0xDBFF)
      by (unfold h; Z.div_mod_to_equations; lia).
    assert (Hl : 0xDC00 <= l <= 0xDFFF)
      by (unfold l; Z.div_mod_to_equations; lia).
    cbn [app isWellFormed].
    destruct (surrogate_tests h) as [Hh' _]. destruct (surrogate_tests l) as [_ Hl'].
    rewrite (proj2 Hh' Hh), (proj2 Hl' Hl), IH.
    destruct (Z.leb_spec 0 h); destruct (Z.leb_spec h 0xFFFF);
      try lia; reflexivity.
Qed.

Lemma drop_bom_scalars (cs : list Z) :
  Forall (fun c => is_scalar c = true) cs ->
  Forall (fun c => is_scalar c = true) (drop_bom cs).
Proof.
  intros H. destruct cs as [|c cs]; [constructor|]. cbn [drop_bom].
  destruct (c =? 0xFEFF); [now apply Forall_cons_iff in H|exact H].
Qed.

Lemma base64DecodeUtf8_well_formed (b64 t : jsstring) :
  base64DecodeUtf8 b64 = Returned t -> isWellFormed t = true.
Proof.
  unfold base64DecodeUtf8. destruct (atob b64) as [binary| |]; try discriminate.
  cbn [JS.bind]. unfold utf8_decode_fatal.
  destruct (all_decoded (utf8_items None (map to_uint8 binary))) as [cs|] eqn:Ea;
    [|discriminate].
  intros H. apply Returned_inj in H. subst t.
  apply from_scalars_well_formed, drop_bom_scalars.
  apply (all_decoded_scalars (items := utf8_items None (map to_uint8 binary)));
    [|exact Ea].
  apply utf8_items_ok. now left.
Qed.

(** X29. The text of a card that [extractCardFromPng] returns is always
    a well-formed string: 16-bit code units with no unpaired surrogate,
    since the fatal decoder delivers scalar values only. *)
Theorem extracted_text_is_well_formed (p : bytes) (card : ExtractedPngCard) :
  extractCardFromPng p = Returned (Some card) ->
  isWellFormed (jsonText card) = true.
Proof.
  rewrite extract_spec. intros H.
  destruct (has_signature p); [|discriminate].
  destruct (find is_carrier (chunks p)) as [c|] eqn:Ef; [|discriminate].
  apply find_some in Ef as [_ Hc].
  destruct (decode_carrier_result c Hc) as (parsed & _ & _ & Hd).
  rewrite Hd in H.
  destruct (base64DecodeUtf8 (ascii_decode (textBytes parsed))) as [t| |] eqn:Eb;
    try discriminate.
  cbn [JS.bind] in H. apply Returned_inj in H. inversion H; subst card.
  cbn [jsonText]. now apply base64DecodeUtf8_well_formed in Eb.
Qed.

Lemma extracted_text_is_well_formed_witness :
  isWellFormed (jsonText {| keyword := lit "chara"; jsonText := lit "{}" |}) = true.
Proof.
  apply (@extracted_text_is_well_formed (Examples.png [ihdr; chara_braces; iend])
           {| keyword := lit "chara"; jsonText := lit "{}" |}).
  vm_compute. reflexivity.
Defined.

End DecoderFacts.

(** ** Card chunks, byte by byte

    The test of the two loops ([is_carrier]) is the test on the bytes
    ([card_chunk]): keyword bytes "chara" or "ccv3", with or without the
    byte order mark before them. What the loops do with the chunks of a
    stream is stated on that reading. *)

Module CardChunkFacts.

Import JS Crc32 Host PngCard Walker Text Base64 Examples Keying.
Import JSFacts WalkerFacts PngCardFacts HostFacts RoundTripFacts HelperFacts.
Import StreamFacts KeywordFacts.

Lemma bytes_eqb_eq (a b : bytes) : bytes_eqb a b = true <-> a = b.
Proof.
  unfold bytes_eqb. destruct (list_eq_dec Byte.byte_eq_dec a b); split;
    congruence.
Qed.

Lemma bool_eq_iff (a b : bool) : (a = true <-> b = true) -> a = b.
Proof. destruct a, b; intros [H1 H2]; auto; symmetry; auto. Qed.

Lemma parse_keyword_bytes (data : bytes) :
  option_map parsed_keyword (parseTextChunkKeyword data)
  = option_map utf8_decode (keyword_bytes data).
Proof.
  unfold parseTextChunkKeyword, keyword_bytes. cbv zeta.
  destruct (indexOf data x00 <=? 0); reflexivity.
Qed.

Lemma type_is_text (c : chunk) :
  type_is c "tEXt" = bytes_eqb (ctype c) (ascii "tEXt").
Proof.
  apply bool_eq_iff. unfold type_is. rewrite jsstring_eqb_eq, bytes_eqb_eq.
  split.
  - intros H. apply ascii_decode_ascii in H; [exact H|ascii_text].
  - intros ->. reflexivity.
Qed.

Lemma card_word_spec (kb : bytes) :
  card_word kb = true <-> kb = ascii "chara" \/ kb = ascii "ccv3".
Proof.
  unfold card_word. rewrite orb_true_iff, !bytes_eqb_eq. reflexivity.
Qed.

(** The keyword bytes that decode to "chara" or "ccv3". *)
Lemma keyword_decodes_to_card_word (kb : bytes) :
  is_card_keyword (utf8_decode kb)
  = card_word kb
    || match kb with
       | a :: b :: m :: kb' => bytes_eqb [a; b; m] [xef; xbb; xbf] && card_word kb'
       | _ => false
       end.
Proof.
  apply bool_eq_iff. rewrite is_card_keyword_spec, orb_true_iff. split.
  - intros [H|H]; apply utf8_decode_ascii in H; try ascii_text;
      destruct H as [-> | ->]; (now left) || (now right).
  - intros [H|H].
    + apply card_word_spec in H as [-> | ->]; [now left|now right].
    + destruct kb as [|a [|b [|m kb']]]; try discriminate.
      apply andb_prop in H as [Hm Hw]. apply bytes_eqb_eq in Hm.
      inversion Hm; subst a b m.
      apply card_word_spec in Hw as [-> | ->]; [now left|now right].
Qed.

(** The codec's test decides exactly the byte-level predicate: the type
    tag is "tEXt" and the keyword bytes are "chara" or "ccv3", bare or
    behind EF BB BF. *)
Lemma is_carrier_card_chunk (c : chunk) : is_carrier c = card_chunk c.
Proof.
  unfold is_carrier, card_chunk, ascii_keyed, mark_keyed.
  rewrite type_is_text. pose proof (parse_keyword_bytes (cdata c)) as H.
  destruct (bytes_eqb (ctype c) (ascii "tEXt")); cbn [andb]; [|reflexivity].
  destruct (parseTextChunkKeyword (cdata c)) as [parsed|];
    destruct (keyword_bytes (cdata c)) as [kb|]; try discriminate;
    [|reflexivity].
  cbn [option_map] in H. inversion H as [Hk]. rewrite Hk.
  rewrite keyword_decodes_to_card_word.
  destruct kb as [|a [|b [|m kb']]]; reflexivity.
Qed.

Lemma filter_same (A : Type) (f g : A -> bool) (l : list A) :
  (forall a, f a = g a) -> filter f l = filter g l.
Proof.
  intros H. induction l as [|a l IH]; [reflexivity|].
  cbn [filter]. now rewrite H, IH.
Qed.

Lemma forallb_same (A : Type) (f g : A -> bool) (l : list A) :
  (forall a, f a = g a) -> forallb f l = forallb g l.
Proof.
  intros H. induction l as [|a l IH]; [reflexivity|].
  cbn [forallb]. now rewrite H, IH.
Qed.

Lemma find_same (A : Type) (f g : A -> bool) (l : list A) :
  (forall a, f a = g a) -> find f l = find g l.
Proof.
  intros H. induction l as [|a l IH]; [reflexivity|].
  cbn [find]. now rewrite H, IH.
Qed.

(** What the first loop makes of a card chunk, on its bytes. *)
Lemma card_chunk_decodes (c : chunk) :
  card_chunk c = true ->
  exists word tb,
    (word = "chara"%string \/ word = "ccv3"%string)
    /\ (cdata c = ascii word ++ x00 :: tb
        \/ cdata c = xef :: xbb :: xbf :: ascii word ++ x00 :: tb)
    /\ decode_carrier c =
       (text <- base64DecodeUtf8 (ascii_decode tb) ;;
        Returned (Some {| keyword := lit word; jsonText := text |})).
Proof.
  rewrite <- is_carrier_card_chunk. intros Hc.
  destruct (decode_carrier_result c Hc) as (parsed & Hp & Hk & Hd).
  destruct (parse_some _ Hp) as (kb & _ & _ & Hdata & Hkw).
  rewrite Hkw in Hk. pose proof Hk as Hk'.
  apply is_card_keyword_spec in Hk.
  destruct Hk as [Hk|Hk]; pose proof Hk as Hb;
    apply utf8_decode_ascii in Hb; try ascii_text.
  - exists "chara"%string, (textBytes parsed). split; [now left|]. split.
    + rewrite Hdata. destruct Hb as [-> | ->]; [now left|now right].
    + rewrite Hd, Hkw, Hk. reflexivity.
  - exists "ccv3"%string, (textBytes parsed). split; [now right|]. split.
    + rewrite Hdata. destruct Hb as [-> | ->]; [now left|now right].
    + rewrite Hd, Hkw, Hk. reflexivity.
Qed.

Lemma embed_returns (p : bytes) (s : jsstring) (opts : option EmbedOptions) :
  firstn 8 p = PNG_SIGNATURE -> stream_end p <> Overrun ->
  exists out, embedCardIntoPng p s opts = Returned out.
Proof.
  intros Hs He. apply has_signature_true in Hs. rewrite embed_spec, Hs.
  destruct (stream_end p); [eexists; reflexivity..|contradiction].
Qed.

(** C2, the statement as written fails, twice over. The "IEND" chunk of
    the first input has a zero CRC field; it is no tEXt chunk, yet no
    chunk of the output equals it. The second input holds a tEXt chunk
    with a correct CRC field whose keyword bytes are EF BB BF "chara":
    read as ASCII that is neither "chara" nor "ccv3", yet the chunk is
    dropped. *)
Lemma copied_chunks_counterexample :
  (exists out : bytes,
     embedCardIntoPng (Examples.png [ihdr; iend_zero_crc]) (lit "{}") None
     = Returned out
     /\ In iend_zero_crc (chunks (Examples.png [ihdr; iend_zero_crc]))
     /\ ascii_keyed iend_zero_crc = false
     /\ ~ In iend_zero_crc (chunks out))
  /\ (exists out : bytes,
        embedCardIntoPng (Examples.png [ihdr; marked_chara_brackets; iend])
          (lit "{}") None = Returned out
        /\ In marked_chara_brackets
              (chunks (Examples.png [ihdr; marked_chara_brackets; iend]))
        /\ crc_correct marked_chara_brackets
        /\ ascii_keyed marked_chara_brackets = false
        /\ ~ In marked_chara_brackets (chunks out)).
Proof.
  split.
  - eexists. split; [vm_compute; reflexivity|].
    split; [vm_compute; tauto|]. split; [reflexivity|].
    vm_compute. intuition discriminate.
  - eexists. split; [vm_compute; reflexivity|].
    split; [vm_compute; tauto|]. split; [reflexivity|]. split; [reflexivity|].
    vm_compute. intuition discriminate.
Qed.

(** C2, amended. On every buffer that has the signature and no chunk
    overrunning it (the buffers on which [embedCardIntoPng] returns),
    the chunks of the input that are no card chunks are, in the same
    order, the chunks of the output that are no card chunks: each keeps
    its type tag and payload (hence its length field), gets a CRC field
    computed afresh, and so is byte-identical exactly when its CRC field
    was the checksum already. A card chunk is a tEXt chunk whose keyword
    bytes are "chara" or "ccv3", or those bytes behind EF BB BF. The
    output is the serialisation of the chunks written; a walk of it
    finds them when the inserted payload fits the 32-bit length field. *)
Theorem embed_keeps_chunks_that_are_no_cards
    (p : bytes) (s : jsstring) (opts : option EmbedOptions) :
  firstn 8 p = PNG_SIGNATURE -> stream_end p <> Overrun ->
  exists (out : bytes) (written : list chunk),
    embedCardIntoPng p s opts = Returned out
    /\ out = PNG_SIGNATURE ++ flat_map chunk_bytes written
    /\ Forall2 (fun c c' =>
                  ctype c' = ctype c /\ cdata c' = cdata c
                  /\ ccrc c' = writeUint32BE (Crc32.crc32 (ctype c ++ cdata c))
                  /\ (crc_correct c -> c' = c))
               (filter (fun c => negb (card_chunk c)) (chunks p))
               (filter (fun c => negb (card_chunk c)) written)
    /\ (fits_length_field (payload64 s) -> chunks out = written).
Proof.
  intros Hs He. destruct (@embed_returns p s opts Hs He) as [out Hout].
  destruct (embed_keeps_other_chunks _ _ _ Hout) as (written & E & Hkept & Hw).
  exists out, written. split; [exact Hout|]. split; [exact E|].
  split; [|exact Hw].
  rewrite !(filter_same (fun c => negb (card_chunk c))
                        (fun c => negb (is_carrier c)))
    by (intros a; now rewrite is_carrier_card_chunk).
  exact Hkept.
Qed.

Lemma embed_keeps_chunks_witness :
  exists (out : bytes) (written : list chunk),
    embedCardIntoPng
      (Examples.png [ihdr; marked_chara_brackets; chara_braces; iend_zero_crc])
      (lit "[]") None = Returned out
    /\ out = PNG_SIGNATURE ++ flat_map chunk_bytes written
    /\ Forall2 (fun c c' =>
                  ctype c' = ctype c /\ cdata c' = cdata c
                  /\ ccrc c' = writeUint32BE (Crc32.crc32 (ctype c ++ cdata c))
                  /\ (crc_correct c -> c' = c))
               (filter (fun c => negb (card_chunk c))
                  (chunks (Examples.png
                     [ihdr; marked_chara_brackets; chara_braces; iend_zero_crc])))
               (filter (fun c => negb (card_chunk c)) written)
    /\ (fits_length_field (payload64 (lit "[]")) -> chunks out = written).
Proof.
  apply (@embed_keeps_chunks_that_are_no_cards
           (Examples.png [ihdr; marked_chara_brackets; chara_braces; iend_zero_crc])
           (lit "[]") None);
    [reflexivity|vm_compute; discriminate].
Defined.

(** C9, the statement as written fails. In this stream the tEXt chunks
    keyed "chara" or "ccv3" are the third and the fourth chunk; the
    second has the keyword bytes EF BB BF "chara". The claim's first
    qualifying chunk decodes to [{}], but [extractCardFromPng] returns
    [[]], the text of the second chunk. *)
Lemma first_keyed_chunk_counterexample :
  chunks (Examples.png [ihdr; marked_chara_brackets; chara_braces;
                        ccv3_brackets; iend])
  = [ihdr; marked_chara_brackets; chara_braces; ccv3_brackets; iend]
  /\ filter ascii_keyed [ihdr; marked_chara_brackets; chara_braces;
                         ccv3_brackets; iend]
     = [chara_braces; ccv3_brackets]
  /\ decode_carrier chara_braces
     = Returned (Some {| keyword := lit "chara"; jsonText := lit "{}" |})
  /\ extractCardFromPng (Examples.png [ihdr; marked_chara_brackets; chara_braces;
                                       ccv3_brackets; iend])
     = Returned (Some {| keyword := lit "chara"; jsonText := lit "[]" |})
  /\ extractCardFromPng (Examples.png [ihdr; marked_chara_brackets; chara_braces;
                                       ccv3_brackets; iend])
     <> decode_carrier chara_braces.
Proof.
  split; [vm_compute; reflexivity|]. split; [reflexivity|].
  split; [vm_compute; reflexivity|]. split; [vm_compute; reflexivity|].
  vm_compute. discriminate.
Qed.

(** C9, amended. When the chunk stream holds card chunks (tEXt chunks
    whose keyword bytes are "chara" or "ccv3", or those bytes behind
    EF BB BF), [extractCardFromPng] returns what the first of them in
    stream order decodes to: the base64 and UTF-8 decoding of the bytes
    after its NUL, under the keyword without the mark. Nothing that
    follows it, card chunk or not, has any effect on the result. *)
Theorem extract_first_card_chunk_wins
    (p : bytes) (pre post : list chunk) (c : chunk) :
  firstn 8 p = PNG_SIGNATURE ->
  chunks p = pre ++ c :: post ->
  forallb (fun x => negb (card_chunk x)) pre = true ->
  card_chunk c = true ->
  extractCardFromPng p = decode_carrier c
  /\ exists word tb,
       (word = "chara"%string \/ word = "ccv3"%string)
       /\ (cdata c = ascii word ++ x00 :: tb
           \/ cdata c = xef :: xbb :: xbf :: ascii word ++ x00 :: tb)
       /\ extractCardFromPng p =
          (text <- base64DecodeUtf8 (ascii_decode tb) ;;
           Returned (Some {| keyword := lit word; jsonText := text |})).
Proof.
  intros Hs Hcs Hpre Hc. apply has_signature_true in Hs.
  assert (E : extractCardFromPng p = decode_carrier c).
  { apply (@extract_first_carrier_wins p pre post c);
      [exact Hs|exact Hcs| |now rewrite is_carrier_card_chunk].
    rewrite <- Hpre. apply forallb_same. intros a.
    now rewrite is_carrier_card_chunk. }
  split; [exact E|].
  destruct (card_chunk_decodes c Hc) as (word & tb & Hw & Hd & Hdec).
  exists word, tb. split; [exact Hw|]. split; [exact Hd|]. now rewrite E.
Qed.

Lemma extract_first_card_chunk_wins_witness :
  extractCardFromPng (Examples.png [ihdr; chara_braces; ccv3_brackets; iend])
  = decode_carrier chara_braces
  /\ exists word tb,
       (word = "chara"%string \/ word = "ccv3"%string)
       /\ (cdata chara_braces = ascii word ++ x00 :: tb
           \/ cdata chara_braces = xef :: xbb :: xbf :: ascii word ++ x00 :: tb)
       /\ extractCardFromPng (Examples.png [ihdr; chara_braces; ccv3_brackets; iend])
          = (text <- base64DecodeUtf8 (ascii_decode tb) ;;
             Returned (Some {| keyword := lit word; jsonText := text |})).
Proof.
  apply (@extract_first_card_chunk_wins
           (Examples.png [ihdr; chara_braces; ccv3_brackets; iend])
           [ihdr] [ccv3_brackets; iend] chara_braces); reflexivity.
Defined.

(** C10, the statement as written fails. The second chunk of this
    stream is a tEXt chunk without a NUL byte, and no chunk of the
    stream is a tEXt chunk keyed "chara" or "ccv3"; yet
    [extractCardFromPng] does not return [null]: it returns the text of
    the third chunk, whose keyword bytes are EF BB BF "chara". *)
Lemma passed_over_then_found_counterexample :
  type_is text_without_nul "tEXt" = true
  /\ ~ In x00 (cdata text_without_nul)
  /\ chunks (Examples.png [ihdr; text_without_nul; marked_chara_brackets; iend])
     = [ihdr; text_without_nul; marked_chara_brackets; iend]
  /\ forallb (fun c => negb (ascii_keyed c))
       [ihdr; text_without_nul; marked_chara_brackets; iend] = true
  /\ extractCardFromPng
       (Examples.png [ihdr; text_without_nul; marked_chara_brackets; iend])
     = Returned (Some {| keyword := lit "chara"; jsonText := lit "[]" |})
  /\ extractCardFromPng
       (Examples.png [ihdr; text_without_nul; marked_chara_brackets; iend])
     <> Returned None.
Proof.
  split; [reflexivity|]. split; [vm_compute; intuition discriminate|].
  split; [vm_compute; reflexivity|]. split; [reflexivity|].
  split; [vm_compute; reflexivity|]. vm_compute. discriminate.
Qed.

(** C10, amended. A tEXt chunk whose payload has no NUL byte, or starts
    with NUL (empty keyword), is no card chunk. [extractCardFromPng],
    on a stream with no card chunk before it, goes on past it and
    returns what the first card chunk after it decodes to, [null] when
    no card chunk follows. [embedCardIntoPng], on every buffer that has
    the signature and no chunk overrunning it, returns, and what it
    returns holds the chunk with its type and payload kept and its CRC
    computed afresh; a walk of the output finds that chunk when the
    inserted payload fits the 32-bit length field. A card chunk is a
    tEXt chunk whose keyword bytes are "chara" or "ccv3", or those
    bytes behind EF BB BF. *)
Theorem malformed_text_chunk_is_no_card_chunk (c : chunk) :
  type_is c "tEXt" = true ->
  ~ In x00 (cdata c) \/ hd_error (cdata c) = Some x00 ->
  card_chunk c = false
  /\ (forall p pre post,
        firstn 8 p = PNG_SIGNATURE ->
        chunks p = pre ++ c :: post ->
        forallb (fun x => negb (card_chunk x)) pre = true ->
        extractCardFromPng p =
        match find card_chunk post with
        | Some c' => decode_carrier c'
        | None => Returned None
        end)
  /\ (forall p s opts,
        firstn 8 p = PNG_SIGNATURE ->
        stream_end p <> Overrun ->
        In c (chunks p) ->
        exists out before after,
          embedCardIntoPng p s opts = Returned out
          /\ out = PNG_SIGNATURE ++ flat_map chunk_bytes before
                     ++ chunk_bytes (recrc c) ++ flat_map chunk_bytes after
          /\ (fits_length_field (payload64 s) ->
              chunks out = before ++ recrc c :: after)).
Proof.
  intros Hty Hbad.
  destruct (malformed_text_chunk_is_passed_over c Hty Hbad) as (Hcar & Hex & _).
  split; [now rewrite <- is_carrier_card_chunk|]. split.
  - intros p pre post Hs Hc Hpre. apply has_signature_true in Hs.
    rewrite (Hex p pre post Hs Hc).
    + now rewrite (find_same is_carrier card_chunk post is_carrier_card_chunk).
    + rewrite <- Hpre. apply forallb_same. intros a.
      now rewrite is_carrier_card_chunk.
  - intros p s opts Hs He Hin.
    destruct (@embed_returns p s opts Hs He) as [out Hout].
    destruct (embed_output _ _ _ Hout) as (_ & _ & E & Hfit). cbv zeta in Hfit.
    apply in_split in Hin as (l1 & l2 & Hin).
    assert (Hrw : rewrite_chunks (insertion_set opts (payload64 s)) (chunks p)
                  = rewrite_chunks (insertion_set opts (payload64 s)) l1
                    ++ recrc c
                    :: rewrite_chunks (insertion_set opts (payload64 s)) l2).
    { rewrite Hin, rewrite_chunks_app. f_equal.
      change (c :: l2) with ([c] ++ l2). rewrite rewrite_chunks_app.
      unfold rewrite_chunks at 1. cbn [flat_map].
      assert (Hni : type_is c "IEND" = false).
      { destruct (type_is c "IEND") eqn:Ei; [|reflexivity].
        apply type_iend_not_text in Ei. congruence. }
      rewrite Hni, Hcar. reflexivity. }
    exists out, (rewrite_chunks (insertion_set opts (payload64 s)) l1),
           (rewrite_chunks (insertion_set opts (payload64 s)) l2).
    split; [exact Hout|]. split.
    + rewrite E, Hrw, flat_map_app. reflexivity.
    + intros Hf. destruct (Hfit Hf) as [Hc _]. now rewrite Hc.
Qed.

Lemma malformed_text_chunk_is_no_card_chunk_witness :
  card_chunk text_without_nul = false
  /\ extractCardFromPng
       (Examples.png [ihdr; text_without_nul; ccv3_brackets; iend])
     = Returned (Some {| keyword := lit "ccv3"; jsonText := lit "[]" |})
  /\ exists out before after,
       embedCardIntoPng
         (Examples.png [ihdr; text_without_nul; ccv3_brackets; iend])
         (lit "{}") None = Returned out
       /\ out = PNG_SIGNATURE ++ flat_map chunk_bytes before
                  ++ chunk_bytes (recrc text_without_nul)
                  ++ flat_map chunk_bytes after
       /\ (fits_length_field (payload64 (lit "{}")) ->
           chunks out = before ++ recrc text_without_nul :: after).
Proof.
  destruct (@malformed_text_chunk_is_no_card_chunk text_without_nul)
    as (A & B & C).
  - reflexivity.
  - left. vm_compute. intuition discriminate.
  - split; [exact A|]. split.
    + rewrite (B (Examples.png [ihdr; text_without_nul; ccv3_brackets; iend])
                 [ihdr] [ccv3_brackets; iend]); reflexivity.
    + apply (C (Examples.png [ihdr; text_without_nul; ccv3_brackets; iend])
               (lit "{}") None);
        [reflexivity|vm_compute; discriminate|vm_compute; tauto].
Defined.

End CardChunkFacts.
